(** * wordgraph6: trie construction, minimisation and flattening of a DAWG

    A shallow embedding of [wordgraph6.go].  Go pointers to [treenode] are
    addresses into an explicit store; every method that mutates a node
    threads the store.  Go maps keyed by node pointers are finite maps and
    sets keyed by addresses.  Recursion over pointer chains is bounded by a
    fuel argument: running out of fuel stands for a traversal that does not
    return. *)

From Stdlib Require Import ZArith Lia.
From Stdlib Require Strings.String Strings.Byte.
Import Stdlib.Strings.String.StringSyntax.
Delimit Scope string_scope with string.
From stdpp Require Import base list gmap sets sorting.

Open Scope Z_scope.

(** ** Machine integers *)

Definition wrap32 (x : Z) : Z := (x + 2^31) mod 2^32 - 2^31.
Definition wrap64 (x : Z) : Z := (x + 2^63) mod 2^64 - 2^63.

(** A byte is an integer in [0, 256); a Go string is its byte sequence. *)
Abbreviation byte := Z (only parsing).
Abbreviation gostring := (list Z) (only parsing).
Abbreviation rune := Z (only parsing).

(** ** unicode/utf8 *)

Module utf8.

Definition RuneError : rune := 65533.
Definition MaxRune : rune := 1114111.
Definition surrogateMin : rune := 55296.
Definition surrogateMax : rune := 57343.

Definition locb : Z := 128.
Definition hicb : Z := 191.
Definition maskx : Z := 63.
Definition mask2 : Z := 31.
Definition mask3 : Z := 15.
Definition mask4 : Z := 7.

(** The table [first] of the Go library, by ranges, and its special
    entries [as] (ASCII) and [xx] (invalid). *)
Definition xx : Z := 241.
Definition as_ : Z := 240.

Definition first (b : byte) : Z :=
  if b <? 128 then as_
  else if b <? 194 then xx
  else if b <? 224 then 2
  else if b =? 224 then 19
  else if b <? 237 then 3
  else if b =? 237 then 35
  else if b <? 240 then 3
  else if b =? 240 then 52
  else if b <? 244 then 4
  else if b =? 244 then 68
  else xx.

Definition acceptRanges (i : Z) : Z * Z :=
  if i =? 0 then (locb, hicb)
  else if i =? 1 then (160, hicb)
  else if i =? 2 then (locb, 159)
  else if i =? 3 then (144, hicb)
  else if i =? 4 then (locb, 143)
  else (0, 0).

Definition DecodeRuneInString (s : gostring) : rune * nat :=
  match s with
  | [] => (RuneError, 0%nat)
  | s0 :: t0 =>
    let x := first s0 in
    if as_ <=? x then ((if x =? xx then RuneError else s0), 1%nat)
    else
      let sz := Z.land x 7 in
      let '(lo, hi) := acceptRanges (Z.shiftr x 4) in
      if Z.of_nat (length s) <? sz then (RuneError, 1%nat)
      else match t0 with
      | [] => (RuneError, 1%nat)
      | s1 :: t1 =>
        if (s1 <? lo) || (hi <? s1) then (RuneError, 1%nat)
        else if sz <=? 2
        then (Z.lor (Z.shiftl (Z.land s0 mask2) 6) (Z.land s1 maskx), 2%nat)
        else match t1 with
        | [] => (RuneError, 1%nat)
        | s2 :: t2 =>
          if (s2 <? locb) || (hicb <? s2) then (RuneError, 1%nat)
          else if sz <=? 3
          then (Z.lor (Z.lor (Z.shiftl (Z.land s0 mask3) 12)
                             (Z.shiftl (Z.land s1 maskx) 6))
                      (Z.land s2 maskx), 3%nat)
          else match t2 with
          | [] => (RuneError, 1%nat)
          | s3 :: _ =>
            if (s3 <? locb) || (hicb <? s3) then (RuneError, 1%nat)
            else (Z.lor (Z.lor (Z.lor (Z.shiftl (Z.land s0 mask4) 18)
                                      (Z.shiftl (Z.land s1 maskx) 12))
                               (Z.shiftl (Z.land s2 maskx) 6))
                        (Z.land s3 maskx), 4%nat)
          end
        end
      end
  end.

(** [[]byte(string(r))]: the UTF-8 encoding of a rune; a rune outside the
    Unicode range or a surrogate is encoded as U+FFFD. *)
Definition EncodeRune (r : rune) : list byte :=
  if (0 <=? r) && (r <? 128) then [r]
  else if (0 <=? r) && (r <? 2048) then
    [Z.lor 192 (Z.shiftr r 6); Z.lor 128 (Z.land r maskx)]
  else if (r <? 0) || (MaxRune <? r) || ((surrogateMin <=? r) && (r <=? surrogateMax))
  then [239; 191; 189]
  else if r <? 65536 then
    [Z.lor 224 (Z.shiftr r 12);
     Z.lor 128 (Z.land (Z.shiftr r 6) maskx);
     Z.lor 128 (Z.land r maskx)]
  else
    [Z.lor 240 (Z.shiftr r 18);
     Z.lor 128 (Z.land (Z.shiftr r 12) maskx);
     Z.lor 128 (Z.land (Z.shiftr r 6) maskx);
     Z.lor 128 (Z.land r maskx)].

End utf8.

(** ** crypto/sha1 *)

Module sha1.

Definition w32 (x : Z) : Z := x mod 2^32.
Definition rotl (n x : Z) : Z :=
  w32 (Z.lor (Z.shiftl x n) (Z.shiftr x (32 - n))).

Definition be32 (x : Z) : list byte :=
  [Z.shiftr x 24 mod 256; Z.shiftr x 16 mod 256; Z.shiftr x 8 mod 256; x mod 256].

Definition be64 (x : Z) : list byte :=
  be32 (Z.shiftr x 32 mod 2^32) ++ be32 (x mod 2^32).

Definition padding (msg : list byte) : list byte :=
  let n := Z.of_nat (length msg) in
  let k := (55 - n) mod 64 in
  msg ++ [128] ++ replicate (Z.to_nat k) 0 ++ be64 ((8 * n) mod 2^64).

Fixpoint words (bs : list byte) : list Z :=
  match bs with
  | a :: b :: c :: d :: r =>
      (Z.shiftl a 24 + Z.shiftl b 16 + Z.shiftl c 8 + d) :: words r
  | _ => []
  end.

(** The message schedule, kept newest first: the head is W[t-1]. *)
Fixpoint schedule (n : nat) (rev_w : list Z) : list Z :=
  match n with
  | O => rev_w
  | S n' =>
    let w := rotl 1 (Z.lxor (Z.lxor (rev_w !!! 2%nat) (rev_w !!! 7%nat))
                            (Z.lxor (rev_w !!! 13%nat) (rev_w !!! 15%nat))) in
    schedule n' (w :: rev_w)
  end.

Definition round_f (t : nat) (b c d : Z) : Z :=
  if (t <? 20)%nat then Z.lor (Z.land b c) (Z.land (Z.lxor b (2^32 - 1)) d)
  else if (t <? 40)%nat then Z.lxor (Z.lxor b c) d
  else if (t <? 60)%nat then Z.lor (Z.lor (Z.land b c) (Z.land b d)) (Z.land c d)
  else Z.lxor (Z.lxor b c) d.

Definition round_k (t : nat) : Z :=
  if (t <? 20)%nat then 1518500249
  else if (t <? 40)%nat then 1859775393
  else if (t <? 60)%nat then 2400959708
  else 3395469782.

Definition state : Type := Z * Z * Z * Z * Z.

Fixpoint rounds (t : nat) (ws : list Z) (st : state) : state :=
  match ws with
  | [] => st
  | w :: ws' =>
    let '(a, b, c, d, e) := st in
    let tmp := w32 (rotl 5 a + round_f t b c d + e + round_k t + w) in
    rounds (S t) ws' (tmp, a, rotl 30 b, c, d)
  end.

Definition block (st : state) (blk : list byte) : state :=
  let ws := rev (schedule 64 (rev (words blk))) in
  let '(h0, h1, h2, h3, h4) := st in
  let '(a, b, c, d, e) := rounds 0 ws st in
  (w32 (h0 + a), w32 (h1 + b), w32 (h2 + c), w32 (h3 + d), w32 (h4 + e)).

Fixpoint blocks (n : nat) (st : state) (bs : list byte) : state :=
  match n with
  | O => st
  | S n' => blocks n' (block st (take 64 bs)) (drop 64 bs)
  end.

Definition init : state :=
  (1732584193, 4023233417, 2562383102, 271733878, 3285377520).

(** [sha1.Sum]: the 20-byte digest. *)
Definition Sum (data : list byte) : list byte :=
  let p := padding data in
  let '(h0, h1, h2, h3, h4) := blocks (length p / 64)%nat init p in
  be32 h0 ++ be32 h1 ++ be32 h2 ++ be32 h3 ++ be32 h4.

End sha1.

(** ** Node store *)

(** A [*treenode] is an address in the store; [nil] is [None]. *)
Abbreviation ptr := nat (only parsing).

Record treenode := mkNode {
  id : Z;
  val : rune;
  children : option ptr;
  next : option ptr;
  parents : list ptr;       (* a nil slice is the empty list *)
  endofword : bool;
  hash : list byte;         (* [20]byte *)
  level : Z;
  height : Z;
  firstchild : bool
}.

Abbreviation heap := (list treenode) (only parsing).

(** [new(treenode)]: the zero value. *)
Definition zero_node : treenode :=
  mkNode 0 0 None None [] false (replicate 20 0) 0 0 false.

Definition set_children (c : option ptr) (n : treenode) : treenode :=
  mkNode (id n) (val n) c (next n) (parents n) (endofword n) (hash n)
         (level n) (height n) (firstchild n).
Definition set_next (c : option ptr) (n : treenode) : treenode :=
  mkNode (id n) (val n) (children n) c (parents n) (endofword n) (hash n)
         (level n) (height n) (firstchild n).
Definition add_parent (p : ptr) (n : treenode) : treenode :=
  mkNode (id n) (val n) (children n) (next n) (parents n ++ [p]) (endofword n)
         (hash n) (level n) (height n) (firstchild n).
Definition set_hash (x : list byte) (n : treenode) : treenode :=
  mkNode (id n) (val n) (children n) (next n) (parents n) (endofword n) x
         (level n) (height n) (firstchild n).
Definition set_level (x : Z) (n : treenode) : treenode :=
  mkNode (id n) (val n) (children n) (next n) (parents n) (endofword n) (hash n)
         x (height n) (firstchild n).
Definition set_height (x : Z) (n : treenode) : treenode :=
  mkNode (id n) (val n) (children n) (next n) (parents n) (endofword n) (hash n)
         (level n) x (firstchild n).

(** Outcome of a call: it returns, it panics (the run is aborted), or the
    model has no behaviour for it: the fuel ran out (the Go call does not
    return) or an address is not in the store. *)
Inductive outcome (A : Type) : Type :=
  | Ok (a : A)
  | Panic
  | Stuck.
Arguments Ok {A} a.
Arguments Panic {A}.
Arguments Stuck {A}.

Definition bind {A B} (m : outcome A) (k : A → outcome B) : outcome B :=
  match m with
  | Ok a => k a
  | Panic => Panic
  | Stuck => Stuck
  end.

Notation "x ←' m ; k" := (bind m (λ x, k))
  (at level 20, m at level 100, k at level 200, only parsing, right associativity).
Notation "' p ←' m ; k" := (bind m (λ x, match x with p => k end))
  (at level 20, p pattern, m at level 100, k at level 200, only parsing, right associativity).

Definition load (h : heap) (p : ptr) : outcome treenode :=
  match h !! p with
  | Some n => Ok n
  | None => Stuck
  end.

(** [for _, x := range xs { st = body st x }] *)
Fixpoint forRange {S A} (body : S → A → outcome S) (st : S) (xs : list A) : outcome S :=
  match xs with
  | [] => Ok st
  | x :: xs' => st' ←' body st x; forRange body st' xs'
  end.

(** [for child := start; child != nil; child = child.next { body }]: the
    next pointer is read from the store as it is after the body. *)
Fixpoint forChain {S} (hp : S → heap) (body : S → ptr → outcome S)
    (n : nat) (st : S) (child : option ptr) : outcome S :=
  match child with
  | None => Ok st
  | Some c =>
    match n with
    | O => Stuck
    | S n' =>
      st' ←' body st c;
      nc ←' load (hp st') c;
      forChain hp body n' st' (next nc)
    end
  end.

(** ** Trie builder *)

Definition NewDAWG (h : heap) : heap * ptr :=
  (h ++ [mkNode (-1) 8709 None None [] false (replicate 20 0) (-1) 0 false],
   length h).

(** The scan of a sibling chain in [put]: the loop over the nodes that have
    a successor, then the check of the last one. *)
Inductive scanres := Found (child : ptr) | Last (child : ptr).

Fixpoint scan (n : nat) (h : heap) (child : ptr) (fchar : rune) : outcome scanres :=
  match n with
  | O => Stuck
  | S n' =>
    c ←' load h child;
    match next c with
    | Some nx => if val c =? fchar then Ok (Found child) else scan n' h nx fchar
    | None => if val c =? fchar then Ok (Found child) else Ok (Last child)
    end
  end.

(** The part that [Put] and [put] share, after the first rune is decoded;
    [rec] is the recursive call [child.put(s, id)]. *)
Definition descend (rec : heap → Z → ptr → gostring → outcome (heap * Z))
    (h : heap) (idc : Z) (t : ptr) (fchar : rune) (s : gostring)
    : outcome (heap * Z) :=
  nt ←' load h t;
  match children nt with
  | None =>
    let child := length h in
    let h1 := h ++ [mkNode idc fchar None None [t] false (replicate 20 0)
                           (-1) 0 true] in
    '(h2, id2) ←' rec h1 (wrap64 (idc + 1)) child s;
    Ok (alter (set_children (Some child)) t h2, id2)
  | Some c =>
    r ←' scan (length h) h c fchar;
    match r with
    | Found child => rec h idc child s
    | Last child =>
      let newchild := length h in
      let h1 := h ++ [mkNode idc fchar None None [] false (replicate 20 0)
                             (-1) 0 false] in
      '(h2, id2) ←' rec h1 (wrap64 (idc + 1)) newchild s;
      Ok (alter (set_next (Some newchild)) child h2, id2)
    end
  end.

Fixpoint put (fuel : nat) (h : heap) (idc : Z) (t : ptr) (s : gostring)
    : outcome (heap * Z) :=
  match fuel with
  | O => Stuck
  | S fuel' =>
    match s with
    | [] => Ok (h, idc)
    | _ =>
      let '(fchar, size) := utf8.DecodeRuneInString s in
      descend (put fuel') h idc t fchar (drop size s)
    end
  end.

(** [Put]: every call of [put] consumes at least one byte, so
    [S (length s)] calls are enough. *)
Definition Put (h : heap) (idc : Z) (t : ptr) (s : gostring) : outcome (heap * Z) :=
  nt ←' load h t;
  let idc := if id nt =? 0 then wrap64 (idc + 1) else idc in
  let '(fchar, size) := utf8.DecodeRuneInString s in
  descend (put (S (length s))) h idc t fchar (drop size s).

(** ** Structural annotator *)

Fixpoint computeLevels (fuel : nat) (h : heap) (t : ptr) (lvl : Z) : outcome heap :=
  match fuel with
  | O => Stuck
  | S fuel' =>
    _ ←' load h t;
    let h1 := alter (set_level lvl) t h in
    nt ←' load h1 t;
    forChain (λ st, st)
      (λ st child, computeLevels fuel' st child (wrap64 (lvl + 1)))
      fuel' h1 (children nt)
  end.

Definition max (arr : list Z) : Z :=
  fold_left (λ m value, if m <? value then value else m) arr 0.

Fixpoint computeHeights (fuel : nat) (h : heap) (t : ptr) : outcome heap :=
  match fuel with
  | O => Stuck
  | S fuel' =>
    nt ←' load h t;
    match children nt with
    | None => Ok (alter (set_height 0) t h)
    | Some c =>
      '(h1, childrenHeights) ←'
        forChain fst
          (λ st child,
             h' ←' computeHeights fuel' (fst st) child;
             nc ←' load h' child;
             Ok (h', snd st ++ [height nc]))
          fuel' (h, []) (Some c);
      Ok (alter (set_height (wrap64 (1 + max childrenHeights))) t h1)
    end
  end.

Fixpoint computeHashes (fuel : nat) (h : heap) (t : ptr) : outcome (heap * list byte) :=
  match fuel with
  | O => Stuck
  | S fuel' =>
    nt ←' load h t;
    '(h1, data1) ←'
      match next nt with
      | Some nx => '(h', d) ←' computeHashes fuel' h nx; Ok (h', d)
      | None => Ok (h, [])
      end;
    nt1 ←' load h1 t;
    '(h2, data2) ←'
      match children nt1 with
      | Some c => '(h', d) ←' computeHashes fuel' h1 c; Ok (h', data1 ++ d)
      | None => Ok (h1, data1)
      end;
    nt2 ←' load h2 t;
    let data := data2 ++ utf8.EncodeRune (val nt2) in
    Ok (alter (set_hash (sha1.Sum data)) t h2, data)
  end.

(** ** Minimiser *)

Fixpoint collectNodesOfHeightX (fuel : nat) (h : heap) (t : ptr)
    (n : gset ptr) (hgt : Z) : outcome (gset ptr) :=
  match fuel with
  | O => Stuck
  | S fuel' =>
    nt ←' load h t;
    if height nt =? hgt then Ok ({[t]} ∪ n)
    else if hgt <? height nt then
      forChain (λ _, h)
        (λ st child, collectNodesOfHeightX fuel' h child st hgt)
        fuel' n (children nt)
    else Ok n
  end.

Definition redirect (h : heap) (t other : ptr) : outcome heap :=
  nt ←' load h t;
  match parents nt with
  | [] => Panic
  | ps =>
    forRange
      (λ st parent,
         _ ←' load st parent;
         let st1 := alter (set_children (Some other)) parent st in
         _ ←' load st1 other;
         Ok (alter (add_parent parent) other st1))
      h ps
  end.

(** The test of the inner loop of [processLevel]. *)
Definition sameKey (nf nl : treenode) : bool :=
  (val nf =? val nl) && bool_decide (hash nf = hash nl) && (level nf =? level nl).

(** The inner loop of [processLevel]: the result is the store and, when
    [spent] is set, the node that [first] was redirected to. *)
Fixpoint scanOthers (h : heap) (first : ptr) (others : list ptr)
    : outcome (heap * option ptr) :=
  match others with
  | [] => Ok (h, None)
  | le :: rest =>
    nf ←' load h first;
    nl ←' load h le;
    if sameKey nf nl
    then h' ←' redirect h first le; Ok (h', Some le)
    else scanOthers h first rest
  end.

(** The loop over [firsts]; the third component records the calls of
    [redirect] that were made, in order. *)
Fixpoint processFirsts (h : heap) (others : list ptr) (merges : list (ptr * ptr))
    (firsts : list ptr) : outcome (heap * list ptr * list (ptr * ptr)) :=
  match firsts with
  | [] => Ok (h, others, merges)
  | first :: rest =>
    '(h', spent) ←' scanOthers h first others;
    match spent with
    | Some le => processFirsts h' others (merges ++ [(first, le)]) rest
    | None => processFirsts h' (others ++ [first]) merges rest
    end
  end.

Definition partitionLevel (h : heap) (lvl : list ptr) : outcome (list ptr * list ptr) :=
  forRange
    (λ st el,
       n ←' load h el;
       if firstchild n then Ok (fst st ++ [el], snd st) else Ok (fst st, snd st ++ [el]))
    ([], []) lvl.

Definition processLevel (h : heap) (lvl : list ptr)
    : outcome (heap * list (ptr * ptr)) :=
  '(firsts, others) ←' partitionLevel h lvl;
  '(h', _, merges) ←' processFirsts h others [] firsts;
  Ok (h', merges).

(** The loop [for j := maxHeight - 1; j >= 0; j--] of [Optimise], with
    [n] = j + 1.  [rangeOrder j m] is the order in which the [range] over
    the map [m] yields its keys in the iteration for height [j]; Go leaves
    that order unspecified. *)
Fixpoint OptimiseLevels (rangeOrder : Z → gset ptr → list ptr) (fuel : nat)
    (n : nat) (h : heap) (t : ptr) (merges : list (ptr * ptr))
    : outcome (heap * list (ptr * ptr)) :=
  match n with
  | O => Ok (h, merges)
  | S j =>
    nodesOfHeightX ←' collectNodesOfHeightX fuel h t ∅ (Z.of_nat j);
    let nodesOfTheSameHeight := rangeOrder (Z.of_nat j) nodesOfHeightX in
    '(h', ms) ←' processLevel h nodesOfTheSameHeight;
    OptimiseLevels rangeOrder fuel j h' t (merges ++ ms)
  end.

(** [Optimise]: the store and the calls of [redirect] made, in order. *)
Definition Optimise (rangeOrder : Z → gset ptr → list ptr) (fuel : nat)
    (h : heap) (t : ptr) : outcome (heap * list (ptr * ptr)) :=
  h1 ←' computeLevels fuel h t 0;
  h2 ←' computeHeights fuel h1 t;
  '(h3, _) ←' computeHashes fuel h2 t;
  nt ←' load h3 t;
  let maxHeight := height nt in
  OptimiseLevels rangeOrder fuel (Z.to_nat maxHeight) h3 t [].

(** ** Flattener *)

Module arraynode.
Record t := mk { val : rune; children : rune; eol : bool }.
Definition set_children (c : rune) (a : t) : t := mk (val a) c (eol a).
End arraynode.

Abbreviation outarray := (list arraynode.t) (only parsing).

(** The three objects that [addNodesOfLevelX] updates through pointers. *)
Record flatstate := mkFlat {
  output : outarray;
  unfilledParents : gmap ptr Z;
  allocatedNodes : gset ptr
}.

(** The assignment to the [children] field of the record at index
    [up[parent]]: a missing key reads as 0, an index out of range panics. *)
Definition patchParent (array : outarray) (up : gmap ptr Z) (parent : ptr)
    : outcome outarray :=
  let i := default 0 (up !! parent) in
  if (0 <=? i) && (i <? Z.of_nat (length array))
  then Ok (alter (arraynode.set_children (wrap32 (Z.of_nat (length array) - 1)))
                 (Z.to_nat i) array)
  else Panic.

Fixpoint addNodesOfLevelX (fuel : nat) (h : heap) (t : ptr) (st : flatstate)
    (lvl : Z) : outcome flatstate :=
  match fuel with
  | O => Stuck
  | S fuel' =>
    nt ←' load h t;
    if level nt =? lvl then
      if decide (t ∈ allocatedNodes st) then Ok st
      else
        let array := output st ++ [arraynode.mk (val nt) 0 (bool_decide (next nt = None))] in
        let up := <[t := Z.of_nat (length array) - 1]> (unfilledParents st) in
        let an := {[t]} ∪ allocatedNodes st in
        array' ←' forRange
          (λ arr parent,
             if decide (parent ∈ an) then patchParent arr up parent else Ok arr)
          array (parents nt);
        Ok (mkFlat array' up an)
    else
      match children nt with
      | None => Ok st
      | Some c =>
        nc ←' load h c;
        if firstchild nc then
          forChain (λ _, h)
            (λ st' child, addNodesOfLevelX fuel' h child st' lvl)
            fuel' st (Some c)
        else Ok st
      end
  end.

(** The loop of [Flatten]; [n] bounds the number of passes. *)
Fixpoint FlattenLoop (n fuel : nat) (h : heap) (t : ptr) (i : Z)
    (st : flatstate) (currentLen : nat) : outcome flatstate :=
  match n with
  | O => Stuck
  | S n' =>
    st' ←' addNodesOfLevelX fuel h t st i;
    if (length (output st') =? currentLen)%nat then Ok st'
    else FlattenLoop n' fuel h t (wrap64 (i + 1)) st' (length (output st'))
  end.

(** ** Binary encoder *)

(** [binary.Write(w, binary.LittleEndian, x)] for an int32 and for a bool. *)
Definition writeInt32 (x : Z) : list byte :=
  [Z.land x 255; Z.land (Z.shiftr x 8) 255;
   Z.land (Z.shiftr x 16) 255; Z.land (Z.shiftr x 24) 255].
Definition writeBool (b : bool) : list byte := [if b then 1 else 0].

(** The content of the created file after [writeToFile]. *)
Definition writeToFile (o : outarray) : list byte :=
  fold_left
    (λ outfile el,
       ((outfile ++ writeInt32 (arraynode.val el))
                 ++ writeInt32 (arraynode.children el))
                 ++ writeBool (arraynode.eol el))
    o [].

(** [Flatten], without the diagnostic export [createDot]: the array and the
    bytes written to the artifact file. *)
Definition Flatten (n fuel : nat) (h : heap) (t : ptr) : outcome (outarray * list byte) :=
  st ←' FlattenLoop n fuel h t 0 (mkFlat [] ∅ ∅) 0;
  Ok (output st, writeToFile (output st)).

(** ** The pipeline on a vocabulary *)

Fixpoint PutAll (h : heap) (idc : Z) (t : ptr) (ws : list gostring)
    : outcome (heap * Z) :=
  match ws with
  | [] => Ok (h, idc)
  | w :: ws' => '(h1, id1) ←' Put h idc t w; PutAll h1 id1 t ws'
  end.

(** A Go string literal as its bytes. *)
Definition bytes (s : String.string) : gostring :=
  map (λ b, Z.of_N (Byte.to_N b)) (String.list_byte_of_string s).

(** The trie of a vocabulary: [NewDAWG] in an empty store, then the words
    inserted in order with the id counter starting at 0. *)
Definition build (ws : list gostring) : outcome (heap * ptr) :=
  let '(h, root) := NewDAWG [] in
  '(h1, _) ←' PutAll h 0 root ws;
  Ok (h1, root).

(** Two orders in which a [range] may yield the keys of a map. *)
Definition ascOrder (j : Z) (m : gset ptr) : list ptr :=
  merge_sort Nat.le (elements m).
Definition descOrder (j : Z) (m : gset ptr) : list ptr :=
  reverse (merge_sort Nat.le (elements m)).

(** ** Notions used in the statements *)

(** [q] is reachable from [p] through [children] and [next] pointers. *)
Inductive reach (h : heap) : ptr → ptr → Prop :=
  | reach_refl p : reach h p p
  | reach_children p n c q :
      h !! p = Some n → children n = Some c → reach h c q → reach h p q
  | reach_next p n c q :
      h !! p = Some n → next n = Some c → reach h c q → reach h p q.

(** The structure and character contents of everything reachable from a
    node through its children chain and its remaining sibling chain. *)
Inductive shape :=
  | Nil
  | Shape (v : rune) (nxt chd : shape).

Fixpoint shapeOf (fuel : nat) (h : heap) (p : option ptr) : option shape :=
  match p with
  | None => Some Nil
  | Some a =>
    match fuel with
    | O => None
    | S fuel' =>
      match h !! a with
      | None => None
      | Some n =>
        match shapeOf fuel' h (next n), shapeOf fuel' h (children n) with
        | Some sn, Some sc => Some (Shape (val n) sn sc)
        | _, _ => None
        end
      end
    end
  end.

(** The byte sequence that [computeHashes] accumulates for a shape. *)
Fixpoint serial (s : shape) : list byte :=
  match s with
  | Nil => []
  | Shape v sn sc => (serial sn ++ serial sc) ++ utf8.EncodeRune v
  end.

(** Stores as the trie builder makes them: a node is allocated after every
    node that points to it. *)
Definition ordered (h : heap) : Prop :=
  ∀ p n, h !! p = Some n →
    (∀ c, children n = Some c → (p < c < length h)%nat) ∧
    (∀ c, next n = Some c → (p < c < length h)%nat).

(** [h'] extends [h]: the nodes of [h] keep every field, except that an
    empty [children] or [next] pointer may have been set to a node that
    [h] does not have. *)
Definition filled (old new : option ptr) (bound : nat) : Prop :=
  new = old ∨ (old = None ∧ ∃ c, new = Some c ∧ (bound ≤ c)%nat).

Definition grows (h h' : heap) : Prop :=
  (length h ≤ length h')%nat ∧
  ∀ p n, h !! p = Some n →
    ∃ n', h' !! p = Some n' ∧
      id n' = id n ∧ val n' = val n ∧ parents n' = parents n ∧
      endofword n' = endofword n ∧ hash n' = hash n ∧ level n' = level n ∧
      height n' = height n ∧ firstchild n' = firstchild n ∧
      filled (children n) (children n') (length h) ∧
      filled (next n) (next n') (length h).

(** [x] is on the sibling chain that starts at [c]. *)
Inductive onChain (h : heap) : ptr → ptr → Prop :=
  | onChain_here c : onChain h c c
  | onChain_next c n nx x :
      h !! c = Some n → next n = Some nx → onChain h nx x → onChain h c x.

(** The runes [w] are spelled by a path that starts below node [t]. *)
Fixpoint represents (h : heap) (t : ptr) (w : list rune) : Prop :=
  match w with
  | [] => True
  | r :: w' =>
    ∃ nt c x nx, h !! t = Some nt ∧ children nt = Some c ∧ onChain h c x ∧
      h !! x = Some nx ∧ val nx = r ∧ represents h x w'
  end.

(** The key that [processLevel] compares. *)
Definition key (h : heap) (p : ptr) : option (rune * list byte * Z) :=
  match h !! p with
  | Some n => Some (val n, hash n, level n)
  | None => None
  end.

(** [k] is the first node of [kept], in scan order, with the key of [c]. *)
Definition firstMatch (h : heap) (c : ptr) (kept : list ptr) (k : ptr) : Prop :=
  ∃ pre post, kept = pre ++ k :: post ∧ key h k = key h c ∧
    ∀ x, x ∈ pre → key h x ≠ key h c.

Definition isFirst (h : heap) (p : ptr) : bool :=
  match h !! p with
  | Some n => firstchild n
  | None => false
  end.

(** The node that [put] links as a first child, and the one that it
    appends to a sibling chain. *)
Definition firstNode (idc : Z) (fchar : rune) (t : ptr) : treenode :=
  mkNode idc fchar None None [t] false (replicate 20 0) (-1) 0 true.
Definition siblingNode (idc : Z) (fchar : rune) : treenode :=
  mkNode idc fchar None None [] false (replicate 20 0) (-1) 0 false.

(** [put] on [s] below [t] only follows nodes that the store already has. *)
Definition followsStep (rec : heap → ptr → gostring → Prop)
    (h : heap) (t : ptr) (fchar : rune) (s : gostring) : Prop :=
  ∃ nt c child, h !! t = Some nt ∧ children nt = Some c ∧
    scan (length h) h c fchar = Ok (Found child) ∧ rec h child s.

Fixpoint follows (fuel : nat) (h : heap) (t : ptr) (s : gostring) : Prop :=
  match fuel with
  | O => False
  | S fuel' =>
    match s with
    | [] => True
    | _ =>
      let '(fchar, size) := utf8.DecodeRuneInString s in
      followsStep (follows fuel') h t fchar (drop size s)
    end
  end.

Arguments utf8.DecodeRuneInString : simpl never.
Arguments utf8.EncodeRune : simpl never.
Arguments sha1.Sum : simpl never.

(** ** Notions used in the proofs and concrete stores *)

Definition record (el : arraynode.t) : list byte :=
  (writeInt32 (arraynode.val el) ++ writeInt32 (arraynode.children el))
  ++ writeBool (arraynode.eol el).

(** The node at address [q] once [redirect] has gone through the parents
    [ps] with target [other]. *)
Definition redirected (ps : list ptr) (other q : ptr) (n : treenode) : treenode :=
  mkNode (id n) (val n)
         (if bool_decide (q ∈ ps) then Some other else children n)
         (next n)
         (if bool_decide (q = other) then parents n ++ ps else parents n)
         (endofword n) (hash n) (level n) (height n) (firstchild n).

Definition redirectBody (other : ptr) (st : list treenode) (parent : ptr)
    : outcome (list treenode) :=
  _ ←' load st parent;
  let st1 := alter (set_children (Some other)) parent st in
  _ ←' load st1 other;
  Ok (alter (add_parent parent) other st1).

(** [extends h h']: as [grows], without the freshness of the new links. *)
Definition extends (h h' : list treenode) : Prop :=
  (length h ≤ length h')%nat ∧
  ∀ p n, h !! p = Some n →
    ∃ n', h' !! p = Some n' ∧
      id n' = id n ∧ val n' = val n ∧ parents n' = parents n ∧
      endofword n' = endofword n ∧ hash n' = hash n ∧ level n' = level n ∧
      height n' = height n ∧ firstchild n' = firstchild n ∧
      (children n = None ∨ children n' = children n) ∧
      (next n = None ∨ next n' = next n).

(** [relinked h h']: the nodes keep every field except [children] and
    [parents]. *)
Definition relinked (h h' : list treenode) : Prop :=
  length h' = length h ∧
  ∀ q n, h !! q = Some n →
    ∃ n', h' !! q = Some n' ∧
      id n' = id n ∧ val n' = val n ∧ next n' = next n ∧
      endofword n' = endofword n ∧ hash n' = hash n ∧ level n' = level n ∧
      height n' = height n ∧ firstchild n' = firstchild n.

(** The kept nodes when the candidate after [pre] is scanned: the nodes of
    the level that are not first children, then the candidates of [pre]
    that were not merged. *)
Definition keptBefore (others : list ptr) (ms : list (ptr * ptr)) (pre : list ptr)
    : list ptr :=
  others ++ filter (λ f, f ∉ ms.*1) pre.

Definition pointwise (R : treenode → treenode → Prop) (h h' : list treenode) : Prop :=
  length h' = length h ∧
  ∀ p n, h !! p = Some n → ∃ n', h' !! p = Some n' ∧ R n n'.

Definition onlyLevel (n n' : treenode) : Prop := n' = set_level (level n') n.

Definition onlyHeight (n n' : treenode) : Prop := n' = set_height (height n') n.

Definition onlyHash (n n' : treenode) : Prop := n' = set_hash (hash n') n.

Definition correctHash (h0 : list treenode) (q : nat) (x : list Z) : Prop :=
  ∃ f s, shapeOf f h0 (Some q) = Some s ∧ x = sha1.Sum (serial s).

Definition hashOK (h0 h : list treenode) (q : nat) : Prop :=
  ∃ nq, h !! q = Some nq ∧ correctHash h0 q (hash nq).

(** The records keep their [val] and [eol] fields and their positions. *)
Definition samevals (a a' : list arraynode.t) : Prop :=
  length a' = length a ∧
  ∀ i el, a !! i = Some el →
    ∃ el', a' !! i = Some el' ∧ arraynode.val el' = arraynode.val el ∧
           arraynode.eol el' = arraynode.eol el.

(** Allocated nodes and array slots correspond one to one. *)
Definition flatInv (h : list treenode) (st : flatstate) : Prop :=
  (∀ p, p ∈ allocatedNodes st ↔ is_Some (unfilledParents st !! p)) ∧
  (∀ p i, unfilledParents st !! p = Some i →
     0 ≤ i < Z.of_nat (length (output st)) ∧
     ∃ n el, h !! p = Some n ∧ output st !! Z.to_nat i = Some el ∧
       arraynode.val el = val n ∧
       arraynode.eol el = bool_decide (next n = None)) ∧
  (∀ p q i, unfilledParents st !! p = Some i →
            unfilledParents st !! q = Some i → p = q) ∧
  (∀ j, (j < length (output st))%nat →
        ∃ p, unfilledParents st !! p = Some (Z.of_nat j)) ∧
  size (allocatedNodes st) = length (output st).

Definition flatMono (st st' : flatstate) : Prop :=
  ∀ p i, unfilledParents st !! p = Some i → unfilledParents st' !! p = Some i.

Definition valid (h : list treenode) (p : nat) : bool :=
  bool_decide (is_Some (h !! p)).

(** An enumeration that differs from [ro] and keeps both relative orders:
    the first children of the store [h] first. *)
Definition firstsFirst (h : list treenode) (ro : Z → gset nat → list nat)
    (j : Z) (m : gset nat) : list nat :=
  filter (λ p, isFirst h p = true) (ro j m)
  ++ filter (λ p, isFirst h p ≠ true) (ro j m).

Definition vocabulary_shapes : list gostring :=
  map bytes ["xap"; "xaq"; "yz"; "yap"; "yq"]%string.

Definition vocabulary_order : list gostring :=
  map bytes ["ab"; "ac"; "db"; "dc"; "xc"]%string.

Definition vocabulary_slots : list gostring :=
  map bytes ["qf"; "qk"; "rg"; "rf"; "rk"; "pk"]%string.

Definition vocabulary_cat : list gostring :=
  map bytes ["cat"; "car"; "cart"; "dog"]%string.

(** The stores of the concrete runs below. *)
Definition trie_cat : heap :=
  Eval vm_compute in
    match build vocabulary_cat with Ok (h, _) => h | _ => [] end.

Definition trie_order : heap :=
  Eval vm_compute in
    match build vocabulary_order with Ok (h, _) => h | _ => [] end.

Definition annotated_order : heap :=
  Eval vm_compute in
    match
      h1 ←' computeLevels 20 trie_order 0 0;
      h2 ←' computeHeights 20 h1 0;
      computeHashes 20 h2 0
    with Ok (h, _) => h | _ => [] end.

Definition graph_slots : heap :=
  Eval vm_compute in
    match
      '(h, root) ←' build vocabulary_slots;
      Optimise ascOrder 20 h root
    with Ok (h, _) => h | _ => [] end.

(** The runes of a string in the order in which [put] decodes them (the
    sequence of [for _, r := range s]). *)
Fixpoint runesFuel (fuel : nat) (s : gostring) : list rune :=
  match fuel with
  | O => []
  | S fuel' =>
    match s with
    | [] => []
    | _ =>
      let '(r, size) := utf8.DecodeRuneInString s in
      r :: runesFuel fuel' (drop size s)
    end
  end.

Definition runes (s : gostring) : list rune := runesFuel (length s) s.

(** The id counter after [k] nodes were created. *)
Definition advance (k : nat) (idc : Z) : Z :=
  Nat.iter k (λ x, wrap64 (x + 1)) idc.

(** A reader for the artifact file: [binary.Read] of the three fields of
    each 9-byte record, a non-zero byte being [true]. *)
Definition readInt32 (bs : list byte) : Z :=
  wrap32 (bs !!! 0%nat + 2 ^ 8 * bs !!! 1%nat + 2 ^ 16 * bs !!! 2%nat
          + 2 ^ 24 * bs !!! 3%nat).

Fixpoint readRecords (n : nat) (bs : list byte) : outarray :=
  match n with
  | O => []
  | S n' =>
    arraynode.mk (readInt32 (take 4 bs)) (readInt32 (take 4 (drop 4 bs)))
                 (negb (bs !!! 8%nat =? 0))
    :: readRecords n' (drop 9 bs)
  end.

Definition readFromFile (bs : list byte) : outarray :=
  readRecords (length bs / 9) bs.

Definition int32 (x : Z) : Prop := - 2 ^ 31 ≤ x < 2 ^ 31.

(** ** flatteningQueue *)

Abbreviation flatteningQueue := (list ptr) (only parsing).

Definition Len (fq : flatteningQueue) : Z := Z.of_nat (length fq).

(** [fq[i].level < fq[j].level]; an index out of range panics. *)
Definition Less (h : heap) (fq : flatteningQueue) (i j : nat) : outcome bool :=
  match fq !! i, fq !! j with
  | Some a, Some b =>
    na ←' load h a; nb ←' load h b; Ok (level na <? level nb)
  | _, _ => Panic
  end.

Definition Swap (fq : flatteningQueue) (i j : nat) : outcome flatteningQueue :=
  match fq !! i, fq !! j with
  | Some a, Some b => Ok (<[j := a]> (<[i := b]> fq))
  | _, _ => Panic
  end.

Definition Push (fq : flatteningQueue) (tn : ptr) : flatteningQueue := fq ++ [tn].

(** [Pop] returns the front; on an empty queue [old[0]] panics. *)
Definition Pop (fq : flatteningQueue) : outcome (ptr * flatteningQueue) :=
  match fq with
  | [] => Panic
  | returnVal :: old => Ok (returnVal, old)
  end.

Fixpoint populateQueue (fuel : nat) (h : heap) (t : ptr)
    (st : flatteningQueue * gset ptr) : outcome (flatteningQueue * gset ptr) :=
  match fuel with
  | O => Stuck
  | S fuel' =>
    if decide (t ∈ st.2) then Ok st
    else
      let fq := Push st.1 t in
      let nodes := {[t]} ∪ st.2 in
      nt ←' load h t;
      forChain (λ _, h)
        (λ st' child, populateQueue fuel' h child st')
        fuel' (fq, nodes) (children nt)
  end.

(** What a pass of [addNodesOfLevelX] for level [lvl] may add. *)
Definition passRel (h : list treenode) (lvl : Z) (st st' : flatstate) : Prop :=
  (length (output st) ≤ length (output st'))%nat ∧
  ∀ p ip, unfilledParents st' !! p = Some ip →
    unfilledParents st !! p = Some ip ∨
    ((level <$> h !! p) = Some lvl ∧ Z.of_nat (length (output st)) ≤ ip).

(** Every [children] field is the (truncated) index of a slot. *)
Definition indexed (a : list arraynode.t) : Prop :=
  ∀ i el, a !! i = Some el →
    ∃ k, (k < length a)%nat ∧ arraynode.children el = wrap32 (Z.of_nat k).

(** The height that the structure below a node determines: 0 without
    children, else one more than the greatest height on the chain of its
    children ([heightsOfChain] lists the heights along a sibling chain). *)
Fixpoint heightOf (fuel : nat) (h : heap) (p : ptr) {struct fuel} : option Z :=
  match fuel with
  | O => None
  | S fuel' =>
    match h !! p with
    | None => None
    | Some n =>
      match children n with
      | None => Some 0
      | Some c =>
        match heightsOfChain fuel' h (Some c) with
        | Some hs => Some (wrap64 (1 + max hs))
        | None => None
        end
      end
    end
  end
with heightsOfChain (fuel : nat) (h : heap) (c : option ptr) {struct fuel}
    : option (list Z) :=
  match c with
  | None => Some []
  | Some x =>
    match fuel with
    | O => None
    | S fuel' =>
      match heightOf fuel' h x, h !! x with
      | Some hx, Some n =>
        match heightsOfChain fuel' h (next n) with
        | Some r => Some (hx :: r)
        | None => None
        end
      | _, _ => None
      end
    end
  end.

(** The nodes on the sibling chain that starts at [c], in order. *)
Inductive chainList (h : heap) : option ptr → list ptr → Prop :=
  | chainList_nil : chainList h None []
  | chainList_cons x n l :
      h !! x = Some n → chainList h (next n) l → chainList h (Some x) (x :: l).

Definition heightAt (h : heap) (p : ptr) : Z :=
  match h !! p with
  | Some n => height n
  | None => 0
  end.

Definition heightOK (h0 h : list treenode) (q : nat) : Prop :=
  ∃ nq f, h !! q = Some nq ∧ heightOf f h0 q = Some (height nq).

(** The nodes that a traversal started at [t] visits: [t] itself and every
    node reachable from its first child. *)
Definition visited (h : heap) (t q : ptr) : Prop :=
  q = t ∨ ∃ nt c, h !! t = Some nt ∧ children nt = Some c ∧ reach h c q.

(** [q] is exactly one level below a node of [S] that has [q] on the chain
    of its children. *)
Definition belowParent (h : heap) (S : ptr → Prop) (q : ptr) : Prop :=
  ∃ p np c nq,
    S p ∧ h !! p = Some np ∧ children np = Some c ∧ onChain h c q ∧
    h !! q = Some nq ∧ level nq = wrap64 (level np + 1).

(** [length] of the source, in a module of its own so that the name does
    not hide the length of lists: one for a node without [next], else one
    more than the length of the chain that starts at [next]. *)
Module chain.
Fixpoint length (fuel : nat) (h : heap) (t : ptr) : outcome Z :=
  match fuel with
  | O => Stuck
  | S fuel' =>
    nt ←' load h t;
    match next nt with
    | None => Ok 1
    | Some nx =>
      r ←' length fuel' h nx;
      Ok (wrap64 (1 + r))
    end
  end.
End chain.

(** The [parents] slice and the [children] pointer of the node at [p]. *)
Definition parentsOf (h : heap) (p : ptr) : list ptr :=
  match h !! p with
  | Some n => parents n
  | None => []
  end.

Definition childOf (h : heap) (p : ptr) : option ptr :=
  match h !! p with
  | Some n => children n
  | None => None
  end.

(** The kept nodes, by keys alone: a candidate joins the kept nodes when no
    kept node has its key.  [keptWhen h others pre] are the kept nodes when
    the candidates [pre] have been gone through. *)
Definition keep (h : heap) (kept : list ptr) (c : ptr) : list ptr :=
  if bool_decide (Exists (λ k, key h k = key h c) kept) then kept
  else kept ++ [c].

Definition keptWhen (h : heap) (others pre : list ptr) : list ptr :=
  fold_left (keep h) pre others.

(** The [parents] slices of the candidates of a level are exact: each
    parent listed for a candidate has the candidate as its [children]. *)
Definition exactParents (h : heap) (lvl : list ptr) : Prop :=
  Forall (λ c, isFirst h c = true →
               Forall (λ p, childOf h p = Some c) (parentsOf h c)) lvl.

(** The candidate [c] of the store [h] is merged into [k] in [h']: it has
    parents, and each of them has [k] as its [children] and is listed among
    the parents of [k]. *)
Definition mergedInto (h h' : heap) (c k : ptr) : Prop :=
  parentsOf h c ≠ [] ∧
  ∀ p, p ∈ parentsOf h c → childOf h' p = Some k ∧ p ∈ parentsOf h' k.

(** The nodes that the pass of [addNodesOfLevelX] for level [lvl] reaches
    from [t]: it stops at a node of that level, and below another node it
    goes through the chain of [children] when the first node of the chain
    is marked [firstchild]. *)
Inductive visits (h : heap) (lvl : Z) : ptr → ptr → Prop :=
  | visits_here t nt :
      h !! t = Some nt → level nt = lvl → visits h lvl t t
  | visits_down t nt c nc x q :
      h !! t = Some nt → level nt ≠ lvl → children nt = Some c →
      h !! c = Some nc → firstchild nc = true → onChain h c x →
      visits h lvl x q → visits h lvl t q.

(** [firstPath h l t q]: [t] has level [l], and [q] is [t] or is below it
    along chains of [children] whose first node is marked [firstchild],
    the level rising by one at each step down. *)
Inductive firstPath (h : heap) : Z → ptr → ptr → Prop :=
  | firstPath_here l t nt :
      h !! t = Some nt → level nt = l → firstPath h l t t
  | firstPath_down l t nt c nc x q :
      h !! t = Some nt → level nt = l → children nt = Some c →
      h !! c = Some nc → firstchild nc = true → onChain h c x →
      firstPath h (l + 1) x q → firstPath h l t q.

(** * Proofs *)

(** ** The outcome monad *)

Lemma bind_Ok {A B} (m : outcome A) (k : A → outcome B) (b : B) :
  bind m k = Ok b → ∃ a, m = Ok a ∧ k a = Ok b.
Proof. destruct m; simpl; intros; try discriminate; eauto. Qed.

Lemma load_Ok (h : heap) (p : ptr) (n : treenode) :
  load h p = Ok n ↔ h !! p = Some n.
Proof. unfold load. destruct (h !! p); split; intros; congruence. Qed.

Lemma load_not_Panic (h : heap) (p : ptr) : load h p ≠ Panic.
Proof. unfold load. destruct (h !! p); discriminate. Qed.

Ltac inv_bind H :=
  let a := fresh "a" in
  let E := fresh "E" in
  apply bind_Ok in H as (a & E & H).

Ltac inv_Ok :=
  repeat match goal with
  | H : Ok _ = Ok _ |- _ => injection H as H; subst
  | H : (_, _) = (_, _) |- _ => injection H as ? ?; subst
  | H : Panic = Ok _ |- _ => discriminate H
  | H : Stuck = Ok _ |- _ => discriminate H
  | H : load _ _ = Ok _ |- _ => apply load_Ok in H
  end.

(** ** Binary encoder *)

Lemma writeInt32_length (x : Z) : length (writeInt32 x) = 4%nat.
Proof. reflexivity. Qed.

Lemma writeInt32_byte (x : Z) (k : nat) :
  (k < 4)%nat →
  writeInt32 x !! k = Some ((x / 2 ^ (8 * Z.of_nat k)) mod 256).
Proof.
  intros Hk. unfold writeInt32.
  assert (Hland : ∀ y, Z.land y 255 = y mod 256).
  { intros y. change 255 with (Z.ones 8). rewrite Z.land_ones by lia. reflexivity. }
  destruct k as [|[|[|[|k]]]]; try lia; simpl;
    rewrite Hland, ?Z.shiftr_div_pow2 by lia; try reflexivity.
  f_equal. f_equal. rewrite Z.div_1_r. reflexivity.
Qed.

Lemma writeToFile_fold (o : outarray) (pre : list byte) :
  fold_left
    (λ outfile el,
       ((outfile ++ writeInt32 (arraynode.val el))
                 ++ writeInt32 (arraynode.children el))
                 ++ writeBool (arraynode.eol el))
    o pre = pre ++ concat (map record o).
Proof.
  revert pre. induction o as [|el o IH]; intros pre; simpl.
  - by rewrite app_nil_r.
  - rewrite IH. unfold record. by rewrite <- !app_assoc.
Qed.

Lemma concat_records_lookup (o : outarray) (i : nat) (el : arraynode.t) (k : nat) :
  o !! i = Some el → (k < 9)%nat →
  concat (map record o) !! (9 * i + k)%nat = record el !! k.
Proof.
  revert i. induction o as [|x o IH]; intros i Hi Hk; [done|].
  assert (Hlen : ∀ y, length (record y) = 9%nat) by done.
  cbn [map concat]. destruct i as [|i]; simpl in Hi.
  - injection Hi as ->. rewrite lookup_app_l by (rewrite Hlen; lia).
    reflexivity.
  - rewrite lookup_app_r by (rewrite Hlen; lia).
    rewrite Hlen. replace (9 * S i + k - 9)%nat with (9 * i + k)%nat by lia.
    by apply IH.
Qed.

(** C9.  [writeToFile] writes nothing but the records: the file has 9 bytes
    per array slot, and for the slot [i] the bytes at offsets [9 i .. 9 i + 3]
    are the [val] field least significant byte first, those at
    [9 i + 4 .. 9 i + 7] the [children] field least significant byte first,
    and the byte at [9 i + 8] is 1 or 0 for [eol]. *)
Theorem writeToFile_layout (o : outarray) :
  length (writeToFile o) = (9 * length o)%nat ∧
  ∀ (i : nat) (el : arraynode.t), o !! i = Some el →
    (∀ k : nat, (k < 4)%nat →
       writeToFile o !! (9 * i + k)%nat
         = Some ((arraynode.val el / 2 ^ (8 * Z.of_nat k)) mod 256) ∧
       writeToFile o !! (9 * i + 4 + k)%nat
         = Some ((arraynode.children el / 2 ^ (8 * Z.of_nat k)) mod 256)) ∧
    writeToFile o !! (9 * i + 8)%nat
      = Some (if arraynode.eol el then 1 else 0).
Proof.
  unfold writeToFile. rewrite writeToFile_fold, app_nil_l.
  assert (Hlen : ∀ y, length (record y) = 9%nat) by done.
  assert (Hw : ∀ y, length (writeInt32 y) = 4%nat) by done.
  split.
  - induction o as [|x o IH]; [done|]. cbn [map concat length].
    rewrite length_app, IH, Hlen. lia.
  - intros i el Hi. split.
    + intros k Hk. split.
      * rewrite (concat_records_lookup o i el k) by (done || lia).
        unfold record. rewrite <- app_assoc, lookup_app_l by (rewrite Hw; lia).
        by apply writeInt32_byte.
      * replace (9 * i + 4 + k)%nat with (9 * i + (4 + k))%nat by lia.
        rewrite (concat_records_lookup o i el (4 + k)) by (done || lia).
        unfold record. rewrite <- app_assoc, lookup_app_r by (rewrite Hw; lia).
        rewrite lookup_app_l by (rewrite !Hw; lia).
        rewrite Hw. replace (4 + k - 4)%nat with k by lia.
        by apply writeInt32_byte.
    + rewrite (concat_records_lookup o i el 8) by (done || lia).
      unfold record.
      rewrite lookup_app_r by (rewrite length_app, !Hw; lia).
      rewrite length_app, !Hw. reflexivity.
Qed.

(** ** redirect *)

Lemma redirect_unfold (h : heap) (t other : ptr) (nt : treenode) :
  h !! t = Some nt →
  redirect h t other =
    match parents nt with
    | [] => Panic
    | _ => forRange (redirectBody other) h (parents nt)
    end.
Proof.
  intros Ht. unfold redirect, load. rewrite Ht. simpl.
  destruct (parents nt); reflexivity.
Qed.

Lemma redirect_loop_not_Panic (other : ptr) (ps : list ptr) (h : heap) :
  forRange (redirectBody other) h ps ≠ Panic.
Proof.
  revert h. induction ps as [|p ps IH]; intros h; simpl; [done|].
  unfold redirectBody at 1. unfold load.
  destruct (h !! p); simpl; [|done].
  destruct (alter (set_children (Some other)) p h !! other); simpl; [|done].
  apply IH.
Qed.

Lemma redirect_loop (other : ptr) (ps : list ptr) (h : heap) :
  (other < length h)%nat →
  Forall (λ p, (p < length h)%nat) ps →
  ∃ h', forRange (redirectBody other) h ps = Ok h' ∧
    length h' = length h ∧
    ∀ q n, h !! q = Some n → h' !! q = Some (redirected ps other q n).
Proof.
  revert h. induction ps as [|p ps IH]; intros h Ho Hps.
  - exists h. simpl. repeat split; [done..|]. intros q n Hq. rewrite Hq. f_equal.
    unfold redirected. rewrite bool_decide_eq_false_2 by apply not_elem_of_nil.
    destruct n; simpl. rewrite app_nil_r. by destruct (bool_decide _).
  - inversion Hps as [|? ? Hp Hps']; subst.
    destruct (lookup_lt_is_Some_2 h p Hp) as [np Hnp].
    set (st1 := alter (set_children (Some other)) p h).
    assert (Hl1 : length st1 = length h) by apply length_alter.
    destruct (lookup_lt_is_Some_2 st1 other) as [no Hno]; [lia|].
    set (h1 := alter (add_parent p) other st1).
    assert (Hl2 : length h1 = length h) by (unfold h1; by rewrite length_alter).
    destruct (IH h1) as (h' & Hrun & Hlen & Hall).
    { lia. } { by rewrite Hl2. }
    exists h'. split; [|split; [lia|]].
    + simpl. unfold redirectBody at 1. unfold load. rewrite Hnp. simpl.
      fold st1. rewrite Hno. simpl. exact Hrun.
    + intros q n Hq.
      assert (Hq1 : h1 !! q = Some
                ((if bool_decide (q = other) then add_parent p else λ x, x)
                 ((if bool_decide (q = p) then set_children (Some other) else λ x, x) n))).
      { unfold h1, st1. rewrite !list_lookup_alter.
        repeat case_decide; repeat case_bool_decide; subst; try congruence;
          rewrite ?list_lookup_alter, ?Hq; simpl; try done;
          repeat case_decide; try congruence; rewrite ?Hq; done. }
      rewrite (Hall _ _ Hq1). f_equal. unfold redirected.
      destruct n; simpl.
      repeat case_bool_decide; subst; simpl;
        rewrite <- ?app_assoc; simpl; try done;
        exfalso;
        repeat match goal with
               | H : _ ∈ _ :: _ |- _ => apply elem_of_cons in H as [?|?]
               | H : ¬ _ ∈ _ :: _ |- _ => rewrite not_elem_of_cons in H
               end; naive_solver.
Qed.

(** C8.  [redirect] panics exactly when the parents slice of the node is
    nil; otherwise it returns, every parent's [children] pointer is the
    target afterwards, the target's parents are the old ones followed by
    those of the node, and nothing else changes. *)
Theorem redirect_spec (h : heap) (t other : ptr) (nt : treenode) :
  h !! t = Some nt →
  (other < length h)%nat →
  Forall (λ p, (p < length h)%nat) (parents nt) →
  (redirect h t other = Panic ↔ parents nt = []) ∧
  (parents nt ≠ [] →
   ∃ h', redirect h t other = Ok h' ∧ length h' = length h ∧
     (∀ p, p ∈ parents nt → children <$> h' !! p = Some (Some other)) ∧
     (∀ no, h !! other = Some no →
        parents <$> h' !! other = Some (parents no ++ parents nt)) ∧
     (∀ q n, h !! q = Some n → ∃ n', h' !! q = Some n' ∧
        id n' = id n ∧ val n' = val n ∧ next n' = next n ∧
        endofword n' = endofword n ∧ hash n' = hash n ∧
        level n' = level n ∧ height n' = height n ∧
        firstchild n' = firstchild n ∧
        (q ∉ parents nt → children n' = children n) ∧
        (q ≠ other → parents n' = parents n))).
Proof.
  intros Ht Ho Hps. rewrite (redirect_unfold h t other nt Ht). split.
  - destruct (parents nt) as [|p ps] eqn:E; [done|]. split; [|done].
    intros HP. by apply redirect_loop_not_Panic in HP.
  - intros Hne.
    destruct (redirect_loop other (parents nt) h Ho Hps) as (h' & Hrun & Hlen & Hall).
    exists h'. split.
    { destruct (parents nt); [done|exact Hrun]. }
    split; [done|]. split; [|split].
    + intros p Hp.
      assert (Hlt : (p < length h)%nat).
      { rewrite Forall_forall in Hps. by apply Hps. }
      destruct (lookup_lt_is_Some_2 h p Hlt) as [n Hn].
      rewrite (Hall _ _ Hn). simpl. by rewrite bool_decide_eq_true_2.
    + intros no Hno. rewrite (Hall _ _ Hno). simpl.
      by rewrite bool_decide_eq_true_2.
    + intros q n Hq. eexists. split; [by apply Hall|]. simpl.
      repeat split; try done.
      * intros Hnot. by rewrite bool_decide_eq_false_2.
      * intros Hnot. by rewrite bool_decide_eq_false_2.
Qed.

(** ** Trie builder *)

Lemma grows_extends (h h' : list treenode) : grows h h' → extends h h'.
Proof.
  intros [Hl H]. split; [done|]. intros p n Hp.
  destruct (H p n Hp) as (n' & ? & ? & ? & ? & ? & ? & ? & ? & ? & Hc & Hn).
  exists n'. repeat split; try done.
  - destruct Hc as [->|[-> _]]; auto.
  - destruct Hn as [->|[-> _]]; auto.
Qed.

Lemma grows_refl (h : list treenode) : grows h h.
Proof.
  split; [done|]. intros p n Hp. exists n. repeat split; try done; by left.
Qed.

Lemma filled_trans (a b c : option nat) (m n : nat) :
  (m ≤ n)%nat → filled a b m → filled b c n → filled a c m.
Proof.
  intros Hmn [->|[-> (x & -> & Hx)]] [->|[E (y & -> & Hy)]]; unfold filled; eauto.
  - right. split; [done|]. exists y. split; [done|lia].
  - discriminate.
Qed.

Lemma grows_trans (h1 h2 h3 : list treenode) :
  grows h1 h2 → grows h2 h3 → grows h1 h3.
Proof.
  intros [L1 H1] [L2 H2]. split; [lia|]. intros p n Hp.
  destruct (H1 p n Hp) as (n' & Hp' & ? & ? & ? & ? & ? & ? & ? & ? & Hc & Hn).
  destruct (H2 p n' Hp') as (n'' & Hp'' & ? & ? & ? & ? & ? & ? & ? & ? & Hc' & Hn').
  exists n''. repeat split; try congruence.
  - by eapply filled_trans.
  - by eapply filled_trans.
Qed.

Lemma scan_S (n : nat) (h : list treenode) (c : nat) (f : Z) :
  scan (S n) h c f =
    bind (load h c) (λ nc,
      match next nc with
      | Some nx => if val nc =? f then Ok (Found c) else scan n h nx f
      | None => if val nc =? f then Ok (Found c) else Ok (Last c)
      end).
Proof. reflexivity. Qed.

Lemma scan_Found_inv (n : nat) (h : list treenode) (c x : nat) (f : Z) :
  scan n h c f = Ok (Found x) → ∃ nx, h !! x = Some nx ∧ val nx = f.
Proof.
  revert c. induction n as [|n IH]; intros c H; simpl in H; [done|].
  inv_bind H. inv_Ok.
  destruct (next a); destruct (Z.eqb_spec (val a) f); inv_Ok; eauto.
  discriminate.
Qed.

Lemma scan_Last_inv (n : nat) (h : list treenode) (c x : nat) (f : Z) :
  scan n h c f = Ok (Last x) →
  ∃ nx, h !! x = Some nx ∧ next nx = None ∧ val nx ≠ f.
Proof.
  revert c. induction n as [|n IH]; intros c H; simpl in H; [done|].
  inv_bind H. inv_Ok.
  destruct (next a) eqn:En; destruct (Z.eqb_spec (val a) f); inv_Ok; eauto;
    discriminate.
Qed.

Lemma scan_mono (n n' : nat) (h : list treenode) (c : nat) (f : Z) (r : scanres) :
  scan n h c f = Ok r → (n ≤ n')%nat → scan n' h c f = Ok r.
Proof.
  revert n' c. induction n as [|n IH]; intros n' c H Hle; simpl in H; [done|].
  destruct n' as [|n']; [lia|]. simpl.
  inv_bind H. rewrite E. simpl.
  destruct (next a); destruct (val a =? f); try done.
  apply IH; [done|lia].
Qed.

Lemma scan_extends (n : nat) (h h' : list treenode) (c x : nat) (f : Z) :
  extends h h' → scan n h c f = Ok (Found x) → scan n h' c f = Ok (Found x).
Proof.
  intros [_ Hext]. revert c. induction n as [|n IH]; intros c H; simpl in *; [done|].
  inv_bind H. inv_Ok.
  destruct (Hext c a E) as (n' & Hc & _ & Hv & _ & _ & _ & _ & _ & _ & _ & Hn).
  unfold load. rewrite Hc. simpl. rewrite Hv.
  destruct (next a) as [nx|] eqn:En.
  - destruct Hn as [? | ->]; [done|].
    destruct (val a =? f); [done|]. by apply IH.
  - destruct (val a =? f); [|done]. by destruct (next n').
Qed.

Lemma scan_Last_append (n : nat) (h ext : list treenode) (c child : nat)
    (nl : treenode) :
  scan n h c (val nl) = Ok (Last child) →
  scan (S n) (alter (set_next (Some (length h))) child (h ++ nl :: ext)) c (val nl)
    = Ok (Found (length h)).
Proof.
  revert c. induction n as [|n IH]; intros c H; [done|].
  rewrite scan_S in H. inv_bind H. inv_Ok.
  assert (Hc : (c < length h)%nat) by (by eapply lookup_lt_Some).
  assert (HL : alter (set_next (Some (length h))) child (h ++ nl :: ext)
                 !! length h = Some nl ∨ child = length h).
  { destruct (decide (child = length h)) as [|Hne]; [by right|left].
    rewrite list_lookup_alter_ne by done.
    rewrite lookup_app_r by lia. by rewrite Nat.sub_diag. }
  rewrite (scan_S (S n)). unfold load at 1.
  destruct (next a) as [nx|] eqn:En.
  - destruct (Z.eqb_spec (val a) (val nl)) as [|Hne]; [done|].
    destruct (scan_Last_inv _ _ _ _ _ H) as (nc & Hch & Hnn & _).
    assert (c ≠ child) by (intros ->; congruence).
    rewrite list_lookup_alter_ne by done.
    rewrite lookup_app_l by done. rewrite E. simpl. rewrite En.
    destruct (Z.eqb_spec (val a) (val nl)); [done|]. by apply IH.
  - destruct (Z.eqb_spec (val a) (val nl)) as [|Hne]; [done|]. inv_Ok.
    rewrite list_lookup_alter_eq.
    rewrite lookup_app_l by done. rewrite E. simpl.
    destruct (Z.eqb_spec (val a) (val nl)); [done|].
    destruct HL as [HL|HL]; [|lia].
    rewrite ?scan_S. unfold load. rewrite HL. simpl.
    rewrite (proj2 (Z.eqb_eq _ _) eq_refl). by destruct (next nl).
Qed.

Lemma put_S (f : nat) (h : list treenode) (idc : Z) (t : nat) (s : list Z) :
  put (S f) h idc t s =
    match s with
    | [] => Ok (h, idc)
    | _ =>
      let '(fchar, size) := utf8.DecodeRuneInString s in
      descend (put f) h idc t fchar (drop size s)
    end.
Proof. reflexivity. Qed.

Lemma descend_Ok rec (h : list treenode) (idc : Z) (t : nat) (fchar : Z)
    (s : list Z) (h1 : list treenode) (id1 : Z) :
  descend rec h idc t fchar s = Ok (h1, id1) →
  ∃ nt, h !! t = Some nt ∧
    ((children nt = None ∧ ∃ h2,
        rec (h ++ [firstNode idc fchar t]) (wrap64 (idc + 1)) (length h) s
          = Ok (h2, id1) ∧
        h1 = alter (set_children (Some (length h))) t h2)
     ∨ (∃ c child, children nt = Some c ∧
          scan (length h) h c fchar = Ok (Found child) ∧
          rec h idc child s = Ok (h1, id1))
     ∨ (∃ c child h2, children nt = Some c ∧
          scan (length h) h c fchar = Ok (Last child) ∧
          rec (h ++ [siblingNode idc fchar]) (wrap64 (idc + 1)) (length h) s
            = Ok (h2, id1) ∧
          h1 = alter (set_next (Some (length h))) child h2)).
Proof.
  unfold descend. intros H. inv_bind H. inv_Ok. exists a. split; [done|].
  destruct (children a) as [c|] eqn:Ec.
  - right. inv_bind H. destruct a0 as [child|child].
    + left. eauto.
    + right. inv_bind H. destruct a0 as [h2 id2]. inv_Ok.
      exists c, child, h2. eauto.
  - left. split; [done|]. inv_bind H. destruct a0 as [h2 id2]. inv_Ok. eauto.
Qed.

Lemma set_children_same (n : treenode) : set_children (children n) n = n.
Proof. by destruct n. Qed.

Lemma put_fresh (f : nat) :
  ∀ (h : list treenode) (leaf : treenode) (idc : Z) (s : list Z)
    (h2 : list treenode) (id2 : Z),
  children leaf = None →
  put f (h ++ [leaf]) idc (length h) s = Ok (h2, id2) →
  ∃ c ext, h2 = h ++ set_children c leaf :: ext.
Proof.
  induction f as [|f IH]; intros h leaf idc s h2 id2 Hleaf H; [done|].
  rewrite put_S in H. destruct s as [|b s].
  { inv_Ok. exists None, []. by rewrite <- Hleaf, set_children_same. }
  destruct (utf8.DecodeRuneInString (b :: s)) as [fchar size].
  apply descend_Ok in H as (nt & Hnt & H).
  rewrite lookup_app_r, Nat.sub_diag in Hnt by lia. simpl in Hnt.
  injection Hnt as <-.
  destruct H as [(_ & h2' & Hrec & ->)|[(c & ? & ? & _)|(c & ? & ? & ? & _)]];
    [|congruence..].
  apply IH in Hrec as (c & ext & ->); [|done].
  eexists (Some _), (set_children c _ :: ext).
  rewrite <- app_assoc. simpl.
  replace (length h) with (length h + 0)%nat at 1 by lia.
  by rewrite alter_app_r.
Qed.

Lemma grows_fill_children (h ext : list treenode) (t : nat) (nt : treenode) :
  h !! t = Some nt → children nt = None →
  grows h (alter (set_children (Some (length h))) t (h ++ ext)).
Proof.
  intros Ht Hc. split.
  { rewrite length_alter, length_app. lia. }
  intros p n Hp. destruct (decide (p = t)) as [->|Hne].
  - rewrite list_lookup_alter_eq, (lookup_app_l_Some _ _ _ _ Hp). simpl.
    eexists. split; [done|]. simpl. assert (n = nt) as -> by congruence.
    repeat split; try done.
    + right. split; [done|]. eauto.
    + by left.
  - rewrite list_lookup_alter_ne by done.
    rewrite (lookup_app_l_Some _ _ _ _ Hp).
    exists n. repeat split; try done; by left.
Qed.

Lemma grows_fill_next (h ext : list treenode) (t : nat) (nt : treenode) :
  h !! t = Some nt → next nt = None →
  grows h (alter (set_next (Some (length h))) t (h ++ ext)).
Proof.
  intros Ht Hc. split.
  { rewrite length_alter, length_app. lia. }
  intros p n Hp. destruct (decide (p = t)) as [->|Hne].
  - rewrite list_lookup_alter_eq, (lookup_app_l_Some _ _ _ _ Hp). simpl.
    eexists. split; [done|]. simpl. assert (n = nt) as -> by congruence.
    repeat split; try done.
    + by left.
    + right. split; [done|]. eauto.
  - rewrite list_lookup_alter_ne by done.
    rewrite (lookup_app_l_Some _ _ _ _ Hp).
    exists n. repeat split; try done; by left.
Qed.

Lemma descend_grows (f : nat) (h : list treenode) (idc : Z) (t : nat)
    (fchar : Z) (s : list Z) (h1 : list treenode) (id1 : Z) :
  (∀ h idc t s h1 id1, put f h idc t s = Ok (h1, id1) → grows h h1) →
  descend (put f) h idc t fchar s = Ok (h1, id1) → grows h h1.
Proof.
  intros IH H. apply descend_Ok in H as (nt & Hnt & H).
  destruct H as [(Hc & h2 & Hrec & ->)|[(c & child & _ & _ & Hrec)
                |(c & child & h2 & _ & Hscan & Hrec & ->)]].
  - apply put_fresh in Hrec as (c & ext & ->); [|done].
    by eapply grows_fill_children.
  - by eapply IH.
  - apply put_fresh in Hrec as (c' & ext & ->); [|done].
    apply scan_Last_inv in Hscan as (nc & Hch & Hnn & _).
    by eapply grows_fill_next.
Qed.

Lemma put_grows (f : nat) :
  ∀ (h : list treenode) (idc : Z) (t : nat) (s : list Z)
    (h1 : list treenode) (id1 : Z),
  put f h idc t s = Ok (h1, id1) → grows h h1.
Proof.
  induction f as [|f IH]; intros h idc t s h1 id1 H; [done|].
  rewrite put_S in H. destruct s as [|b s].
  { inv_Ok. apply grows_refl. }
  destruct (utf8.DecodeRuneInString (b :: s)) as [fchar size].
  by eapply descend_grows.
Qed.

Lemma extends_set_children (h : list treenode) (t : nat) (c : option nat) :
  (∀ nt, h !! t = Some nt → children nt = None) →
  extends h (alter (set_children c) t h).
Proof.
  intros Ht. split; [by rewrite length_alter|]. intros p n Hp.
  destruct (decide (p = t)) as [->|Hne].
  - rewrite list_lookup_alter_eq, Hp. simpl. eexists. split; [done|].
    simpl. repeat split; try done; [left; by apply Ht|by right].
  - rewrite list_lookup_alter_ne by done. exists n.
    repeat split; try done; by right.
Qed.

Lemma extends_set_next (h : list treenode) (t : nat) (c : option nat) :
  (∀ nt, h !! t = Some nt → next nt = None) →
  extends h (alter (set_next c) t h).
Proof.
  intros Ht. split; [by rewrite length_alter|]. intros p n Hp.
  destruct (decide (p = t)) as [->|Hne].
  - rewrite list_lookup_alter_eq, Hp. simpl. eexists. split; [done|].
    simpl. repeat split; try done; [by right|left; by apply Ht].
  - rewrite list_lookup_alter_ne by done. exists n.
    repeat split; try done; by right.
Qed.

Lemma follows_extends (f : nat) :
  ∀ (h h' : list treenode) (t : nat) (s : list Z),
  extends h h' → follows f h t s → follows f h' t s.
Proof.
  induction f as [|f IH]; intros h h' t s Hext H; [done|].
  simpl in *. destruct s as [|b s]; [done|].
  destruct (utf8.DecodeRuneInString (b :: s)) as [fchar size].
  destruct H as (nt & c & child & Ht & Hc & Hscan & Hrec).
  destruct (proj2 Hext t nt Ht) as (n' & Ht' & _ & _ & _ & _ & _ & _ & _ & _ & Hc' & _).
  exists n', c, child. repeat split.
  - done.
  - destruct Hc' as [? | ->]; congruence.
  - eapply scan_mono; [by eapply scan_extends|]. apply Hext.
  - by eapply IH.
Qed.

Lemma descend_noop (f : nat) (h : list treenode) (idc : Z) (t : nat)
    (fchar : Z) (s : list Z) :
  (∀ h t s idc, follows f h t s → put f h idc t s = Ok (h, idc)) →
  followsStep (follows f) h t fchar s →
  descend (put f) h idc t fchar s = Ok (h, idc).
Proof.
  intros IH (nt & c & child & Ht & Hc & Hscan & Hrec).
  unfold descend, load. rewrite Ht. simpl. rewrite Hc, Hscan. simpl.
  by apply IH.
Qed.

Lemma follows_noop (f : nat) :
  ∀ (h : list treenode) (t : nat) (s : list Z) (idc : Z),
  follows f h t s → put f h idc t s = Ok (h, idc).
Proof.
  induction f as [|f IH]; intros h t s idc H; [done|].
  rewrite put_S. simpl in H. destruct s as [|b s]; [done|].
  destruct (utf8.DecodeRuneInString (b :: s)) as [fchar size].
  by apply descend_noop.
Qed.

Lemma descend_follows (f : nat) (h : list treenode) (idc : Z) (t : nat)
    (fchar : Z) (s : list Z) (h1 : list treenode) (id1 : Z) :
  (∀ h idc t s h1 id1, put f h idc t s = Ok (h1, id1) → follows f h1 t s) →
  descend (put f) h idc t fchar s = Ok (h1, id1) →
  followsStep (follows f) h1 t fchar s.
Proof.
  intros IH H. apply descend_Ok in H as (nt & Hnt & H).
  assert (Ht : (t < length h)%nat) by (by eapply lookup_lt_Some).
  destruct H as [(Hc & h2 & Hrec & ->)|[(c & child & Hc & Hscan & Hrec)
                |(c & child & h2 & Hc & Hscan & Hrec & ->)]].
  - pose proof (IH _ _ _ _ _ _ Hrec) as Hf.
    apply put_fresh in Hrec as (c & ext & ->); [|done].
    set (h2 := h ++ set_children c (firstNode idc fchar t) :: ext) in *.
    assert (Ht2 : h2 !! t = Some nt) by (by apply lookup_app_l_Some).
    exists (set_children (Some (length h)) nt), (length h), (length h).
    repeat split.
    + by rewrite list_lookup_alter_eq, Ht2.
    + eapply (scan_mono 1); [|rewrite length_alter; unfold h2;
                               rewrite length_app; simpl; lia].
      rewrite scan_S. unfold load.
      rewrite list_lookup_alter_ne by lia. unfold h2.
      rewrite lookup_app_r, Nat.sub_diag by lia. simpl.
      rewrite (proj2 (Z.eqb_eq _ _) eq_refl). done.
    + eapply follows_extends; [|exact Hf]. apply extends_set_children.
      intros n Hn. congruence.
  - pose proof (put_grows _ _ _ _ _ _ _ Hrec) as Hg%grows_extends.
    destruct (proj2 Hg t nt Hnt)
      as (n' & Ht' & _ & _ & _ & _ & _ & _ & _ & _ & Hc' & _).
    exists n', c, child. repeat split.
    + done.
    + destruct Hc' as [? | ->]; congruence.
    + eapply scan_mono; [by eapply scan_extends|]. apply Hg.
    + by eapply IH.
  - pose proof (IH _ _ _ _ _ _ Hrec) as Hf.
    apply put_fresh in Hrec as (c' & ext & ->); [|done].
    set (nl := set_children c' (siblingNode idc fchar)) in *.
    set (h2 := h ++ nl :: ext) in *.
    pose proof (scan_Last_inv _ _ _ _ _ Hscan) as (nc & Hch & Hnn & _).
    assert (Hch2 : h2 !! child = Some nc) by (by apply lookup_app_l_Some).
    assert (Ht2 : h2 !! t = Some nt) by (by apply lookup_app_l_Some).
    exists (if decide (child = t) then set_next (Some (length h)) nt else nt),
      c, (length h).
    repeat split.
    + rewrite list_lookup_alter.
      destruct (decide (child = t)) as [->|?]; by rewrite Ht2.
    + by case_decide.
    + eapply scan_mono;
        [exact (scan_Last_append (length h) h ext c child nl Hscan)|].
      rewrite length_alter. unfold h2. rewrite length_app. simpl. lia.
    + eapply follows_extends; [|exact Hf]. apply extends_set_next.
      intros n Hn. congruence.
Qed.

Lemma put_follows (f : nat) :
  ∀ (h : list treenode) (idc : Z) (t : nat) (s : list Z)
    (h1 : list treenode) (id1 : Z),
  put f h idc t s = Ok (h1, id1) → follows f h1 t s.
Proof.
  induction f as [|f IH]; intros h idc t s h1 id1 H; [done|].
  rewrite put_S in H. simpl. destruct s as [|b s]; [done|].
  destruct (utf8.DecodeRuneInString (b :: s)) as [fchar size].
  by eapply descend_follows.
Qed.

Lemma Put_unfold (h : list treenode) (idc : Z) (t : nat) (s : list Z)
    (nt : treenode) :
  h !! t = Some nt →
  Put h idc t s =
    descend (put (S (length s))) h
      (if id nt =? 0 then wrap64 (idc + 1) else idc) t
      (utf8.DecodeRuneInString s).1
      (drop (utf8.DecodeRuneInString s).2 s).
Proof.
  intros Ht. unfold Put, load. rewrite Ht. simpl.
  by destruct (utf8.DecodeRuneInString s).
Qed.

(** C7.  Inserting a word a second time returns and leaves the store as the
    first insertion made it: no node is created and no link changes.  The
    id counter is advanced only by the test [t.id == 0] at the entry of
    [Put]. *)
Theorem Put_idempotent (h : heap) (idc : Z) (t : ptr) (w : gostring)
    (h1 : heap) (id1 : Z) :
  Put h idc t w = Ok (h1, id1) →
  ∃ nt, h !! t = Some nt ∧
    Put h1 id1 t w = Ok (h1, if id nt =? 0 then wrap64 (id1 + 1) else id1).
Proof.
  intros H.
  destruct (h !! t) as [nt|] eqn:Ht;
    [|unfold Put, load in H; by rewrite Ht in H].
  exists nt. split; [done|].
  rewrite (Put_unfold _ _ _ _ _ Ht) in H.
  pose proof (descend_grows _ _ _ _ _ _ _ _ (put_grows _) H) as Hg.
  destruct (proj2 Hg t nt Ht) as (n' & Ht' & Hid & _).
  rewrite (Put_unfold _ _ _ _ _ Ht'), Hid.
  apply descend_noop; [apply follows_noop|].
  eapply descend_follows; [apply put_follows|exact H].
Qed.

Lemma onChain_extends (h h' : list treenode) (c x : nat) :
  extends h h' → onChain h c x → onChain h' c x.
Proof.
  intros Hext. induction 1 as [|c n nx x Hc Hn _ IH]; [constructor|].
  destruct (proj2 Hext c n Hc) as (n' & Hc' & _ & _ & _ & _ & _ & _ & _ & _ & _ & Hn').
  eapply onChain_next; [exact Hc'| |exact IH].
  destruct Hn' as [? | ->]; congruence.
Qed.

Lemma represents_extends (h h' : list treenode) (w : list Z) :
  extends h h' → ∀ t, represents h t w → represents h' t w.
Proof.
  intros Hext. induction w as [|r w IH]; intros t H; [done|].
  destruct H as (nt & c & x & nx & Ht & Hc & Hch & Hx & Hv & Hrec).
  destruct (proj2 Hext t nt Ht) as (nt' & Ht' & _ & _ & _ & _ & _ & _ & _ & _ & Hc' & _).
  destruct (proj2 Hext x nx Hx) as (nx' & Hx' & _ & Hv' & _).
  exists nt', c, x, nx'. repeat split.
  - done.
  - destruct Hc' as [? | ->]; congruence.
  - by eapply onChain_extends.
  - done.
  - congruence.
  - by apply IH.
Qed.

Lemma Put_grows_store (h : list treenode) (idc : Z) (t : nat) (s : list Z)
    (h1 : list treenode) (id1 : Z) :
  Put h idc t s = Ok (h1, id1) → grows h h1.
Proof.
  intros H.
  destruct (h !! t) as [nt|] eqn:Ht;
    [|unfold Put, load in H; by rewrite Ht in H].
  rewrite (Put_unfold _ _ _ _ _ Ht) in H.
  exact (descend_grows _ _ _ _ _ _ _ _ (put_grows _) H).
Qed.

(** C10.  [Put] only grows the trie: every node of the store keeps its
    fields, except that an empty [children] or [next] pointer may be set to
    a node allocated by the call; hence every rune sequence spelled by a
    path from any node is still spelled by a path from that node. *)
Theorem Put_grows (h : heap) (idc : Z) (t : ptr) (s : gostring)
    (h1 : heap) (id1 : Z) :
  Put h idc t s = Ok (h1, id1) →
  grows h h1 ∧ ∀ (r : ptr) (w : list rune), represents h r w → represents h1 r w.
Proof.
  intros H. pose proof (Put_grows_store _ _ _ _ _ _ H) as Hg.
  split; [done|]. intros r w. apply represents_extends. by apply grows_extends.
Qed.

(** C3 fails on the code.  [Put] has no test for the empty string: on a
    fresh root it decodes U+FFFD from the empty string, allocates a child
    with that value and advances the id counter. *)
Theorem Put_empty_string_inserts :
  Put (NewDAWG []).1 0 (NewDAWG []).2 []
  = Ok ([mkNode (-1) 8709 (Some 1%nat) None [] false (replicate 20 0) (-1) 0 false;
         mkNode 0 utf8.RuneError None None [0%nat] false (replicate 20 0) (-1) 0 true],
        1).
Proof. reflexivity. Qed.

(** ** processLevel *)

Lemma relinked_refl (h : list treenode) : relinked h h.
Proof. split; [done|]. intros q n Hq. exists n. by repeat split. Qed.

Lemma relinked_trans (h1 h2 h3 : list treenode) :
  relinked h1 h2 → relinked h2 h3 → relinked h1 h3.
Proof.
  intros [L1 H1] [L2 H2]. split; [congruence|]. intros q n Hq.
  destruct (H1 q n Hq) as (n' & Hq' & ? & ? & ? & ? & ? & ? & ? & ?).
  destruct (H2 q n' Hq') as (n'' & Hq'' & ? & ? & ? & ? & ? & ? & ? & ?).
  exists n''. repeat split; congruence.
Qed.

Lemma relinked_alter (h : list treenode) (p : nat) (f : treenode → treenode) :
  (∀ n, id (f n) = id n ∧ val (f n) = val n ∧ next (f n) = next n ∧
        endofword (f n) = endofword n ∧ hash (f n) = hash n ∧
        level (f n) = level n ∧ height (f n) = height n ∧
        firstchild (f n) = firstchild n) →
  relinked h (alter f p h).
Proof.
  intros Hf. split; [by rewrite length_alter|]. intros q n Hq.
  destruct (decide (p = q)) as [->|Hne].
  - rewrite list_lookup_alter_eq, Hq. simpl. exists (f n). split; [done|]. apply Hf.
  - rewrite list_lookup_alter_ne by done. exists n. by repeat split.
Qed.

Lemma relinked_key (h h' : list treenode) (q : nat) :
  relinked h h' → key h' q = key h q.
Proof.
  intros [L H]. unfold key. destruct (h !! q) as [n|] eqn:Hq.
  - destruct (H q n Hq) as (n' & -> & _ & -> & _ & _ & -> & -> & _). done.
  - apply lookup_ge_None in Hq. rewrite (proj2 (lookup_ge_None h' q)); [done|lia].
Qed.

Lemma relinked_isFirst (h h' : list treenode) (q : nat) :
  relinked h h' → isFirst h' q = isFirst h q.
Proof.
  intros [L H]. unfold isFirst. destruct (h !! q) as [n|] eqn:Hq.
  - destruct (H q n Hq) as (n' & -> & _ & _ & _ & _ & _ & _ & _ & ->). done.
  - apply lookup_ge_None in Hq. rewrite (proj2 (lookup_ge_None h' q)); [done|lia].
Qed.

Lemma redirect_loop_relinked (other : nat) (ps : list nat) :
  ∀ h h', forRange (redirectBody other) h ps = Ok h' → relinked h h'.
Proof.
  induction ps as [|p ps IH]; intros h h' H; simpl in H.
  - inv_Ok. apply relinked_refl.
  - inv_bind H. unfold redirectBody in E. inv_bind E. inv_bind E. inv_Ok.
    eapply relinked_trans; [|by apply IH].
    eapply relinked_trans; apply relinked_alter; intros n; by repeat split.
Qed.

Lemma redirect_relinked (h h' : list treenode) (t other : nat) :
  redirect h t other = Ok h' → relinked h h'.
Proof.
  intros H. destruct (h !! t) as [nt|] eqn:Ht.
  - rewrite (redirect_unfold _ _ _ _ Ht) in H.
    destruct (parents nt); [done|]. by eapply redirect_loop_relinked.
  - unfold redirect, load in H. by rewrite Ht in H.
Qed.

Lemma sameKey_key (h : list treenode) (a b : nat) (na nb : treenode) :
  h !! a = Some na → h !! b = Some nb →
  sameKey na nb = true ↔ key h b = key h a.
Proof.
  intros Ha Hb. unfold key, sameKey. rewrite Ha, Hb.
  rewrite !andb_true_iff, !Z.eqb_eq, bool_decide_eq_true. split.
  - intros [[-> ->] ->]. done.
  - intros [= -> -> ->]. done.
Qed.

Lemma firstMatch_cons_ne (h : list treenode) (c x k : nat) (kept : list nat) :
  key h x ≠ key h c → firstMatch h c kept k → firstMatch h c (x :: kept) k.
Proof.
  intros Hne (pre & post & -> & Hk & Hpre).
  exists (x :: pre), post. repeat split; [done|].
  intros y [->|Hy]%elem_of_cons; auto.
Qed.

Lemma firstMatch_unique (h : list treenode) (c k k' : nat) (kept : list nat) :
  firstMatch h c kept k → firstMatch h c kept k' → k = k'.
Proof.
  intros (pre & post & -> & Hk & Hpre) (pre' & post' & E & Hk' & Hpre').
  revert pre' E Hpre'. induction pre as [|x pre IH]; intros pre' E Hpre'.
  - destruct pre' as [|y pre']; simpl in E; [congruence|].
    injection E as <- _. exfalso. apply (Hpre' k); [left|done].
  - destruct pre' as [|y pre']; simpl in E.
    + injection E as -> _. exfalso. apply (Hpre k'); [left|done].
    + injection E as -> E. eapply IH; [|exact E|].
      * intros z Hz. apply Hpre. by right.
      * intros z Hz. apply Hpre'. by right.
Qed.

Lemma firstMatch_elem (h : list treenode) (c k : nat) (kept : list nat) :
  firstMatch h c kept k → k ∈ kept ∧ key h k = key h c.
Proof.
  intros (pre & post & -> & Hk & _). split; [|done].
  apply elem_of_app. right. left.
Qed.

Lemma firstMatch_exists (h : list treenode) (c : nat) (kept : list nat) (k : nat) :
  k ∈ kept → key h k = key h c → ∃ k', firstMatch h c kept k'.
Proof.
  induction kept as [|x kept IH]; intros Hin Hk; [by apply elem_of_nil in Hin|].
  destruct (decide (key h x = key h c)) as [Hx|Hx].
  - exists x, [], kept. repeat split; [done|]. intros y Hy. by apply elem_of_nil in Hy.
  - apply elem_of_cons in Hin as [->|Hin]; [done|].
    destruct (IH Hin Hk) as (k' & Hk'). exists k'. by apply firstMatch_cons_ne.
Qed.

Lemma scanOthers_spec (first : nat) (others : list nat) :
  ∀ (h h' : list treenode) (spent : option nat),
  scanOthers h first others = Ok (h', spent) →
  relinked h h' ∧
  match spent with
  | Some le => firstMatch h first others le ∧ redirect h first le = Ok h' ∧
               is_Some (key h first)
  | None => h' = h ∧ ∀ x, x ∈ others → key h x ≠ key h first
  end.
Proof.
  induction others as [|le rest IH]; intros h h' spent H; simpl in H.
  - inv_Ok. split; [apply relinked_refl|]. split; [done|].
    intros x Hx. by apply elem_of_nil in Hx.
  - inv_bind H. inv_bind H. inv_Ok.
    pose proof (sameKey_key h first le a a0 E E0) as Hsk.
    assert (is_Some (key h first)) by (unfold key; rewrite E; eauto).
    destruct (sameKey a a0) eqn:Es.
    + inv_bind H. inv_Ok. split; [by eapply redirect_relinked|].
      split; [|done].
      exists [], rest. repeat split; [by apply Hsk|].
      intros y Hy. by apply elem_of_nil in Hy.
    + assert (Hne : key h le ≠ key h first).
      { intros Heq. apply Hsk in Heq. congruence. }
      destruct (IH _ _ _ H) as (Hr & Hs). split; [done|].
      destruct spent as [k|].
      * destruct Hs as (Hfm & Hred & ?). split; [|done].
        by apply firstMatch_cons_ne.
      * destruct Hs as [-> Hall]. split; [done|].
        intros x [->|Hx]%elem_of_cons; auto.
Qed.

Lemma firstMatch_relinked (h0 h : list treenode) (c k : nat) (kept : list nat) :
  relinked h0 h → firstMatch h c kept k ↔ firstMatch h0 c kept k.
Proof.
  intros Hr. unfold firstMatch.
  split; intros (pre & post & -> & Hk & Hpre); exists pre, post;
    (split; [done|]); rewrite ?(relinked_key h0 h _ Hr) in *.
  - split; [done|]. intros x Hx. specialize (Hpre x Hx).
    by rewrite !(relinked_key h0 h _ Hr) in Hpre.
  - split; [done|]. intros x Hx. rewrite !(relinked_key h0 h _ Hr). by apply Hpre.
Qed.

Lemma filter_ext_in {A} (P Q : A → Prop) `{∀ x, Decision (P x)}
    `{∀ x, Decision (Q x)} (l : list A) :
  (∀ x, x ∈ l → (P x ↔ Q x)) → filter P l = filter Q l.
Proof.
  induction l as [|x l IH]; intros Hpq; [done|].
  rewrite !filter_cons.
  assert (Hl : filter P l = filter Q l).
  { apply IH. intros y Hy. apply Hpq. by right. }
  destruct (decide (P x)) as [HP|HP], (decide (Q x)) as [HQ|HQ]; rewrite ?Hl; try done.
  - exfalso. apply HQ, (Hpq x); [left|done].
  - exfalso. apply HP, (Hpq x); [left|done].
Qed.

Lemma keptBefore_skip (others : list nat) (ms : list (nat * nat)) (first le : nat)
    (pre : list nat) :
  first ∉ pre →
  keptBefore others ((first, le) :: ms) pre = keptBefore others ms pre.
Proof.
  intros Hnot. unfold keptBefore. f_equal. apply filter_ext_in.
  intros x Hx. rewrite fmap_cons, not_elem_of_cons. simpl.
  split; [tauto|]. intros ?. split; [|done]. intros ->. done.
Qed.

Lemma processFirsts_spec (h0 : list treenode) (firsts : list nat) :
  ∀ (h : list treenode) (others : list nat) (merges : list (nat * nat))
    (hF : list treenode) (oF : list nat) (mF : list (nat * nat)),
  NoDup firsts → relinked h0 h →
  processFirsts h others merges firsts = Ok (hF, oF, mF) →
  relinked h0 hF ∧
  ∃ ms, mF = merges ++ ms ∧
    (∀ c k, (c, k) ∈ ms →
       c ∈ firsts ∧ is_Some (key h0 c) ∧ key h0 k = key h0 c) ∧
    oF = keptBefore others ms firsts ∧
    ∀ pre c post, firsts = pre ++ c :: post →
      ∀ k, (c, k) ∈ ms ↔ firstMatch h0 c (keptBefore others ms pre) k.
Proof.
  induction firsts as [|first rest IH];
    intros h others merges hF oF mF Hnd Hr H; simpl in H.
  - inv_Ok. split; [done|]. exists []. rewrite app_nil_r.
    repeat split; try done.
    + by apply elem_of_nil in H.
    + by apply elem_of_nil in H.
    + by apply elem_of_nil in H.
    + unfold keptBefore. by rewrite filter_nil, app_nil_r.
    + by destruct pre.
    + by destruct pre.
  - apply NoDup_cons in Hnd as [Hfirst Hnd].
    inv_bind H. destruct a as [h' spent].
    apply scanOthers_spec in E as (Hr' & Hs).
    assert (Hr0 : relinked h0 h') by (by eapply relinked_trans).
    destruct spent as [le|].
    + destruct Hs as (Hfm & _ & Hsome).
      apply (firstMatch_relinked h0 h _ _ _ Hr) in Hfm.
      rewrite (relinked_key h0 h _ Hr) in Hsome.
      destruct (IH _ _ _ _ _ _ Hnd Hr0 H) as (HrF & ms & -> & Hsound & -> & Hiff).
      split; [done|]. exists ((first, le) :: ms).
      assert (Hnotin : ∀ k, (first, k) ∉ ms).
      { intros k Hk. apply Hsound in Hk as [? _]. done. }
      split; [by rewrite <- app_assoc|]. split; [|split].
      * intros c k [[= -> ->]|Hin]%elem_of_cons.
        -- split; [left|]. split; [done|]. by apply firstMatch_elem in Hfm as [_ ?].
        -- destruct (Hsound c k Hin) as (? & ? & ?). split; [by right|done].
      * unfold keptBefore at 2. rewrite filter_cons_False.
        2:{ intros Hn. apply Hn. rewrite fmap_cons. left. }
        symmetry. by apply keptBefore_skip.
      * intros pre c post Heq k. destruct pre as [|x pre]; simpl in Heq.
        -- injection Heq as <- <-. unfold keptBefore. rewrite filter_nil, app_nil_r.
           rewrite elem_of_cons. split.
           ++ intros [[= ->]|Hin]; [done|]. by apply Hnotin in Hin.
           ++ intros Hk. left. f_equal. by eapply firstMatch_unique.
        -- injection Heq as <- ->.
           assert (c ≠ first).
           { intros ->. apply Hfirst. apply elem_of_app. right. left. }
           assert (first ∉ pre).
           { intros Hin. apply Hfirst. apply elem_of_app. by left. }
           rewrite elem_of_cons. unfold keptBefore at 1.
           rewrite filter_cons_False.
           2:{ intros Hn. apply Hn. rewrite fmap_cons. left. }
           fold (keptBefore others ((first, le) :: ms) pre).
           rewrite keptBefore_skip by done. rewrite <- (Hiff pre c post eq_refl k).
           split; [|by right]. intros [[= -> ->]|?]; done.
    + destruct Hs as [-> Hall].
      destruct (IH _ _ _ _ _ _ Hnd Hr0 H) as (HrF & ms & -> & Hsound & -> & Hiff).
      split; [done|]. exists ms.
      assert (Hnotin : first ∉ ms.*1).
      { intros ((c & k) & -> & Hk)%list_elem_of_fmap. simpl in *.
        apply Hsound in Hk as [? _]. done. }
      assert (Hkept : ∀ pre, keptBefore (others ++ [first]) ms pre
                             = keptBefore others ms (first :: pre)).
      { intros pre. unfold keptBefore. rewrite filter_cons_True by done.
        by rewrite <- app_assoc. }
      split; [done|]. split; [|split].
      * intros c k Hin. destruct (Hsound c k Hin) as (? & ? & ?).
        split; [by right|done].
      * apply Hkept.
      * intros pre c post Heq k. destruct pre as [|x pre]; simpl in Heq.
        -- injection Heq as <- <-. unfold keptBefore. rewrite filter_nil, app_nil_r.
           split.
           ++ intros Hin. exfalso. apply Hnotin.
              apply list_elem_of_fmap. by exists (first, k).
           ++ intros [Hk Hkey]%firstMatch_elem. exfalso.
              apply (Hall k Hk). by rewrite !(relinked_key h0 h _ Hr).
        -- injection Heq as <- ->. rewrite <- Hkept.
           apply (Hiff pre c post eq_refl).
Qed.

Lemma partitionLevel_spec (h : list treenode) (lvl : list nat) :
  ∀ (a b firsts others : list nat),
  forRange
    (λ st el,
       n ←' load h el;
       if firstchild n then Ok (st.1 ++ [el], st.2) else Ok (st.1, st.2 ++ [el]))
    (a, b) lvl = Ok (firsts, others) →
  firsts = a ++ filter (λ p, isFirst h p = true) lvl ∧
  others = b ++ filter (λ p, isFirst h p ≠ true) lvl.
Proof.
  induction lvl as [|x lvl IH]; intros a b firsts others H; simpl in H.
  - inv_Ok. by rewrite !filter_nil, !app_nil_r.
  - inv_bind H. apply bind_Ok in E as (n & Hn & E). inv_Ok.
    assert (Hx : isFirst h x = firstchild n) by (unfold isFirst; by rewrite Hn).
    simpl in E. destruct (firstchild n); inv_Ok; simpl in H;
      apply IH in H as [-> ->].
    + rewrite filter_cons_True, filter_cons_False by congruence.
      by rewrite <- !app_assoc.
    + rewrite filter_cons_False, filter_cons_True by congruence.
      by rewrite <- !app_assoc.
Qed.

(** ** Structural annotator *)

Lemma pointwise_refl (R : treenode → treenode → Prop) (h : list treenode) :
  (∀ n, R n n) → pointwise R h h.
Proof. intros HR. split; [done|]. intros p n Hp. eauto. Qed.

Lemma pointwise_trans (R : treenode → treenode → Prop) (h1 h2 h3 : list treenode) :
  (∀ a b c, R a b → R b c → R a c) →
  pointwise R h1 h2 → pointwise R h2 h3 → pointwise R h1 h3.
Proof.
  intros HR [L1 H1] [L2 H2]. split; [congruence|]. intros p n Hp.
  destruct (H1 p n Hp) as (n' & Hp' & ?). destruct (H2 p n' Hp') as (n'' & ? & ?).
  eauto.
Qed.

Lemma pointwise_alter (R : treenode → treenode → Prop) (h : list treenode)
    (p : nat) (f : treenode → treenode) :
  (∀ n, R n n) → (∀ n, R n (f n)) → pointwise R h (alter f p h).
Proof.
  intros Hrefl Hf. split; [by rewrite length_alter|]. intros q n Hq.
  destruct (decide (p = q)) as [->|Hne].
  - rewrite list_lookup_alter_eq, Hq. simpl. eauto.
  - rewrite list_lookup_alter_ne by done. eauto.
Qed.

Lemma pointwise_None (R : treenode → treenode → Prop) (h h' : list treenode) (p : nat) :
  pointwise R h h' → h !! p = None → h' !! p = None.
Proof.
  intros [L _] Hp. apply lookup_ge_None in Hp. apply lookup_ge_None. lia.
Qed.

Lemma onlyLevel_refl n : onlyLevel n n.
Proof. by destruct n. Qed.
Lemma onlyLevel_trans a b c : onlyLevel a b → onlyLevel b c → onlyLevel a c.
Proof. unfold onlyLevel. intros -> ->. by destruct a. Qed.
Lemma onlyHeight_refl n : onlyHeight n n.
Proof. by destruct n. Qed.
Lemma onlyHeight_trans a b c : onlyHeight a b → onlyHeight b c → onlyHeight a c.
Proof. unfold onlyHeight. intros -> ->. by destruct a. Qed.
Lemma onlyHash_refl n : onlyHash n n.
Proof. by destruct n. Qed.
Lemma onlyHash_trans a b c : onlyHash a b → onlyHash b c → onlyHash a c.
Proof. unfold onlyHash. intros -> ->. by destruct a. Qed.

Lemma forChain_inv {S} (hp : S → list treenode) (body : S → nat → outcome S)
    (I : S → Prop) :
  (∀ s c s', I s → body s c = Ok s' → I s') →
  ∀ n st child st', I st → forChain hp body n st child = Ok st' → I st'.
Proof.
  intros Hbody. induction n as [|n IH]; intros st child st' Hst H;
    destruct child as [c|]; simpl in H; inv_Ok; try done.
  inv_bind H. inv_bind H. eapply IH; [|exact H]. by eapply Hbody.
Qed.

Lemma forRange_inv {S A} (body : S → A → outcome S) (I : S → Prop) :
  (∀ s x s', I s → body s x = Ok s' → I s') →
  ∀ xs st st', I st → forRange body st xs = Ok st' → I st'.
Proof.
  intros Hbody. induction xs as [|x xs IH]; intros st st' Hst H; simpl in H.
  - by inv_Ok.
  - inv_bind H. eapply IH; [|exact H]. by eapply Hbody.
Qed.

Lemma computeLevels_onlyLevel (f : nat) :
  ∀ h t lvl h', computeLevels f h t lvl = Ok h' → pointwise onlyLevel h h'.
Proof.
  induction f as [|f IH]; intros h t lvl h' H; simpl in H; [done|].
  inv_bind H. inv_bind H.
  assert (H1 : pointwise onlyLevel h (alter (set_level lvl) t h)).
  { apply pointwise_alter; [apply onlyLevel_refl|]. intros n. by destruct n. }
  revert H1 H. apply forChain_inv. intros s c s' Hs Hb.
  eapply pointwise_trans; [apply onlyLevel_trans|exact Hs|by eapply IH].
Qed.

Lemma computeHeights_onlyHeight (f : nat) :
  ∀ h t h', computeHeights f h t = Ok h' → pointwise onlyHeight h h'.
Proof.
  induction f as [|f IH]; intros h t h' H; simpl in H; [done|].
  inv_bind H. destruct (children a) as [c|].
  - inv_bind H. destruct a0 as [h1 hs]. inv_Ok.
    assert (H1 : pointwise onlyHeight h h1).
    { assert (Hinit : pointwise onlyHeight h (h, @nil Z).1)
        by apply pointwise_refl, onlyHeight_refl.
      refine (forChain_inv fst _ (λ st, pointwise onlyHeight h st.1) _
                _ _ _ _ Hinit E0).
      intros s ch s' Hs Hb. inv_bind Hb. inv_bind Hb. inv_Ok. simpl.
      eapply pointwise_trans; [apply onlyHeight_trans|exact Hs|by eapply IH]. }
    eapply pointwise_trans; [apply onlyHeight_trans|exact H1|].
    apply pointwise_alter; [apply onlyHeight_refl|]. intros n. by destruct n.
  - inv_Ok. apply pointwise_alter; [apply onlyHeight_refl|]. intros n. by destruct n.
Qed.

(** *** computeHashes *)

Lemma shapeOf_S (f : nat) (h : list treenode) (a : nat) :
  shapeOf (S f) h (Some a) =
    match h !! a with
    | None => None
    | Some n =>
      match shapeOf f h (next n), shapeOf f h (children n) with
      | Some sn, Some sc => Some (Shape (val n) sn sc)
      | _, _ => None
      end
    end.
Proof. reflexivity. Qed.

Lemma shapeOf_det (f : nat) :
  ∀ f' h p s s', shapeOf f h p = Some s → shapeOf f' h p = Some s' → s = s'.
Proof.
  induction f as [|f IH]; intros f' h p s s' H H'.
  - destruct p; simpl in H; [done|]. destruct f'; simpl in H'; congruence.
  - destruct p as [a|]; [|destruct f'; simpl in *; congruence].
    destruct f' as [|f']; [done|]. rewrite shapeOf_S in H, H'.
    destruct (h !! a) as [n|]; [|done].
    destruct (shapeOf f h (next n)) as [sn|] eqn:E1; [|done].
    destruct (shapeOf f h (children n)) as [sc|] eqn:E2; [|done].
    destruct (shapeOf f' h (next n)) as [sn'|] eqn:E1'; [|done].
    destruct (shapeOf f' h (children n)) as [sc'|] eqn:E2'; [|done].
    inv_Ok. injection H as <-. injection H' as <-.
    f_equal; eapply IH; eauto.
Qed.

Lemma shapeOf_pointwise (f : nat) (h h' : list treenode) :
  pointwise onlyHash h h' → ∀ p, shapeOf f h' p = shapeOf f h p.
Proof.
  intros Hp. induction f as [|f IH]; intros p; [done|].
  destruct p as [a|]; [|done]. rewrite !shapeOf_S.
  destruct (h !! a) as [n|] eqn:Ha.
  - destruct (proj2 Hp a n Ha) as (n' & -> & ->). simpl. by rewrite !IH.
  - by rewrite (pointwise_None _ _ _ _ Hp Ha).
Qed.

Lemma reach_pointwise (h h' : list treenode) (p q : nat) :
  pointwise onlyHash h' h → reach h p q → reach h' p q.
Proof.
  intros Hp. induction 1 as [|p n c q Hn Hc _ IH|p n c q Hn Hc _ IH].
  - constructor.
  - destruct (h' !! p) as [n'|] eqn:Hn'.
    + destruct (proj2 Hp p n' Hn') as (n2 & Hn2 & HR).
      assert (n2 = n) as -> by congruence. rewrite HR in Hc. simpl in Hc.
      by eapply reach_children.
    + apply (pointwise_None _ _ _ _ Hp) in Hn'. congruence.
  - destruct (h' !! p) as [n'|] eqn:Hn'.
    + destruct (proj2 Hp p n' Hn') as (n2 & Hn2 & HR).
      assert (n2 = n) as -> by congruence. rewrite HR in Hc. simpl in Hc.
      by eapply reach_next.
    + apply (pointwise_None _ _ _ _ Hp) in Hn'. congruence.
Qed.

Lemma hashOK_alter (h0 h : list treenode) (t q : nat) (s : shape) (f : nat) :
  shapeOf f h0 (Some t) = Some s → is_Some (h !! t) →
  (q = t ∨ hashOK h0 h q) →
  hashOK h0 (alter (set_hash (sha1.Sum (serial s))) t h) q.
Proof.
  intros Hs [nt Hnt] Hq. destruct (decide (q = t)) as [->|Hne].
  - exists (set_hash (sha1.Sum (serial s)) nt). split.
    + by rewrite list_lookup_alter_eq, Hnt.
    + exists f, s. done.
  - destruct Hq as [?|(nq & Hnq & Hc)]; [done|]. exists nq. split; [|done].
    by rewrite list_lookup_alter_ne.
Qed.

Lemma computeHashes_spec (f : nat) :
  ∀ (h0 h : list treenode) (t : nat) (h' : list treenode) (d : list Z),
  pointwise onlyHash h0 h →
  computeHashes f h t = Ok (h', d) →
  pointwise onlyHash h0 h' ∧
  (∀ q, hashOK h0 h q → hashOK h0 h' q) ∧
  ∃ s, shapeOf f h0 (Some t) = Some s ∧ d = serial s ∧
       ∀ q, reach h0 t q → hashOK h0 h' q.
Proof.
  induction f as [|f IH]; intros h0 h t h' d Hp H; [done|].
  simpl in H.
  apply bind_Ok in H as (nt & Hnt & H).
  apply bind_Ok in H as ([h1 d1] & Hnx & H).
  apply bind_Ok in H as (nt1 & Hnt1 & H).
  apply bind_Ok in H as ([h2 d2] & Hcd & H).
  apply bind_Ok in H as (nt2 & Hnt2 & H). inv_Ok.
  (* the call on [next] *)
  assert (H1 : pointwise onlyHash h0 h1 ∧ (∀ q, hashOK h0 h q → hashOK h0 h1 q) ∧
          ∃ sn, shapeOf f h0 (next nt) = Some sn ∧ d1 = serial sn ∧
            ∀ c q, next nt = Some c → reach h0 c q → hashOK h0 h1 q).
  { destruct (next nt) as [nx|].
    - apply bind_Ok in Hnx as ([hh dd] & Hrec & Hnx). inv_Ok.
      destruct (IH _ _ _ _ _ Hp Hrec) as (? & ? & s & ? & ? & Hr).
      split; [done|]. split; [done|]. exists s.
      split; [done|]. split; [done|]. intros c q [= <-]. apply Hr.
    - inv_Ok. split; [done|]. split; [done|]. exists Nil.
      split; [by destruct f|]. split; [done|]. done. }
  destruct H1 as (Hp1 & Hm1 & sn & Hsn & -> & Hr1).
  (* the call on [children] *)
  assert (H2 : pointwise onlyHash h0 h2 ∧ (∀ q, hashOK h0 h1 q → hashOK h0 h2 q) ∧
          ∃ sc, shapeOf f h0 (children nt1) = Some sc ∧ d2 = serial sn ++ serial sc ∧
            ∀ c q, children nt1 = Some c → reach h0 c q → hashOK h0 h2 q).
  { destruct (children nt1) as [c|].
    - apply bind_Ok in Hcd as ([hh dd] & Hrec & Hcd). inv_Ok.
      destruct (IH _ _ _ _ _ Hp1 Hrec) as (? & ? & s & ? & ? & Hr).
      split; [done|]. split; [done|]. exists s. subst.
      split; [done|]. split; [done|]. intros c' q [= <-]. apply Hr.
    - inv_Ok. split; [done|]. split; [done|]. exists Nil. rewrite app_nil_r.
      split; [by destruct f|]. split; [done|]. done. }
  destruct H2 as (Hp2 & Hm2 & sc & Hsc & -> & Hr2).
  (* the three views of [t] *)
  destruct (h0 !! t) as [n0|] eqn:Ht0.
  2:{ apply (pointwise_None _ _ _ _ Hp) in Ht0. congruence. }
  destruct (proj2 Hp t n0 Ht0) as (x & Hx & Rx).
  destruct (proj2 Hp1 t n0 Ht0) as (x1 & Hx1 & Rx1).
  destruct (proj2 Hp2 t n0 Ht0) as (x2 & Hx2 & Rx2).
  assert (x = nt) as -> by congruence.
  assert (x1 = nt1) as -> by congruence.
  assert (x2 = nt2) as -> by congruence.
  assert (Hnext : next nt = next n0) by (by rewrite Rx).
  assert (Hch : children nt1 = children n0) by (by rewrite Rx1).
  assert (Hval : val nt2 = val n0) by (by rewrite Rx2).
  assert (Hshape : shapeOf (S f) h0 (Some t) = Some (Shape (val n0) sn sc)).
  { rewrite shapeOf_S, Ht0, <- Hnext, <- Hch, Hsn, Hsc. done. }
  assert (Hd : (serial sn ++ serial sc) ++ utf8.EncodeRune (val nt2)
               = serial (Shape (val n0) sn sc)) by (by rewrite Hval).
  rewrite Hd. split; [|split].
  - eapply pointwise_trans; [apply onlyHash_trans|exact Hp2|].
    apply pointwise_alter; [apply onlyHash_refl|]. intros n. by destruct n.
  - intros q Hq. eapply hashOK_alter; [exact Hshape|eauto|]. right. eauto.
  - exists (Shape (val n0) sn sc). split; [done|]. split; [done|].
    intros q Hq. eapply hashOK_alter; [exact Hshape|eauto|].
    inversion Hq as [|? n c ? Hn Hc Hrest|? n c ? Hn Hc Hrest]; subst.
    + by left.
    + right. assert (n = n0) as -> by congruence.
      eapply Hr2; [|exact Hrest]. congruence.
    + right. assert (n = n0) as -> by congruence.
      apply Hm2. eapply Hr1; [|exact Hrest]. congruence.
Qed.

(** X17.  After [computeHashes] has returned, two nodes reachable from its
    argument whose reachable structure and contents (through [children]
    and [next]) are identical have equal hashes. *)
Theorem computeHashes_equal_shape (fuel : nat) (h : heap) (t : ptr) (h' : heap)
    (d : list byte) (p q : ptr) (np nq : treenode) (fp fq : nat) (s : shape) :
  computeHashes fuel h t = Ok (h', d) →
  reach h' t p → reach h' t q →
  h' !! p = Some np → h' !! q = Some nq →
  shapeOf fp h' (Some p) = Some s → shapeOf fq h' (Some q) = Some s →
  hash np = hash nq.
Proof.
  intros H Hrp Hrq Hp Hq Hsp Hsq.
  destruct (computeHashes_spec fuel h h t h' d) as (Hpw & _ & _ & _ & _ & Hr);
    [apply pointwise_refl, onlyHash_refl|done|].
  rewrite (shapeOf_pointwise fp _ _ Hpw) in Hsp.
  rewrite (shapeOf_pointwise fq _ _ Hpw) in Hsq.
  apply (reach_pointwise _ _ _ _ Hpw) in Hrp, Hrq.
  destruct (Hr p Hrp) as (np' & Hp' & f1 & s1 & Hs1 & E1).
  destruct (Hr q Hrq) as (nq' & Hq' & f2 & s2 & Hs2 & E2).
  assert (np' = np) as -> by congruence. assert (nq' = nq) as -> by congruence.
  rewrite E1, E2.
  by rewrite (shapeOf_det _ _ _ _ _ _ Hs1 Hsp), (shapeOf_det _ _ _ _ _ _ Hs2 Hsq).
Qed.

(** ** Ordered stores *)

Lemma ordered_snoc (h : list treenode) (n : treenode) :
  ordered h → children n = None → next n = None → ordered (h ++ [n]).
Proof.
  intros Ho Hc Hn p m Hp. rewrite length_app. simpl.
  apply lookup_app_Some in Hp as [Hp|[Hge Hp]].
  - destruct (Ho p m Hp) as [H1 H2]. split; intros c Hcm.
    + specialize (H1 c Hcm). lia.
    + specialize (H2 c Hcm). lia.
  - destruct (p - length h)%nat; simpl in Hp; [|done]. injection Hp as <-.
    split; intros c Hcm; congruence.
Qed.

Lemma ordered_set_children (h : list treenode) (t c : nat) :
  ordered h → (t < c < length h)%nat →
  ordered (alter (set_children (Some c)) t h).
Proof.
  intros Ho Hc p m Hp. rewrite length_alter.
  destruct (decide (t = p)) as [->|Hne].
  - rewrite list_lookup_alter_eq in Hp.
    destruct (h !! p) as [n|] eqn:Hn; [|done]. simpl in Hp. injection Hp as <-.
    destruct (Ho p n Hn) as [H1 H2]. split; simpl; [|done].
    intros c' [= <-]. done.
  - rewrite list_lookup_alter_ne in Hp by done. by apply Ho.
Qed.

Lemma ordered_set_next (h : list treenode) (t c : nat) :
  ordered h → (t < c < length h)%nat →
  ordered (alter (set_next (Some c)) t h).
Proof.
  intros Ho Hc p m Hp. rewrite length_alter.
  destruct (decide (t = p)) as [->|Hne].
  - rewrite list_lookup_alter_eq in Hp.
    destruct (h !! p) as [n|] eqn:Hn; [|done]. simpl in Hp. injection Hp as <-.
    destruct (Ho p n Hn) as [H1 H2]. split; simpl; [done|].
    intros c' [= <-]. done.
  - rewrite list_lookup_alter_ne in Hp by done. by apply Ho.
Qed.

Lemma descend_ordered (f : nat) (h : list treenode) (idc : Z) (t : nat)
    (fchar : Z) (s : list Z) (h1 : list treenode) (id1 : Z) :
  (∀ h idc t s h1 id1, ordered h → put f h idc t s = Ok (h1, id1) → ordered h1) →
  ordered h → descend (put f) h idc t fchar s = Ok (h1, id1) → ordered h1.
Proof.
  intros IH Ho H. apply descend_Ok in H as (nt & Hnt & H).
  assert (Ht : (t < length h)%nat) by (by eapply lookup_lt_Some).
  destruct H as [(Hc & h2 & Hrec & ->)|[(c & child & _ & _ & Hrec)
                |(c & child & h2 & _ & Hscan & Hrec & ->)]].
  - pose proof (IH _ _ _ _ _ _
        (ordered_snoc h (firstNode idc fchar t) Ho eq_refl eq_refl) Hrec) as Ho2.
    apply put_grows in Hrec as [Hl _]. rewrite length_app in Hl. simpl in Hl.
    apply ordered_set_children; [done|lia].
  - by eapply IH.
  - pose proof (IH _ _ _ _ _ _
        (ordered_snoc h (siblingNode idc fchar) Ho eq_refl eq_refl) Hrec) as Ho2.
    apply put_grows in Hrec as [Hl _]. rewrite length_app in Hl. simpl in Hl.
    apply scan_Last_inv in Hscan as (nc & Hch & _).
    apply lookup_lt_Some in Hch.
    apply ordered_set_next; [done|lia].
Qed.

Lemma put_ordered (f : nat) :
  ∀ h idc t s h1 id1, ordered h → put f h idc t s = Ok (h1, id1) → ordered h1.
Proof.
  induction f as [|f IH]; intros h idc t s h1 id1 Ho H; [done|].
  rewrite put_S in H. destruct s as [|b s]; [by inv_Ok|].
  destruct (utf8.DecodeRuneInString (b :: s)) as [fchar size].
  by eapply descend_ordered.
Qed.

Lemma Put_ordered (h : list treenode) (idc : Z) (t : nat) (s : list Z)
    (h1 : list treenode) (id1 : Z) :
  ordered h → Put h idc t s = Ok (h1, id1) → ordered h1.
Proof.
  intros Ho H.
  destruct (h !! t) as [nt|] eqn:Ht;
    [|unfold Put, load in H; by rewrite Ht in H].
  rewrite (Put_unfold _ _ _ _ _ Ht) in H.
  eapply descend_ordered; [apply put_ordered|done|exact H].
Qed.

Lemma PutAll_spec (ws : list (list Z)) :
  ∀ h idc t h1 id1, ordered h → PutAll h idc t ws = Ok (h1, id1) →
  ordered h1 ∧ grows h h1.
Proof.
  induction ws as [|w ws IH]; intros h idc t h1 id1 Ho H; simpl in H.
  - inv_Ok. split; [done|apply grows_refl].
  - apply bind_Ok in H as ([h2 id2] & HP & H).
    pose proof (Put_ordered _ _ _ _ _ _ Ho HP) as Ho2.
    pose proof (Put_grows_store _ _ _ _ _ _ HP) as Hg.
    destruct (IH _ _ _ _ _ Ho2 H) as [? Hg2].
    split; [done|]. by eapply grows_trans.
Qed.

Lemma build_spec (ws : list (list Z)) (h : list treenode) (root : nat) :
  build ws = Ok (h, root) →
  root = 0%nat ∧ ordered h ∧ ∃ n0, h !! 0%nat = Some n0 ∧ val n0 = 8709.
Proof.
  unfold build. simpl. intros H.
  apply bind_Ok in H as ([h1 id1] & HP & H). inv_Ok.
  apply PutAll_spec in HP as [Ho Hg].
  - split; [done|]. split; [done|].
    destruct (proj2 Hg 0%nat _ eq_refl) as (n' & Hn' & _ & Hv & _).
    exists n'. done.
  - intros p n Hp. destruct p; simpl in Hp; [|done]. injection Hp as <-.
    split; intros c Hc; done.
Qed.

Lemma ordered_onlyLevel (h h' : list treenode) :
  pointwise onlyLevel h h' → ordered h → ordered h'.
Proof.
  intros [L Hp] Ho p n' Hn'. rewrite L.
  destruct (h !! p) as [n|] eqn:Hn.
  - destruct (Hp p n Hn) as (n2 & Hn2 & HR). assert (n2 = n') as -> by congruence.
    rewrite HR. simpl. by apply Ho.
  - apply lookup_ge_None in Hn. apply lookup_lt_Some in Hn'. lia.
Qed.

Lemma forChain_ind {S} (hp : S → list treenode) (body : S → nat → outcome S)
    (I : S → option nat → Prop) :
  (∀ s c s' nc, I s (Some c) → body s c = Ok s' → hp s' !! c = Some nc →
                I s' (next nc)) →
  ∀ n st child st', I st child → forChain hp body n st child = Ok st' → I st' None.
Proof.
  intros Hbody. induction n as [|n IH]; intros st child st' Hst H;
    destruct child as [c|]; simpl in H; inv_Ok; try done.
  apply bind_Ok in H as (s1 & Hb & H). apply bind_Ok in H as (nc & Hl & H).
  inv_Ok. eapply IH; [|exact H]. by eapply Hbody.
Qed.

Lemma computeLevels_frame (f : nat) :
  ∀ h t lvl h', ordered h → computeLevels f h t lvl = Ok h' →
  (∀ p, (p < t)%nat → h' !! p = h !! p) ∧ level <$> h' !! t = Some lvl.
Proof.
  induction f as [|f IH]; intros h t lvl h' Ho H; [done|]. simpl in H.
  apply bind_Ok in H as (nt0 & Hnt0 & H). apply bind_Ok in H as (nt & Hnt & H).
  inv_Ok. set (h1 := alter (set_level lvl) t h) in *.
  assert (Ho1 : ordered h1).
  { eapply ordered_onlyLevel; [|exact Ho].
    apply pointwise_alter; [apply onlyLevel_refl|]. intros n. by destruct n. }
  assert (HI : ordered h' ∧ (∀ p, (p ≤ t)%nat → h' !! p = h1 !! p) ∧
               ∀ c, @None nat = Some c → (t < c)%nat).
  { refine (forChain_ind (λ st, st) _
              (λ s child, ordered s ∧ (∀ p, (p ≤ t)%nat → s !! p = h1 !! p) ∧
                          ∀ c, child = Some c → (t < c)%nat) _ _ _ _ _ _ H).
    - intros s c s' nc (Hos & Hsame & Hc) Hb Hnc.
      destruct (IH _ _ _ _ Hos Hb) as [Hfr _].
      assert (Hos' : ordered s').
      { eapply ordered_onlyLevel; [|exact Hos]. by eapply computeLevels_onlyLevel. }
      specialize (Hc c eq_refl). split; [done|]. split.
      + intros p Hp. rewrite Hfr by lia. by apply Hsame.
      + intros c' Hc'. destruct (Hos' c nc Hnc) as [_ Hn]. specialize (Hn c' Hc'). lia.
    - split; [done|]. split; [done|]. intros c Hc.
      destruct (Ho1 t nt Hnt) as [Hch _]. specialize (Hch c Hc). lia. }
  destruct HI as (_ & Hsame & _). split.
  - intros p Hp. rewrite Hsame by lia. unfold h1.
    rewrite list_lookup_alter_ne by lia. done.
  - rewrite Hsame by lia. unfold h1. rewrite list_lookup_alter_eq, Hnt0. done.
Qed.

Lemma processFirsts_relinked (firsts : list nat) :
  ∀ h others merges hF oF mF,
  processFirsts h others merges firsts = Ok (hF, oF, mF) → relinked h hF.
Proof.
  induction firsts as [|first rest IH]; intros h others merges hF oF mF H;
    simpl in H.
  - inv_Ok. apply relinked_refl.
  - apply bind_Ok in H as ([h' spent] & Hs & H).
    apply scanOthers_spec in Hs as [Hr _].
    destruct spent; (eapply relinked_trans; [exact Hr|by eapply IH]).
Qed.

Lemma processLevel_relinked (h : list treenode) (lvl : list nat)
    (h' : list treenode) (ms : list (nat * nat)) :
  processLevel h lvl = Ok (h', ms) → relinked h h'.
Proof.
  unfold processLevel. intros H.
  apply bind_Ok in H as ([firsts others] & _ & H).
  apply bind_Ok in H as ([[hF oF] mF] & HP & H). inv_Ok.
  by eapply processFirsts_relinked.
Qed.

Lemma OptimiseLevels_relinked ro (fuel n : nat) :
  ∀ h t ms h' ms', OptimiseLevels ro fuel n h t ms = Ok (h', ms') → relinked h h'.
Proof.
  induction n as [|j IH]; intros h t ms h' ms' H; simpl in H.
  - inv_Ok. apply relinked_refl.
  - apply bind_Ok in H as (nodes & _ & H).
    apply bind_Ok in H as ([h1 ms1] & HP & H).
    eapply relinked_trans; [by eapply processLevel_relinked|by eapply IH].
Qed.

(** After [Optimise] on an ordered store the node it was called on has
    level 0 and the [val] it had. *)
Lemma Optimise_root ro (fuel : nat) (h : list treenode) (t : nat)
    (h' : list treenode) (ms : list (nat * nat)) (nt : treenode) :
  ordered h → h !! t = Some nt → Optimise ro fuel h t = Ok (h', ms) →
  ∃ nt', h' !! t = Some nt' ∧ val nt' = val nt ∧ level nt' = 0.
Proof.
  intros Ho Ht H. unfold Optimise in H.
  apply bind_Ok in H as (h1 & HL & H). apply bind_Ok in H as (h2 & HH & H).
  apply bind_Ok in H as ([h3 d] & HS & H). apply bind_Ok in H as (n3 & Hn3 & H).
  pose proof (computeLevels_onlyLevel _ _ _ _ _ HL) as P1.
  destruct (computeLevels_frame _ _ _ _ _ Ho HL) as [_ Hlvl].
  pose proof (computeHeights_onlyHeight _ _ _ _ HH) as P2.
  destruct (computeHashes_spec _ h2 h2 _ _ _
              (pointwise_refl _ _ onlyHash_refl) HS) as (P3 & _).
  apply OptimiseLevels_relinked in H as [_ P4].
  destruct (proj2 P1 t nt Ht) as (n1 & Hn1 & R1).
  destruct (proj2 P2 t n1 Hn1) as (n2 & Hn2 & R2).
  destruct (proj2 P3 t n2 Hn2) as (n3' & Hn3' & R3).
  destruct (P4 t n3' Hn3') as (n4 & Hn4 & _ & Hv & _ & _ & _ & Hl & _).
  exists n4. split; [done|]. rewrite Hn1 in Hlvl. simpl in Hlvl.
  rewrite Hv, Hl, R3, R2. simpl. rewrite R1. simpl. split; [done|]. congruence.
Qed.

(** ** Flattener *)

Lemma samevals_refl a : samevals a a.
Proof. split; [done|]. intros i el Hi. eauto. Qed.

Lemma samevals_trans a b c : samevals a b → samevals b c → samevals a c.
Proof.
  intros [L1 H1] [L2 H2]. split; [congruence|]. intros i el Hi.
  destruct (H1 i el Hi) as (el' & Hi' & ? & ?).
  destruct (H2 i el' Hi') as (el'' & Hi'' & ? & ?).
  exists el''. repeat split; congruence.
Qed.

Lemma patchParent_samevals arr up parent arr' :
  patchParent arr up parent = Ok arr' → samevals arr arr'.
Proof.
  unfold patchParent. intros H.
  destruct ((0 <=? default 0 (up !! parent)) &&
            (default 0 (up !! parent) <? Z.of_nat (length arr))); [|done].
  inv_Ok. split; [by rewrite length_alter|]. intros i el Hi.
  destruct (decide (Z.to_nat (default 0 (up !! parent)) = i)) as [<-|Hne].
  - rewrite list_lookup_alter_eq, Hi. simpl. eauto.
  - rewrite list_lookup_alter_ne by done. eauto.
Qed.

Lemma patchLoop_samevals (an : gset nat) (up : gmap nat Z) (ps : list nat) :
  ∀ arr arr',
  forRange
    (λ arr parent,
       if decide (parent ∈ an) then patchParent arr up parent else Ok arr)
    arr ps = Ok arr' →
  samevals arr arr'.
Proof.
  intros arr arr' H.
  refine (forRange_inv _ (λ a, samevals arr a) _ _ _ _ (samevals_refl arr) H).
  intros s x s' Hs Hb. destruct (decide (x ∈ an)).
  - eapply samevals_trans; [exact Hs|by eapply patchParent_samevals].
  - by inv_Ok.
Qed.

Lemma flatMono_refl st : flatMono st st.
Proof. by intros p i. Qed.

Lemma flatMono_trans a b c : flatMono a b → flatMono b c → flatMono a c.
Proof. intros H1 H2 p i Hp. by apply H2, H1. Qed.

Lemma flatInv_alloc (h : list treenode) (st : flatstate) (t : nat)
    (nt : treenode) (array' : list arraynode.t) :
  flatInv h st → h !! t = Some nt → t ∉ allocatedNodes st →
  samevals (output st ++ [arraynode.mk (val nt) 0 (bool_decide (next nt = None))])
           array' →
  let up := <[t := Z.of_nat (length (output st ++
                [arraynode.mk (val nt) 0 (bool_decide (next nt = None))])) - 1]>
              (unfilledParents st) in
  let st' := mkFlat array' up ({[t]} ∪ allocatedNodes st) in
  flatInv h st' ∧ flatMono st st'.
Proof.
  intros (Ha & Hb & Hc & Hd & He) Ht Hnot [Hlen Hvals] up st'.
  rewrite length_app in Hlen. simpl in Hlen.
  assert (Hidx : Z.of_nat (length (output st ++
            [arraynode.mk (val nt) 0 (bool_decide (next nt = None))])) - 1
          = Z.of_nat (length (output st))).
  { rewrite length_app. simpl. lia. }
  subst up st'. rewrite Hidx.
  assert (Hnone : unfilledParents st !! t = None).
  { destruct (unfilledParents st !! t) eqn:E; [|done].
    exfalso. apply Hnot, Ha. eauto. }
  split; [|intros p i Hp; simpl; rewrite lookup_insert_ne; [done|congruence]].
  unfold flatInv. simpl. split; [|split; [|split; [|split]]].
  - intros p. destruct (decide (t = p)) as [<-|Hne].
    + rewrite lookup_insert_eq. split; [eauto|]. intros _.
      apply elem_of_union. left. by apply elem_of_singleton.
    + rewrite lookup_insert_ne by done. rewrite <- Ha.
      rewrite elem_of_union, elem_of_singleton. split; [|by right].
      intros [?|?]; [congruence|done].
  - intros p i Hp. destruct (decide (t = p)) as [<-|Hne].
    + rewrite lookup_insert_eq in Hp. injection Hp as <-.
      split; [lia|]. rewrite Nat2Z.id.
      destruct (Hvals (length (output st))
                  (arraynode.mk (val nt) 0 (bool_decide (next nt = None))))
        as (el' & Hel' & Hv & Heol).
      { rewrite lookup_app_r, Nat.sub_diag by lia. done. }
      exists nt, el'. done.
    + rewrite lookup_insert_ne in Hp by done.
      destruct (Hb p i Hp) as (Hi & nd & el & Hn & Hel & Hv & Heol).
      split; [lia|].
      destruct (Hvals (Z.to_nat i) el) as (el' & Hel' & Hv' & Heol').
      { by apply lookup_app_l_Some. }
      exists nd, el'. repeat split; congruence.
  - intros p q i Hp Hq.
    destruct (decide (t = p)) as [<-|?], (decide (t = q)) as [<-|?]; try done.
    + rewrite lookup_insert_eq in Hp. rewrite lookup_insert_ne in Hq by done.
      injection Hp as <-. apply Hb in Hq. lia.
    + rewrite lookup_insert_eq in Hq. rewrite lookup_insert_ne in Hp by done.
      injection Hq as <-. apply Hb in Hp. lia.
    + rewrite lookup_insert_ne in Hp, Hq by done. by eapply Hc.
  - intros j Hj. rewrite Hlen in Hj.
    destruct (decide (j = length (output st))) as [->|Hne].
    + exists t. by rewrite lookup_insert_eq.
    + destruct (Hd j) as (p & Hp); [lia|]. exists p.
      rewrite lookup_insert_ne; [done|congruence].
  - rewrite size_union.
    + rewrite size_singleton, He, Hlen. lia.
    + intros x Hx1 Hx2. apply elem_of_singleton in Hx1. congruence.
Qed.

Lemma addNodesOfLevelX_inv (f : nat) :
  ∀ h t st lvl st', addNodesOfLevelX f h t st lvl = Ok st' →
  flatInv h st → flatInv h st' ∧ flatMono st st'.
Proof.
  induction f as [|f IH]; intros h t st lvl st' H Hinv; [done|]. simpl in H.
  apply bind_Ok in H as (nt & Hnt & H). inv_Ok.
  destruct (level nt =? lvl).
  - destruct (decide (t ∈ allocatedNodes st)) as [|Hnot].
    + inv_Ok. split; [done|apply flatMono_refl].
    + apply bind_Ok in H as (array' & Hpatch & H). inv_Ok.
      apply patchLoop_samevals in Hpatch. by apply flatInv_alloc.
  - destruct (children nt) as [c|]; [|inv_Ok; split; [done|apply flatMono_refl]].
    apply bind_Ok in H as (nc & Hnc & H).
    destruct (firstchild nc); [|inv_Ok; split; [done|apply flatMono_refl]].
    refine (forChain_inv _ _ (λ s, flatInv h s ∧ flatMono st s) _ _ _ _ _ _ H).
    + intros s ch s' [Hs Hm] Hb. destruct (IH _ _ _ _ _ Hb Hs) as [? ?].
      split; [done|]. by eapply flatMono_trans.
    + split; [done|apply flatMono_refl].
Qed.

Lemma FlattenLoop_inv (n : nat) :
  ∀ fuel h t i st cur st', FlattenLoop n fuel h t i st cur = Ok st' →
  flatInv h st → flatInv h st' ∧ flatMono st st'.
Proof.
  induction n as [|n IH]; intros fuel h t i st cur st' H Hinv; [done|].
  simpl in H. apply bind_Ok in H as (st1 & Hadd & H).
  destruct (addNodesOfLevelX_inv _ _ _ _ _ _ Hadd Hinv) as [Hinv1 Hm1].
  destruct (length (output st1) =? cur)%nat.
  - by inv_Ok.
  - destruct (IH _ _ _ _ _ _ _ H Hinv1) as [? ?].
    split; [done|]. by eapply flatMono_trans.
Qed.

Lemma flatInv_empty (h : list treenode) : flatInv h (mkFlat [] ∅ ∅).
Proof.
  unfold flatInv. simpl. split; [|split; [|split; [|split]]].
  - intros p. rewrite lookup_empty. split.
    + intros Hp. by apply not_elem_of_empty in Hp.
    + by intros [x Hx].
  - intros p i Hp. by rewrite lookup_empty in Hp.
  - intros p q i Hp. by rewrite lookup_empty in Hp.
  - intros j Hj. lia.
  - reflexivity.
Qed.

Lemma first_pass_root (f : nat) (h : list treenode) (t : nat) (nt : treenode)
    (st : flatstate) :
  h !! t = Some nt → level nt = 0 →
  addNodesOfLevelX f h t (mkFlat [] ∅ ∅) 0 = Ok st →
  unfilledParents st !! t = Some 0.
Proof.
  intros Ht Hl H. destruct f as [|f]; [done|]. simpl in H.
  unfold load in H. rewrite Ht in H. simpl in H. rewrite Hl in H. simpl in H.
  destruct (decide (t ∈ (∅ : gset nat))) as [Hin|_];
    [by apply not_elem_of_empty in Hin|].
  apply bind_Ok in H as (array' & _ & H). inv_Ok. simpl.
  by rewrite lookup_insert_eq.
Qed.

(** C4, as the code has it.  For every vocabulary, after [Optimise], the
    array that [Flatten] produces has the record of the sentinel root in
    slot 0, and its value field is 8709, the rune U+2205 that [NewDAWG]
    gives the root. *)
Theorem root_record_value (ws : list gostring) ro (fuel n fuel' : nat)
    (h : heap) (root : ptr) (h' : heap) (ms : list (ptr * ptr))
    (o : outarray) (file : list byte) :
  build ws = Ok (h, root) →
  Optimise ro fuel h root = Ok (h', ms) →
  Flatten n fuel' h' root = Ok (o, file) →
  ∃ el, o !! 0%nat = Some el ∧ arraynode.val el = 8709.
Proof.
  intros Hb Ho Hf.
  apply build_spec in Hb as (-> & Hord & n0 & Hn0 & Hv).
  destruct (Optimise_root _ _ _ _ _ _ _ Hord Hn0 Ho) as (nt & Hnt & Hv' & Hl).
  unfold Flatten in Hf. apply bind_Ok in Hf as (st & Hloop & Hf). inv_Ok.
  destruct n as [|n]; [done|]. simpl in Hloop.
  apply bind_Ok in Hloop as (st1 & Hadd & Hloop).
  pose proof (first_pass_root _ _ _ _ _ Hnt Hl Hadd) as Hup.
  destruct (addNodesOfLevelX_inv _ _ _ _ _ _ Hadd (flatInv_empty h')) as [Hinv1 _].
  assert (Hfin : flatInv h' st ∧ flatMono st1 st).
  { destruct (length (output st1) =? 0)%nat.
    - inv_Ok. split; [done|apply flatMono_refl].
    - by eapply FlattenLoop_inv. }
  destruct Hfin as [(_ & Hslot & _) Hmono].
  destruct (Hslot 0%nat 0 (Hmono _ _ Hup)) as (_ & nd & el & Hnd & Hel & Hval & _).
  exists el. split; [done|]. congruence.
Qed.

(** ** Optimise and the order of [range] over a map *)

Lemma ascOrder_Permutation (j : Z) (m : gset nat) : ascOrder j m ≡ₚ elements m.
Proof. apply merge_sort_Permutation. Qed.

Lemma descOrder_Permutation (j : Z) (m : gset nat) : descOrder j m ≡ₚ elements m.
Proof.
  unfold descOrder. rewrite reverse_Permutation. apply merge_sort_Permutation.
Qed.

Lemma partitionLevel_closed (h : list treenode) (lvl : list nat) :
  ∀ a b,
  forRange
    (λ st el,
       n ←' load h el;
       if firstchild n then Ok (st.1 ++ [el], st.2) else Ok (st.1, st.2 ++ [el]))
    (a, b) lvl
  = if forallb (valid h) lvl
    then Ok (a ++ filter (λ p, isFirst h p = true) lvl,
             b ++ filter (λ p, isFirst h p ≠ true) lvl)
    else Stuck.
Proof.
  induction lvl as [|x lvl IH]; intros a b; simpl.
  - by rewrite !filter_nil, !app_nil_r.
  - unfold load, valid at 1. destruct (h !! x) as [n|] eqn:Hx; simpl.
    + assert (Hf : isFirst h x = firstchild n) by (unfold isFirst; by rewrite Hx).
      destruct (firstchild n); simpl; rewrite IH;
        destruct (forallb (valid h) lvl); try done.
      * rewrite filter_cons_True, filter_cons_False by congruence.
        by rewrite <- !app_assoc.
      * rewrite filter_cons_False, filter_cons_True by congruence.
        by rewrite <- !app_assoc.
    + done.
Qed.

Lemma forallb_Permutation {A} (f : A → bool) (l1 l2 : list A) :
  l1 ≡ₚ l2 → forallb f l1 = forallb f l2.
Proof.
  induction 1 as [|x l l' _ IH|x y l|l l' l'' _ IH1 _ IH2]; simpl.
  - done.
  - by rewrite IH.
  - by destruct (f x), (f y).
  - congruence.
Qed.

Lemma processLevel_same_order (h : list treenode) (l1 l2 : list nat) :
  filter (λ p, isFirst h p = true) l1 = filter (λ p, isFirst h p = true) l2 →
  filter (λ p, isFirst h p ≠ true) l1 = filter (λ p, isFirst h p ≠ true) l2 →
  processLevel h l1 = processLevel h l2.
Proof.
  intros HF HN. unfold processLevel, partitionLevel.
  rewrite !partitionLevel_closed, HF, HN.
  assert (HP : l1 ≡ₚ l2).
  { rewrite <- (filter_app_complement (λ p, isFirst h p = true) l1).
    rewrite <- (filter_app_complement (λ p, isFirst h p = true) l2).
    by rewrite HF, HN. }
  by rewrite (forallb_Permutation _ _ _ HP).
Qed.

Lemma pointwise_isFirst (R : treenode → treenode → Prop) (h h' : list treenode) :
  (∀ n n', R n n' → firstchild n' = firstchild n) →
  pointwise R h h' → ∀ p, isFirst h' p = isFirst h p.
Proof.
  intros HR Hp p. unfold isFirst. destruct (h !! p) as [n|] eqn:Hn.
  - destruct (proj2 Hp p n Hn) as (n' & -> & Hnn). by apply HR.
  - by rewrite (pointwise_None _ _ _ _ Hp Hn).
Qed.

Lemma OptimiseLevels_same_order ro1 ro2 (fuel : nat) (h0 : list treenode) (n : nat) :
  (∀ j m,
     filter (λ p, isFirst h0 p = true) (ro1 j m)
       = filter (λ p, isFirst h0 p = true) (ro2 j m) ∧
     filter (λ p, isFirst h0 p ≠ true) (ro1 j m)
       = filter (λ p, isFirst h0 p ≠ true) (ro2 j m)) →
  ∀ h t ms, (∀ p, isFirst h p = isFirst h0 p) →
  OptimiseLevels ro1 fuel n h t ms = OptimiseLevels ro2 fuel n h t ms.
Proof.
  intros Hro. induction n as [|j IH]; intros h t ms Hfirst; simpl; [done|].
  destruct (collectNodesOfHeightX fuel h t ∅ (Z.of_nat j)) as [nodes| |];
    simpl; try done.
  rewrite (processLevel_same_order h (ro1 (Z.of_nat j) nodes)
             (ro2 (Z.of_nat j) nodes)).
  - destruct (processLevel h (ro2 (Z.of_nat j) nodes)) as [[h1 ms1]| |] eqn:HP;
      simpl; try done.
    apply IH. intros p. rewrite <- Hfirst.
    apply relinked_isFirst. by eapply processLevel_relinked.
  - rewrite !(list_filter_iff (λ p, isFirst h p = true)
                (λ p, isFirst h0 p = true)) by (intros x; by rewrite Hfirst).
    apply Hro.
  - rewrite !(list_filter_iff (λ p, isFirst h p ≠ true)
                (λ p, isFirst h0 p ≠ true)) by (intros x; by rewrite Hfirst).
    apply Hro.
Qed.

(** C5, as the code has it.  [Optimise] is determined by the store and by
    the order in which the [range] over the collected map yields the
    nodes: two runs on the same store return the same store and make the
    same calls of [redirect], in the same order, whenever at every height
    the two enumerations list the first children in the same relative
    order and the other nodes in the same relative order. *)
Theorem Optimise_same_relative_order ro1 ro2 (fuel : nat) (h : heap) (t : ptr) :
  (∀ j m,
     filter (λ p, isFirst h p = true) (ro1 j m)
       = filter (λ p, isFirst h p = true) (ro2 j m) ∧
     filter (λ p, isFirst h p ≠ true) (ro1 j m)
       = filter (λ p, isFirst h p ≠ true) (ro2 j m)) →
  Optimise ro1 fuel h t = Optimise ro2 fuel h t.
Proof.
  intros Hro. unfold Optimise.
  destruct (computeLevels fuel h t 0) as [h1| |] eqn:HL; simpl; try done.
  destruct (computeHeights fuel h1 t) as [h2| |] eqn:HH; simpl; try done.
  destruct (computeHashes fuel h2 t) as [[h3 d]| |] eqn:HS; simpl; try done.
  destruct (load h3 t) as [nt| |]; simpl; try done.
  apply (OptimiseLevels_same_order ro1 ro2 fuel h); [done|]. intros p.
  pose proof (computeLevels_onlyLevel _ _ _ _ _ HL) as P1.
  pose proof (computeHeights_onlyHeight _ _ _ _ HH) as P2.
  destruct (computeHashes_spec _ h2 h2 _ _ _
              (pointwise_refl _ _ onlyHash_refl) HS) as (P3 & _).
  rewrite (pointwise_isFirst onlyHash h2 h3); [|by intros ? ? ->|done].
  rewrite (pointwise_isFirst onlyHeight h1 h2); [|by intros ? ? ->|done].
  rewrite (pointwise_isFirst onlyLevel h h1); [|by intros ? ? ->|done].
  done.
Qed.

Lemma filter_filter_same {A} (P : A → Prop) `{∀ x, Decision (P x)} (l : list A) :
  filter P (filter P l) = filter P l.
Proof.
  induction l as [|x l IH]; [done|]. rewrite filter_cons.
  destruct (decide (P x)); [|done]. rewrite filter_cons_True by done. by rewrite IH.
Qed.

Lemma filter_filter_none {A} (P Q : A → Prop) `{∀ x, Decision (P x)}
    `{∀ x, Decision (Q x)} (l : list A) :
  (∀ x, P x → Q x → False) → filter P (filter Q l) = [].
Proof.
  intros HPQ. induction l as [|x l IH]; [done|]. rewrite filter_cons.
  destruct (decide (Q x)); [|done]. rewrite filter_cons_False; [done|]. eauto.
Qed.

Lemma firstsFirst_same (h : list treenode) ro (j : Z) (m : gset nat) :
  filter (λ p, isFirst h p = true) (ro j m)
    = filter (λ p, isFirst h p = true) (firstsFirst h ro j m) ∧
  filter (λ p, isFirst h p ≠ true) (ro j m)
    = filter (λ p, isFirst h p ≠ true) (firstsFirst h ro j m).
Proof.
  unfold firstsFirst. rewrite !filter_app, !filter_filter_same.
  rewrite (filter_filter_none (λ p, isFirst h p = true)) by (intros x; tauto).
  rewrite (filter_filter_none (λ p, isFirst h p ≠ true)) by (intros x; tauto).
  by rewrite app_nil_r.
Qed.

(** ** Concrete runs *)

Ltac solve_reach :=
  solve [ apply reach_refl
        | eapply reach_children; [reflexivity|reflexivity|solve_reach]
        | eapply reach_next; [reflexivity|reflexivity|solve_reach] ].

(** ** Paths of concrete stores *)

(** Going through a sibling chain, and through the paths, of a concrete
    store. *)
Ltac chain_cases Hon :=
  let Hc := fresh "Hc" in
  let Hn := fresh "Hn" in
  let Hon' := fresh "Hon" in
  inversion Hon as [|? ? ? ? Hc Hn Hon']; subst; clear Hon;
  [|vm_compute in Hc; injection Hc as <-; vm_compute in Hn;
    first [discriminate Hn | injection Hn as <-; chain_cases Hon']].

Ltac no_path H :=
  let nt := fresh "nt" in
  let c := fresh "c" in
  let x := fresh "x" in
  let nx := fresh "nx" in
  let Ht := fresh "Ht" in
  let Hc := fresh "Hc" in
  let Hon := fresh "Hon" in
  let Hx := fresh "Hx" in
  let Hv := fresh "Hv" in
  cbn [represents] in H;
  destruct H as (nt & c & x & nx & Ht & Hc & Hon & Hx & Hv & H);
  vm_compute in Ht; injection Ht as <-;
  vm_compute in Hc;
  first [discriminate Hc
        | injection Hc as <-; chain_cases Hon;
          vm_compute in Hx; injection Hx as <-; vm_compute in Hv;
          first [discriminate Hv | clear Hv; no_path H]].

Ltac step_path c x :=
  cbn [represents];
  eexists _, c, x, _;
  split; [reflexivity|]; split; [reflexivity|]; split;
    [repeat first [apply onChain_here
                  |eapply onChain_next; [reflexivity|reflexivity|]]|];
  split; [reflexivity|]; split; [reflexivity|].

(** C2 fails on the code: in the trie of xap, xaq, yz, yap, yq the node [a]
    below [x] (children p, q; no sibling) and the node [a] below [y]
    (child p; sibling q) accumulate the same bytes, so their hashes are
    equal although their shapes differ.  [Optimise] then merges the first
    into the second, under either order of the map: the graph no longer
    spells xaq and spells xq, which the trie did not. *)
Lemma computeHashes_collision :
  ∃ h root h1 h2 h3 d n2 n7,
    build vocabulary_shapes = Ok (h, root) ∧
    computeLevels 20 h root 0 = Ok h1 ∧
    computeHeights 20 h1 root = Ok h2 ∧
    computeHashes 20 h2 root = Ok (h3, d) ∧
    reach h3 root 2%nat ∧ reach h3 root 7%nat ∧
    h3 !! 2%nat = Some n2 ∧ h3 !! 7%nat = Some n7 ∧
    hash n2 = hash n7 ∧
    shapeOf 20 h3 (Some 2%nat)
      = Some (Shape 97 Nil (Shape 112 (Shape 113 Nil Nil) Nil)) ∧
    shapeOf 20 h3 (Some 7%nat)
      = Some (Shape 97 (Shape 113 Nil Nil) (Shape 112 Nil Nil)) ∧
    represents h root [120; 97; 113] ∧ ¬ represents h root [120; 113] ∧
    ∀ ro, ro = ascOrder ∨ ro = descOrder →
      ∃ h4 ms,
        Optimise ro 20 h root = Ok (h4, ms) ∧ ms = [(2, 7)]%nat ∧
        childOf h4 1 = Some 7%nat ∧
        ¬ represents h4 root [120; 97; 113] ∧ represents h4 root [120; 113].
Proof.
  do 8 eexists.
  split; [vm_compute; reflexivity|].
  split; [vm_compute; reflexivity|].
  split; [vm_compute; reflexivity|].
  split; [vm_compute; reflexivity|].
  split; [solve_reach|]. split; [solve_reach|].
  split; [reflexivity|]. split; [reflexivity|].
  split; [reflexivity|].
  split; [vm_compute; reflexivity|]. split; [vm_compute; reflexivity|].
  split; [|split].
  - step_path 1%nat 1%nat. step_path 2%nat 2%nat. step_path 3%nat 4%nat. exact I.
  - intros H. no_path H.
  - intros ro [-> | ->];
      (do 2 eexists; split; [vm_compute; reflexivity|]; split; [reflexivity|];
       split; [reflexivity|]; split;
       [intros H; no_path H
       |step_path 1%nat 1%nat; step_path 7%nat 9%nat; exact I]).
Qed.

(** C4 fails on the code: the record of the root holds 8709, not 0. *)
Lemma root_record_value_nonzero :
  ∃ h root h' ms o file el,
    build vocabulary_cat = Ok (h, root) ∧
    Optimise ascOrder 20 h root = Ok (h', ms) ∧
    Flatten 20 20 h' root = Ok (o, file) ∧
    o !! 0%nat = Some el ∧ arraynode.val el = 8709 ∧ arraynode.val el ≠ 0.
Proof.
  do 7 eexists.
  split; [vm_compute; reflexivity|].
  split; [vm_compute; reflexivity|].
  split; [vm_compute; reflexivity|].
  split; [reflexivity|]. split; [reflexivity|]. simpl. lia.
Qed.

(** C5 fails on the code: on the trie of ab, ac, db, dc, xc two orders of
    the [range] over the collected map give different redirections: the
    [children] pointer of [x] (node 7) ends at node 3 with one order and at
    node 6 with the other. *)
Lemma Optimise_depends_on_range_order :
  ∃ h root h1 ms1 h2 ms2,
    build vocabulary_order = Ok (h, root) ∧
    Optimise ascOrder 20 h root = Ok (h1, ms1) ∧
    Optimise descOrder 20 h root = Ok (h2, ms2) ∧
    (children <$> h1 !! 7%nat) = Some (Some 3%nat) ∧
    (children <$> h2 !! 7%nat) = Some (Some 6%nat) ∧
    ms1 ≠ ms2 ∧ h1 ≠ h2.
Proof.
  do 6 eexists.
  split; [vm_compute; reflexivity|].
  split; [vm_compute; reflexivity|].
  split; [vm_compute; reflexivity|].
  split; [reflexivity|]. split; [reflexivity|].
  split; discriminate.
Qed.

(** C6 fails on the code: in the graph of qf, qk, rg, rf, rk, pk (the keys
    of the map yielded in ascending order) the node 3, the [k] that is the
    child of [p], is reachable from the root and gets no slot; the record
    of [p] keeps 0 in its [children] field, so the array has lost the word
    pk that the graph spells. *)
Lemma Flatten_skips_reachable_node :
  ∃ h root h' ms st,
    build vocabulary_slots = Ok (h, root) ∧
    Optimise ascOrder 20 h root = Ok (h', ms) ∧
    FlattenLoop 20 20 h' root 0 (mkFlat [] ∅ ∅) 0 = Ok st ∧
    reach h' root 3%nat ∧
    (3%nat ∉ allocatedNodes st) ∧
    (unfilledParents st !! 3%nat) = None ∧
    length (output st) = 7%nat ∧
    represents h' root [112; 107] ∧
    childOf h' 8 = Some 3%nat ∧
    unfilledParents st !! 8%nat = Some 3 ∧
    output st !! 3%nat = Some (arraynode.mk 112 0 true).
Proof.
  do 5 eexists.
  split; [vm_compute; reflexivity|].
  split; [vm_compute; reflexivity|].
  split; [vm_compute; reflexivity|].
  split; [solve_reach|].
  split; [refine (proj1 (bool_decide_eq_false _) _); vm_compute; reflexivity|].
  split; [vm_compute; reflexivity|]. split; [vm_compute; reflexivity|].
  split; [step_path 1%nat 8%nat; step_path 3%nat 3%nat; exact I|].
  split; [reflexivity|]. split; vm_compute; reflexivity.
Qed.

Lemma computeHashes_equal_shape_witness :
  ∃ h' d n2 n5,
    computeHashes 20 trie_order 0 = Ok (h', d) ∧
    reach h' 0 2 ∧ reach h' 0 5 ∧
    h' !! 2%nat = Some n2 ∧ h' !! 5%nat = Some n5 ∧
    shapeOf 5 h' (Some 2%nat) = Some (Shape 98 (Shape 99 Nil Nil) Nil) ∧
    shapeOf 5 h' (Some 5%nat) = Some (Shape 98 (Shape 99 Nil Nil) Nil) ∧
    hash n2 = hash n5.
Proof.
  eexists _, _, _, _.
  split; [vm_compute; reflexivity|].
  split; [solve_reach|]. split; [solve_reach|].
  split; [reflexivity|]. split; [reflexivity|].
  split; [vm_compute; reflexivity|]. split; [vm_compute; reflexivity|].
  eapply (computeHashes_equal_shape 20 trie_order 0 _ _ 2 5 _ _ 5 5);
    [vm_compute; reflexivity|solve_reach|solve_reach|reflexivity|reflexivity
    |vm_compute; reflexivity|vm_compute; reflexivity].
Defined.

Lemma root_record_value_witness :
  ∃ h root h' ms o file,
    build vocabulary_cat = Ok (h, root) ∧
    Optimise ascOrder 20 h root = Ok (h', ms) ∧
    Flatten 20 20 h' root = Ok (o, file) ∧
    ∃ el, o !! 0%nat = Some el ∧ arraynode.val el = 8709.
Proof.
  eexists _, _, _, _, _, _.
  split; [vm_compute; reflexivity|].
  split; [vm_compute; reflexivity|].
  split; [vm_compute; reflexivity|].
  eapply (root_record_value vocabulary_cat ascOrder 20 20 20);
    [vm_compute; reflexivity|vm_compute; reflexivity|vm_compute; reflexivity].
Defined.

Lemma Optimise_same_relative_order_witness :
  Optimise ascOrder 20 trie_order 0
  = Optimise (firstsFirst trie_order ascOrder) 20 trie_order 0.
Proof.
  apply (Optimise_same_relative_order ascOrder (firstsFirst trie_order ascOrder)
           20 trie_order 0).
  intros j m. apply firstsFirst_same.
Defined.

Lemma Put_idempotent_witness :
  ∃ h1 id1,
    Put trie_cat 9 0 (bytes "cow"%string) = Ok (h1, id1) ∧
    ∃ nt, trie_cat !! 0%nat = Some nt ∧
      Put h1 id1 0 (bytes "cow"%string)
        = Ok (h1, if id nt =? 0 then wrap64 (id1 + 1) else id1).
Proof.
  eexists _, _. split; [vm_compute; reflexivity|].
  apply (Put_idempotent trie_cat 9 0 (bytes "cow"%string)).
  vm_compute; reflexivity.
Defined.

Lemma redirect_spec_witness :
  ∃ nt,
    trie_cat !! 5%nat = Some nt ∧
    (redirect trie_cat 5 3 = Panic ↔ parents nt = []) ∧
    ∃ h', redirect trie_cat 5 3 = Ok h' ∧ length h' = length trie_cat ∧
      (children <$> h' !! 4%nat) = Some (Some 3%nat).
Proof.
  eexists. split; [reflexivity|].
  assert (Hother : (3 < length trie_cat)%nat) by (vm_compute; lia).
  assert (Hps : Forall (λ p, (p < length trie_cat)%nat) [4%nat]).
  { constructor; [vm_compute; lia|constructor]. }
  destruct (redirect_spec trie_cat 5 3 _ eq_refl Hother Hps) as [Hiff Hok].
  split; [exact Hiff|].
  destruct (Hok ltac:(discriminate)) as (h' & Hr & Hl & Hch & _).
  exists h'. split; [exact Hr|]. split; [exact Hl|].
  apply Hch. left.
Defined.

Lemma Put_grows_witness :
  ∃ h1 id1,
    Put trie_cat 9 0 (bytes "cow"%string) = Ok (h1, id1) ∧
    grows trie_cat h1 ∧
    ∀ (r : ptr) (w : list rune), represents trie_cat r w → represents h1 r w.
Proof.
  eexists _, _. split; [vm_compute; reflexivity|].
  eapply (Put_grows trie_cat 9 0 (bytes "cow"%string)).
  vm_compute; reflexivity.
Defined.

(** ** More on the trie builder *)

Lemma DecodeRuneInString_size (s : list Z) :
  s ≠ [] → (1 ≤ (utf8.DecodeRuneInString s).2)%nat.
Proof.
  intros Hs. unfold utf8.DecodeRuneInString.
  destruct s as [|s0 t0]; [done|].
  repeat (case_match; simpl; try lia).
Qed.

Lemma runesFuel_enough (f1 : nat) :
  ∀ f2 s, (length s ≤ f1)%nat → (length s ≤ f2)%nat →
  runesFuel f1 s = runesFuel f2 s.
Proof.
  induction f1 as [|f1 IH]; intros f2 s H1 H2.
  - destruct s; [|simpl in H1; lia]. by destruct f2.
  - destruct s as [|b s]; [by destruct f2|].
    destruct f2 as [|f2]; [simpl in H2; lia|]. simpl.
    pose proof (DecodeRuneInString_size (b :: s) ltac:(done)) as Hsz.
    destruct (utf8.DecodeRuneInString (b :: s)) as [r size]. simpl in Hsz.
    f_equal. apply IH; rewrite length_drop; simpl in *; lia.
Qed.

Lemma scan_Found_onChain (n : nat) (h : list treenode) (c x : nat) (f : Z) :
  scan n h c f = Ok (Found x) →
  onChain h c x ∧ ∃ nx, h !! x = Some nx ∧ val nx = f.
Proof.
  revert c. induction n as [|n IH]; intros c H; [done|].
  rewrite scan_S in H. apply bind_Ok in H as (nc & Hc & H). inv_Ok.
  destruct (next nc) as [nx|] eqn:En; destruct (Z.eqb_spec (val nc) f);
    inv_Ok; try discriminate.
  - split; [constructor|eauto].
  - destruct (IH _ H) as [Hch Hx]. split; [|done]. by eapply onChain_next.
  - split; [constructor|eauto].
Qed.

Lemma follows_represents (f : nat) :
  ∀ h t s, follows f h t s → represents h t (runesFuel f s).
Proof.
  induction f as [|f IH]; intros h t s H; [done|]. simpl in *.
  destruct s as [|b s]; [done|].
  destruct (utf8.DecodeRuneInString (b :: s)) as [fchar size].
  destruct H as (nt & c & child & Ht & Hc & Hscan & Hrec).
  apply scan_Found_onChain in Hscan as (Hch & nx & Hx & Hv).
  exists nt, c, child, nx. repeat split; try done. by apply IH.
Qed.

(** X1.  After [Put] has returned, the runes of the inserted word are
    spelled by a path below the node: each rune is the value of a node on
    the sibling chain of the previous node's children.  For the empty
    string the path is the single rune U+FFFD. *)
Theorem Put_represents (h : heap) (idc : Z) (t : ptr) (w : gostring)
    (h1 : heap) (id1 : Z) :
  Put h idc t w = Ok (h1, id1) →
  represents h1 t (match w with [] => [utf8.RuneError] | _ => runes w end).
Proof.
  intros H.
  destruct (h !! t) as [nt|] eqn:Ht;
    [|unfold Put, load in H; by rewrite Ht in H].
  rewrite (Put_unfold _ _ _ _ _ Ht) in H.
  apply (descend_follows _ _ _ _ _ _ _ _ (put_follows _)) in H.
  destruct H as (nt' & c & child & Ht' & Hc & Hscan & Hrec).
  apply scan_Found_onChain in Hscan as (Hch & nx & Hx & Hv).
  apply follows_represents in Hrec.
  destruct w as [|b w].
  - exists nt', c, child, nx. repeat split; try done.
  - unfold runes. simpl length. cbn [runesFuel].
    pose proof (DecodeRuneInString_size (b :: w) ltac:(done)) as Hsz.
    destruct (utf8.DecodeRuneInString (b :: w)) as [r size].
    simpl in Hsz, Hrec, Hv. destruct size as [|size]; [lia|].
    change (drop (S size) (b :: w)) with (drop size w) in *.
    exists nt', c, child, nx. repeat split; try done.
    rewrite (runesFuel_enough (length w) (S (S (length w))));
      [done|rewrite length_drop; lia..].
Qed.

Lemma scan_total (h : list treenode) (f : Z) :
  ordered h →
  ∀ n c, (length h ≤ n + c)%nat → (c < length h)%nat →
  ∃ r, scan n h c f = Ok r.
Proof.
  intros Ho. induction n as [|n IH]; intros c Hn Hc; [lia|].
  rewrite scan_S. destruct (lookup_lt_is_Some_2 h c Hc) as [nc Hnc].
  unfold load. rewrite Hnc. simpl.
  destruct (next nc) as [nx|] eqn:En; destruct (val nc =? f); eauto.
  destruct (Ho c nc Hnc) as [_ Hnx]. specialize (Hnx nx En).
  apply IH; lia.
Qed.

Lemma descend_unfold rec (h : list treenode) (idc : Z) (t : nat) (fchar : Z)
    (s : list Z) (nt : treenode) :
  h !! t = Some nt →
  descend rec h idc t fchar s =
    match children nt with
    | None =>
      bind (rec (h ++ [firstNode idc fchar t]) (wrap64 (idc + 1)) (length h) s)
        (λ r, Ok (alter (set_children (Some (length h))) t r.1, r.2))
    | Some c =>
      bind (scan (length h) h c fchar)
        (λ r, match r with
              | Found child => rec h idc child s
              | Last child =>
                bind (rec (h ++ [siblingNode idc fchar]) (wrap64 (idc + 1))
                          (length h) s)
                  (λ r, Ok (alter (set_next (Some (length h))) child r.1, r.2))
              end)
    end.
Proof.
  intros Ht. unfold descend, load. rewrite Ht. simpl.
  destruct (children nt) as [c|].
  - destruct (scan (length h) h c fchar) as [[child|child]| |]; simpl; try done.
    by destruct (rec _ _ _ _) as [[? ?]| |].
  - by destruct (rec _ _ _ _) as [[? ?]| |].
Qed.

Lemma descend_total (f : nat) (h : list treenode) (idc : Z) (t : nat)
    (fchar : Z) (s : list Z) :
  (∀ h idc t, ordered h → (t < length h)%nat →
     ∃ h1 id1, put f h idc t s = Ok (h1, id1)) →
  ordered h → (t < length h)%nat →
  ∃ h1 id1, descend (put f) h idc t fchar s = Ok (h1, id1).
Proof.
  intros IH Ho Ht. destruct (lookup_lt_is_Some_2 h t Ht) as [nt Hnt].
  rewrite (descend_unfold _ _ _ _ _ _ _ Hnt).
  destruct (children nt) as [c|] eqn:Ec.
  - destruct (Ho t nt Hnt) as [Hc _]. specialize (Hc c Ec).
    destruct (scan_total h fchar Ho (length h) c) as [r Hr]; [lia..|].
    rewrite Hr. cbn [bind]. destruct r as [child|child].
    + apply scan_Found_inv in Hr as (nx & Hx & _).
      apply IH; [done|by eapply lookup_lt_Some].
    + destruct (IH (h ++ [siblingNode idc fchar]) (wrap64 (idc + 1)) (length h))
        as (h2 & id2 & H2).
      { by apply ordered_snoc. } { rewrite length_app. simpl. lia. }
      rewrite H2. cbn [bind]. eauto.
  - destruct (IH (h ++ [firstNode idc fchar t]) (wrap64 (idc + 1)) (length h))
      as (h2 & id2 & H2).
    { by apply ordered_snoc. } { rewrite length_app. simpl. lia. }
    rewrite H2. cbn [bind]. eauto.
Qed.

Lemma put_total (f : nat) :
  ∀ h idc t s, ordered h → (t < length h)%nat → (length s < f)%nat →
  ∃ h1 id1, put f h idc t s = Ok (h1, id1).
Proof.
  induction f as [|f IH]; intros h idc t s Ho Ht Hf; [lia|].
  rewrite put_S. destruct s as [|b s]; [eauto|].
  pose proof (DecodeRuneInString_size (b :: s) ltac:(done)) as Hsz.
  destruct (utf8.DecodeRuneInString (b :: s)) as [fchar size]. simpl in Hsz.
  apply descend_total; [|done..].
  intros h' idc' t' Ho' Ht'. apply IH; [done..|].
  rewrite length_drop. simpl in *. lia.
Qed.

Lemma Put_total (h : list treenode) (idc : Z) (t : nat) (s : list Z) :
  ordered h → (t < length h)%nat → ∃ h1 id1, Put h idc t s = Ok (h1, id1).
Proof.
  intros Ho Ht. destruct (lookup_lt_is_Some_2 h t Ht) as [nt Hnt].
  rewrite (Put_unfold _ _ _ _ _ Hnt).
  apply descend_total; [|done..].
  intros h' idc' t' Ho' Ht'. apply put_total; [done..|].
  rewrite length_drop. lia.
Qed.

Lemma PutAll_total (ws : list (list Z)) :
  ∀ h idc t, ordered h → (t < length h)%nat →
  ∃ h1 id1, PutAll h idc t ws = Ok (h1, id1).
Proof.
  induction ws as [|w ws IH]; intros h idc t Ho Ht; simpl; [eauto|].
  destruct (Put_total h idc t w Ho Ht) as (h1 & id1 & HP). rewrite HP. simpl.
  apply IH; [by eapply Put_ordered|].
  apply Put_grows_store in HP as [Hl _]. lia.
Qed.

(** X2.  Building the trie of a vocabulary always returns: [NewDAWG]
    followed by any sequence of [Put] neither panics nor runs forever, the
    root is node 0, and in the resulting store every [children] and [next]
    pointer leads to a node allocated later than its source, so the store
    is acyclic. *)
Theorem build_total (ws : list gostring) :
  ∃ h, build ws = Ok (h, 0%nat) ∧ ordered h.
Proof.
  assert (Ho : ordered (NewDAWG []).1).
  { intros p n Hp. destruct p; simpl in Hp; [|done]. injection Hp as <-.
    split; intros c Hc; done. }
  destruct (PutAll_total ws (NewDAWG []).1 0 0%nat Ho) as (h1 & id1 & HP).
  { simpl. lia. }
  exists h1. unfold build. simpl in *. rewrite HP. simpl. split; [done|].
  by apply PutAll_spec in HP as [? _].
Qed.

Lemma advance_S (k : nat) (idc : Z) :
  advance (S k) idc = advance k (wrap64 (idc + 1)).
Proof. unfold advance. by rewrite Nat.iter_succ_r. Qed.

Lemma descend_ids (f : nat) (h : list treenode) (idc : Z) (t : nat)
    (fchar : Z) (s : list Z) (h1 : list treenode) (id1 : Z) :
  (∀ h idc t s h1 id1, put f h idc t s = Ok (h1, id1) →
     ∃ k, length h1 = (length h + k)%nat ∧ id1 = advance k idc ∧
       ∀ i n, h1 !! (length h + i)%nat = Some n → id n = advance i idc) →
  descend (put f) h idc t fchar s = Ok (h1, id1) →
  ∃ k, length h1 = (length h + k)%nat ∧ id1 = advance k idc ∧
    ∀ i n, h1 !! (length h + i)%nat = Some n → id n = advance i idc.
Proof.
  intros IH H. apply descend_Ok in H as (nt & Hnt & H).
  assert (Ht : (t < length h)%nat) by (by eapply lookup_lt_Some).
  assert (Hstep : ∀ (nd : treenode) (g : treenode → treenode) (p : nat) h2,
    children nd = None → id nd = idc → (∀ x, id (g x) = id x) →
    put f (h ++ [nd]) (wrap64 (idc + 1)) (length h) s = Ok (h2, id1) →
    ∃ k, length (alter g p h2) = (length h + k)%nat ∧ id1 = advance k idc ∧
      ∀ i n, alter g p h2 !! (length h + i)%nat = Some n → id n = advance i idc).
  { intros nd g p h2 Hnd Hid Hg Hrec.
    destruct (IH _ _ _ _ _ _ Hrec) as (k & Hl & Hi & Hn).
    pose proof (put_fresh _ _ _ _ _ _ _ Hnd Hrec) as (c & ext & Hh2).
    rewrite length_app in Hl. simpl in Hl.
    exists (S k). split; [rewrite length_alter; lia|].
    split; [by rewrite advance_S|].
    intros i n Hin.
    assert (∃ n0, h2 !! (length h + i)%nat = Some n0 ∧ id n = id n0) as (n0 & Hn0 & ->).
    { rewrite list_lookup_alter in Hin. case_decide; [subst p|eauto].
      destruct (h2 !! (length h + i)%nat) as [n0|]; [|done].
      simpl in Hin. injection Hin as <-. eauto. }
    destruct i as [|i].
    - rewrite Hh2, Nat.add_0_r, lookup_app_r, Nat.sub_diag in Hn0 by lia.
      simpl in Hn0. injection Hn0 as <-. done.
    - rewrite advance_S. apply (Hn i).
      rewrite length_app. simpl. rewrite <- Hn0. f_equal. lia. }
  destruct H as [(Hc & h2 & Hrec & ->)|[(c & child & _ & _ & Hrec)
                |(c & child & h2 & _ & _ & Hrec & ->)]].
  - by apply (Hstep (firstNode idc fchar t)).
  - by eapply IH.
  - by apply (Hstep (siblingNode idc fchar)).
Qed.

Lemma put_ids (f : nat) :
  ∀ h idc t s h1 id1, put f h idc t s = Ok (h1, id1) →
  ∃ k, length h1 = (length h + k)%nat ∧ id1 = advance k idc ∧
    ∀ i n, h1 !! (length h + i)%nat = Some n → id n = advance i idc.
Proof.
  induction f as [|f IH]; intros h idc t s h1 id1 H; [done|].
  rewrite put_S in H. destruct s as [|b s].
  { inv_Ok. exists 0%nat. split; [lia|]. split; [done|].
    intros i n Hn. apply lookup_lt_Some in Hn. lia. }
  destruct (utf8.DecodeRuneInString (b :: s)) as [fchar size].
  by eapply descend_ids.
Qed.

Lemma advance_no_wrap (k : nat) (idc : Z) :
  - 2 ^ 63 ≤ idc → idc + Z.of_nat k < 2 ^ 63 → advance k idc = idc + Z.of_nat k.
Proof.
  revert idc. induction k as [|k IH]; intros idc Hlo Hhi.
  - unfold advance. simpl. lia.
  - rewrite advance_S.
    assert (Hw : wrap64 (idc + 1) = idc + 1).
    { unfold wrap64. rewrite Z.mod_small; lia. }
    rewrite Hw, IH; lia.
Qed.

(** X3.  [Put] numbers the nodes it creates in creation order: when the
    counter does not overflow and the node is not the one with id 0, the
    i-th node allocated by the call gets id [idc + i], and the counter ends
    at [idc] plus the number of nodes created. *)
Theorem Put_ids (h : heap) (idc : Z) (t : ptr) (s : gostring) (nt : treenode)
    (h1 : heap) (id1 : Z) :
  Put h idc t s = Ok (h1, id1) →
  h !! t = Some nt → id nt ≠ 0 →
  - 2 ^ 63 ≤ idc → idc + Z.of_nat (length h1 - length h) < 2 ^ 63 →
  id1 = idc + Z.of_nat (length h1 - length h) ∧
  ∀ i n, h1 !! (length h + i)%nat = Some n → id n = idc + Z.of_nat i.
Proof.
  intros H Ht Hid Hlo Hhi. rewrite (Put_unfold _ _ _ _ _ Ht) in H.
  rewrite (proj2 (Z.eqb_neq _ _) Hid) in H.
  destruct (descend_ids _ _ _ _ _ _ _ _ (put_ids _) H) as (k & Hl & -> & Hn).
  replace (length h1 - length h)%nat with k in * by lia.
  split; [by apply advance_no_wrap|].
  intros i n Hin. rewrite (Hn i n Hin).
  apply lookup_lt_Some in Hin. apply advance_no_wrap; lia.
Qed.

Lemma Put_represents_witness :
  ∃ h1 id1,
    Put trie_cat 9 0 (bytes "cow"%string) = Ok (h1, id1) ∧
    represents h1 0 [99; 111; 119].
Proof.
  eexists _, _. split; [vm_compute; reflexivity|].
  refine (Put_represents trie_cat 9 0 (bytes "cow"%string) _ 11 _).
  vm_compute; reflexivity.
Defined.

Lemma Put_ids_witness :
  ∃ h1 id1 nt,
    Put trie_cat 9 0 (bytes "cow"%string) = Ok (h1, id1) ∧
    trie_cat !! 0%nat = Some nt ∧ id nt ≠ 0 ∧
    id1 = 9 + Z.of_nat (length h1 - length trie_cat) ∧
    ∀ i n, h1 !! (length trie_cat + i)%nat = Some n → id n = 9 + Z.of_nat i.
Proof.
  eexists _, _, _.
  split; [vm_compute; reflexivity|]. split; [reflexivity|].
  split; [simpl; lia|].
  eapply (Put_ids trie_cat 9 0 (bytes "cow"%string));
    [vm_compute; reflexivity|reflexivity|simpl; lia|lia|vm_compute; reflexivity].
Defined.

(** ** More on the annotator, the minimiser and the encoder *)

Lemma max_fold (arr : list Z) :
  ∀ m,
  let r := fold_left (λ m value, if m <? value then value else m) arr m in
  m ≤ r ∧ (∀ v, v ∈ arr → v ≤ r) ∧ (r = m ∨ r ∈ arr).
Proof.
  induction arr as [|x arr IH]; intros m; simpl.
  - split; [lia|]. split; [|by left]. intros v Hv. by apply elem_of_nil in Hv.
  - destruct (IH (if m <? x then x else m)) as (H1 & H2 & H3).
    destruct (Z.ltb_spec m x).
    + split; [lia|]. split.
      * intros v [->|Hv]%elem_of_cons; auto.
      * right. destruct H3 as [->|?]; [left|by right].
    + split; [lia|]. split.
      * intros v [->|Hv]%elem_of_cons; [lia|auto].
      * destruct H3 as [->|?]; [by left|right; by right].
Qed.

(** X4.  [max] returns a value that is at least 0 and at least every
    element of the slice, and that is 0 or an element of the slice: for an
    empty slice or one without a positive element it is 0. *)
Theorem max_spec (arr : list Z) :
  0 ≤ max arr ∧ (∀ v, v ∈ arr → v ≤ max arr) ∧ (max arr = 0 ∨ max arr ∈ arr).
Proof. apply (max_fold arr 0). Qed.

(** X5.  [computeHashes] changes no field but [hash]; the bytes it returns
    are the serialisation of the shape below its node (next chain, then
    children chain, then the node's own rune), and the digest it stores in
    the node is the SHA-1 of exactly these bytes. *)
Theorem computeHashes_digest (fuel : nat) (h : heap) (t : ptr) (h' : heap)
    (d : list byte) :
  computeHashes fuel h t = Ok (h', d) →
  length h' = length h ∧
  (∀ p n, h !! p = Some n → ∃ x, h' !! p = Some (set_hash x n)) ∧
  (∃ s, shapeOf fuel h (Some t) = Some s ∧ d = serial s) ∧
  (hash <$> h' !! t) = Some (sha1.Sum d).
Proof.
  intros H.
  destruct (computeHashes_spec fuel h h t h' d) as (Hpw & _ & s & Hs & -> & Hr);
    [apply pointwise_refl, onlyHash_refl|done|].
  split; [apply Hpw|]. split.
  - intros p n Hp. destruct (proj2 Hpw p n Hp) as (n' & Hn' & HR).
    exists (hash n'). by rewrite <- HR.
  - split; [eauto|].
    destruct (Hr t (reach_refl h t)) as (nt & Hnt & f & s' & Hs' & Hh).
    rewrite Hnt. simpl. by rewrite Hh, (shapeOf_det _ _ _ _ _ _ Hs' Hs).
Qed.

(** X6.  [Optimise] creates and deletes no node and leaves the [id], [val],
    [next], [endofword] and [firstchild] fields of every node as they
    were: it only assigns [level], [height] and [hash] and redirects
    [children] pointers and [parents] slices. *)
Theorem Optimise_preserves ro (fuel : nat) (h : heap) (t : ptr) (h' : heap)
    (ms : list (ptr * ptr)) :
  Optimise ro fuel h t = Ok (h', ms) →
  length h' = length h ∧
  ∀ p n, h !! p = Some n →
    ∃ n', h' !! p = Some n' ∧ id n' = id n ∧ val n' = val n ∧
      next n' = next n ∧ endofword n' = endofword n ∧
      firstchild n' = firstchild n.
Proof.
  intros H. unfold Optimise in H.
  apply bind_Ok in H as (h1 & HL & H). apply bind_Ok in H as (h2 & HH & H).
  apply bind_Ok in H as ([h3 d] & HS & H). apply bind_Ok in H as (n3 & Hn3 & H).
  pose proof (computeLevels_onlyLevel _ _ _ _ _ HL) as P1.
  pose proof (computeHeights_onlyHeight _ _ _ _ HH) as P2.
  destruct (computeHashes_spec _ h2 h2 _ _ _
              (pointwise_refl _ _ onlyHash_refl) HS) as (P3 & _).
  apply OptimiseLevels_relinked in H as [L4 P4].
  split; [rewrite L4, (proj1 P3), (proj1 P2); apply P1|].
  intros p n Hp.
  destruct (proj2 P1 p n Hp) as (n1 & Hn1 & R1).
  destruct (proj2 P2 p n1 Hn1) as (n2 & Hn2 & R2).
  destruct (proj2 P3 p n2 Hn2) as (n3' & Hn3' & R3).
  destruct (P4 p n3' Hn3') as (n4 & Hn4 & E1 & E2 & E3 & E4 & _ & _ & _ & E5).
  exists n4. split; [done|].
  rewrite E1, E2, E3, E4, E5, R3, R2. simpl. rewrite R1. done.
Qed.

Lemma reach_trans (h : list treenode) (a b c : nat) :
  reach h a b → reach h b c → reach h a c.
Proof.
  induction 1 as [|p n x q Hn Hc _ IH|p n x q Hn Hc _ IH]; intros Hbc.
  - done.
  - eapply reach_children; eauto.
  - eapply reach_next; eauto.
Qed.

Lemma collectNodesOfHeightX_sound_aux (f : nat) :
  ∀ h t n hgt n', collectNodesOfHeightX f h t n hgt = Ok n' →
  n ⊆ n' ∧
  ∀ q, q ∈ n' → q ∈ n ∨ (reach h t q ∧ (height <$> h !! q) = Some hgt).
Proof.
  induction f as [|f IH]; intros h t n hgt n' H; [done|]. simpl in H.
  apply bind_Ok in H as (nt & Hnt & H). inv_Ok.
  destruct (Z.eqb_spec (height nt) hgt) as [Heq|Hne].
  - injection H as <-. split; [apply union_subseteq_r|].
    intros q [->%elem_of_singleton|Hq]%elem_of_union; [right|by left].
    split; [constructor|]. by rewrite Hnt, <- Heq.
  - destruct (hgt <? height nt); [|injection H as <-; split; [done|by left]].
    assert (HI : (n ⊆ n' ∧
              ∀ q, q ∈ n' → q ∈ n ∨ (reach h t q ∧ (height <$> h !! q) = Some hgt)) ∧
              ∀ c, @None nat = Some c → reach h t c).
    { refine (forChain_ind (λ _, h) _
        (λ s child, (n ⊆ s ∧ ∀ q, q ∈ s →
                       q ∈ n ∨ (reach h t q ∧ (height <$> h !! q) = Some hgt)) ∧
                    ∀ c, child = Some c → reach h t c) _ _ _ _ _ _ H).
      - intros s c s' nc [[Hsub Hs] Hc] Hb Hnc. specialize (Hc c eq_refl).
        destruct (IH _ _ _ _ _ Hb) as [Hsub' Hs']. split; [split|].
        + by etrans.
        + intros q Hq. destruct (Hs' q Hq) as [Hq'|[Hr Hh]]; [by apply Hs|].
          right. split; [by eapply reach_trans|done].
        + intros c' Hc'. eapply reach_trans; [exact Hc|].
          eapply reach_next; [exact Hnc|exact Hc'|constructor].
      - split; [split; [done|by left]|].
        intros c Hc. eapply reach_children; [exact Hnt|exact Hc|constructor]. }
    apply HI.
Qed.

(** X7.  [collectNodesOfHeightX] only adds to the map, and every node it
    adds is reachable from the node it was called on and has exactly the
    requested height. *)
Theorem collectNodesOfHeightX_sound (fuel : nat) (h : heap) (t : ptr)
    (n : gset ptr) (hgt : Z) (n' : gset ptr) :
  collectNodesOfHeightX fuel h t n hgt = Ok n' →
  n ⊆ n' ∧
  ∀ q, q ∈ n' → q ∈ n ∨ (reach h t q ∧ (height <$> h !! q) = Some hgt).
Proof. apply collectNodesOfHeightX_sound_aux. Qed.

Lemma readInt32_writeInt32 (x : Z) (rest : list Z) :
  int32 x → readInt32 (take 4 (writeInt32 x ++ rest)) = x.
Proof.
  intros Hx. unfold int32 in Hx. unfold writeInt32, readInt32. simpl.
  assert (Hland : ∀ y, Z.land y 255 = y mod 256).
  { intros y. change 255 with (Z.ones 8). by rewrite Z.land_ones by lia. }
  rewrite !Hland, !Z.shiftr_div_pow2 by lia.
  change (2 ^ 8) with 256. change (2 ^ 16) with 65536.
  change (2 ^ 24) with 16777216.
  pose proof (Z.div_mod x 256 ltac:(lia)) as E0.
  pose proof (Z.div_mod (x / 256) 256 ltac:(lia)) as E1.
  pose proof (Z.div_mod (x / 65536) 256 ltac:(lia)) as E2.
  pose proof (Z.div_mod (x / 16777216) 256 ltac:(lia)) as E3.
  rewrite Z.div_div in E1, E2, E3 by lia.
  change (256 * 256) with 65536 in E1.
  change (65536 * 256) with 16777216 in E2.
  change (16777216 * 256) with 4294967296 in E3.
  pose proof (Z.mod_pos_bound x 256 ltac:(lia)).
  pose proof (Z.mod_pos_bound (x / 256) 256 ltac:(lia)).
  pose proof (Z.mod_pos_bound (x / 65536) 256 ltac:(lia)).
  pose proof (Z.mod_pos_bound (x / 16777216) 256 ltac:(lia)).
  set (b0 := x mod 256) in *. set (b1 := (x / 256) mod 256) in *.
  set (b2 := (x / 65536) mod 256) in *. set (b3 := (x / 16777216) mod 256) in *.
  assert (Hsum : b0 + 256 * b1 + 65536 * b2 + 16777216 * b3
                 = x - 4294967296 * (x / 4294967296)) by lia.
  rewrite Hsum. unfold wrap32.
  change (2 ^ 31) with 2147483648. change (2 ^ 32) with 4294967296.
  replace (x - 4294967296 * (x / 4294967296) + 2147483648)
    with (x + 2147483648 + (- (x / 4294967296)) * 4294967296) by lia.
  rewrite Z.mod_add by lia. rewrite Z.mod_small; lia.
Qed.

Lemma readRecords_concat (o : list arraynode.t) :
  Forall (λ el, int32 (arraynode.val el) ∧ int32 (arraynode.children el)) o →
  readRecords (length o) (concat (map record o)) = o.
Proof.
  induction 1 as [|el o [Hv Hc] _ IH]; [done|].
  cbn [length map concat readRecords]. f_equal.
  - unfold record at 1 2 3. rewrite <- !app_assoc.
    rewrite (readInt32_writeInt32 _ _ Hv).
    replace (drop 4 (writeInt32 (arraynode.val el) ++
              writeInt32 (arraynode.children el) ++
              writeBool (arraynode.eol el) ++ concat (map record o)))
      with (writeInt32 (arraynode.children el) ++
              writeBool (arraynode.eol el) ++ concat (map record o)) by done.
    rewrite (readInt32_writeInt32 _ _ Hc).
    destruct el as [v c e]. simpl. by destruct e.
  - replace (drop 9 (record el ++ concat (map record o)))
      with (concat (map record o)) by done.
    exact IH.
Qed.

(** X8.  The artifact file determines the array: reading the file back
    record by record gives the array that [writeToFile] was called on,
    whenever the [val] and [children] fields are in the range of int32
    (as the Go type [rune] forces). *)
Theorem writeToFile_roundtrip (o : outarray) :
  Forall (λ el, int32 (arraynode.val el) ∧ int32 (arraynode.children el)) o →
  readFromFile (writeToFile o) = o.
Proof.
  intros Ho. unfold readFromFile, writeToFile.
  rewrite writeToFile_fold, app_nil_l.
  assert (Hlen : length (concat (map record o)) = (9 * length o)%nat).
  { clear Ho. induction o as [|x o IH]; [done|]. cbn [map concat length].
    rewrite length_app, IH. change (length (record x)) with 9%nat. lia. }
  rewrite Hlen.
  replace (9 * length o / 9)%nat with (length o).
  - by apply readRecords_concat.
  - rewrite Nat.mul_comm, Nat.div_mul; lia.
Qed.

Lemma computeHashes_digest_witness :
  ∃ h' d,
    computeHashes 20 trie_order 0 = Ok (h', d) ∧
    length h' = length trie_order ∧
    (hash <$> h' !! 0%nat) = Some (sha1.Sum d).
Proof.
  eexists _, _. split; [vm_compute; reflexivity|].
  refine (let H := computeHashes_digest 20 trie_order 0 _ _ _ in
          conj (proj1 H) (proj2 (proj2 (proj2 H)))).
  vm_compute; reflexivity.
Defined.

Lemma Optimise_preserves_witness :
  ∃ h' ms,
    Optimise ascOrder 20 trie_order 0 = Ok (h', ms) ∧
    length h' = length trie_order.
Proof.
  eexists _, _. split; [vm_compute; reflexivity|].
  refine (proj1 (Optimise_preserves ascOrder 20 trie_order 0 _ _ _)).
  vm_compute; reflexivity.
Defined.

Lemma collectNodesOfHeightX_sound_witness :
  ∃ n',
    collectNodesOfHeightX 20 annotated_order 0 ∅ 0 = Ok n' ∧
    ∀ q, q ∈ n' →
      q ∈ (∅ : gset nat) ∨
      (reach annotated_order 0 q ∧ (height <$> annotated_order !! q) = Some 0).
Proof.
  eexists. split; [vm_compute; reflexivity|].
  refine (proj2 (collectNodesOfHeightX_sound 20 annotated_order 0 ∅ 0 _ _)).
  vm_compute; reflexivity.
Defined.

Lemma writeToFile_roundtrip_witness :
  readFromFile
    (writeToFile [arraynode.mk 8709 1 true; arraynode.mk 99 0 false;
                  arraynode.mk (-1) 2 true])
  = [arraynode.mk 8709 1 true; arraynode.mk 99 0 false; arraynode.mk (-1) 2 true].
Proof.
  apply writeToFile_roundtrip.
  repeat constructor; unfold int32; simpl; lia.
Defined.

(** ** More on the flattener *)

Lemma addNodesOfLevelX_no_level (f : nat) :
  ∀ h t st lvl st',
  (∀ p n, h !! p = Some n → level n ≠ lvl) →
  addNodesOfLevelX f h t st lvl = Ok st' → st' = st.
Proof.
  induction f as [|f IH]; intros h t st lvl st' Hl H; [done|]. simpl in H.
  apply bind_Ok in H as (nt & Hnt & H). inv_Ok.
  destruct (Z.eqb_spec (level nt) lvl) as [Heq|_]; [by apply Hl in Hnt|].
  destruct (children nt) as [c|]; [|by inv_Ok].
  apply bind_Ok in H as (nc & Hnc & H).
  destruct (firstchild nc); [|by inv_Ok].
  refine (forChain_inv _ _ (λ s, s = st) _ _ _ _ _ eq_refl H).
  intros s ch s' -> Hb. by eapply IH.
Qed.

Lemma descend_levels (f : nat) (h : list treenode) (idc : Z) (t : nat)
    (fchar : Z) (s : list Z) (h1 : list treenode) (id1 : Z) :
  (∀ h idc t s h1 id1, (∀ p n, h !! p = Some n → level n = -1) →
     put f h idc t s = Ok (h1, id1) → ∀ p n, h1 !! p = Some n → level n = -1) →
  (∀ p n, h !! p = Some n → level n = -1) →
  descend (put f) h idc t fchar s = Ok (h1, id1) →
  ∀ p n, h1 !! p = Some n → level n = -1.
Proof.
  intros IH Hl H. apply descend_Ok in H as (nt & Hnt & H).
  assert (Hsnoc : ∀ nd, level nd = -1 →
            ∀ p n, (h ++ [nd]) !! p = Some n → level n = -1).
  { intros nd Hnd p n [Hp|[_ Hp]]%lookup_app_Some; [by eapply Hl|].
    destruct (p - length h)%nat; simpl in Hp; [|done]. by injection Hp as <-. }
  assert (Halter : ∀ (g : treenode → treenode) (q : nat) (h2 : list treenode),
            (∀ x, level (g x) = level x) →
            (∀ p n, h2 !! p = Some n → level n = -1) →
            ∀ p n, alter g q h2 !! p = Some n → level n = -1).
  { intros g q h2 Hg H2 p n Hp. rewrite list_lookup_alter in Hp.
    case_decide; [subst q|by eapply H2].
    destruct (h2 !! p) as [n0|] eqn:E; [|done]. simpl in Hp. injection Hp as <-.
    rewrite Hg. by eapply H2. }
  destruct H as [(Hc & h2 & Hrec & ->)|[(c & child & _ & _ & Hrec)
                |(c & child & h2 & _ & _ & Hrec & ->)]].
  - apply Halter; [done|]. eapply IH; [|exact Hrec]. by apply Hsnoc.
  - by eapply IH.
  - apply Halter; [done|]. eapply IH; [|exact Hrec]. by apply Hsnoc.
Qed.

Lemma put_levels (f : nat) :
  ∀ h idc t s h1 id1, (∀ p n, h !! p = Some n → level n = -1) →
  put f h idc t s = Ok (h1, id1) → ∀ p n, h1 !! p = Some n → level n = -1.
Proof.
  induction f as [|f IH]; intros h idc t s h1 id1 Hl H; [done|].
  rewrite put_S in H. destruct s as [|b s]; [by inv_Ok|].
  destruct (utf8.DecodeRuneInString (b :: s)) as [fchar size].
  by eapply descend_levels.
Qed.

Lemma PutAll_levels (ws : list (list Z)) :
  ∀ h idc t h1 id1, (∀ p n, h !! p = Some n → level n = -1) →
  PutAll h idc t ws = Ok (h1, id1) → ∀ p n, h1 !! p = Some n → level n = -1.
Proof.
  induction ws as [|w ws IH]; intros h idc t h1 id1 Hl H; simpl in H.
  - by inv_Ok.
  - apply bind_Ok in H as ([h2 id2] & HP & H). eapply IH; [|exact H].
    destruct (h !! t) as [nt|] eqn:Ht;
      [|unfold Put, load in HP; by rewrite Ht in HP].
    rewrite (Put_unfold _ _ _ _ _ Ht) in HP.
    eapply descend_levels; [apply put_levels|done|exact HP].
Qed.

(** X9.  [Flatten] on a trie that was never optimised allocates nothing:
    all levels are still -1, the first pass finds no node of level 0, and
    the array and the file are empty. *)
Theorem Flatten_unoptimised (ws : list gostring) (h : heap) (root : ptr)
    (n fuel : nat) (o : outarray) (file : list byte) :
  build ws = Ok (h, root) →
  Flatten n fuel h root = Ok (o, file) →
  o = [] ∧ file = [].
Proof.
  intros Hb Hf. unfold build in Hb. simpl in Hb.
  apply bind_Ok in Hb as ([h1 id1] & HP & Hb). inv_Ok.
  assert (H0 : ∀ q m, (NewDAWG []).1 !! q = Some m → level m = -1).
  { intros q m Hq. destruct q; simpl in Hq; [|done]. by injection Hq as <-. }
  assert (Hl : ∀ p n, h !! p = Some n → level n ≠ 0).
  { intros p nd Hp.
    assert (level nd = -1); [|lia].
    exact (PutAll_levels _ _ _ _ _ _ H0 HP _ _ Hp). }
  unfold Flatten in Hf. apply bind_Ok in Hf as (st & Hloop & Hf). inv_Ok.
  destruct n as [|n]; [done|]. simpl in Hloop.
  apply bind_Ok in Hloop as (st1 & Hadd & Hloop).
  apply addNodesOfLevelX_no_level in Hadd as ->; [|done].
  simpl in Hloop. by inv_Ok.
Qed.

Lemma passRel_refl h lvl st : passRel h lvl st st.
Proof. split; [done|]. intros p ip Hp. by left. Qed.

Lemma passRel_trans h lvl a b c :
  passRel h lvl a b → passRel h lvl b c → passRel h lvl a c.
Proof.
  intros [L1 H1] [L2 H2]. split; [lia|]. intros p ip Hp.
  destruct (H2 p ip Hp) as [Hb|[? ?]]; [by apply H1|]. right. split; [done|lia].
Qed.

Lemma addNodesOfLevelX_pass (f : nat) :
  ∀ h t st lvl st', addNodesOfLevelX f h t st lvl = Ok st' → passRel h lvl st st'.
Proof.
  induction f as [|f IH]; intros h t st lvl st' H; [done|]. simpl in H.
  apply bind_Ok in H as (nt & Hnt & H). inv_Ok.
  destruct (Z.eqb_spec (level nt) lvl) as [Heq|_].
  - destruct (decide (t ∈ allocatedNodes st)) as [|Hnot].
    + inv_Ok. apply passRel_refl.
    + apply bind_Ok in H as (array' & Hpatch & H). inv_Ok.
      apply patchLoop_samevals in Hpatch as [Hlen _].
      rewrite length_app in Hlen. simpl in Hlen.
      split; simpl; [lia|]. intros p ip Hp.
      destruct (decide (t = p)) as [<-|Hne].
      * rewrite lookup_insert_eq in Hp. injection Hp as <-. right.
        rewrite Hnt. simpl. split; [congruence|].
        rewrite length_app. simpl. lia.
      * rewrite lookup_insert_ne in Hp by done. by left.
  - destruct (children nt) as [c|]; [|inv_Ok; apply passRel_refl].
    apply bind_Ok in H as (nc & Hnc & H).
    destruct (firstchild nc); [|inv_Ok; apply passRel_refl].
    refine (forChain_inv _ _ (λ s, passRel h lvl st s) _ _ _ _ _
              (passRel_refl h lvl st) H).
    intros s ch s' Hs Hb. eapply passRel_trans; [exact Hs|by eapply IH].
Qed.

Lemma FlattenLoop_levels (n : nat) :
  ∀ fuel h t i st cur st',
  FlattenLoop n fuel h t i st cur = Ok st' →
  0 ≤ i → i + Z.of_nat n < 2 ^ 63 →
  flatInv h st →
  (∀ p ip np, unfilledParents st !! p = Some ip → h !! p = Some np → level np < i) →
  (∀ p q ip iq np nq,
     unfilledParents st !! p = Some ip → unfilledParents st !! q = Some iq →
     h !! p = Some np → h !! q = Some nq → level np < level nq → ip < iq) →
  ∀ p q ip iq np nq,
    unfilledParents st' !! p = Some ip → unfilledParents st' !! q = Some iq →
    h !! p = Some np → h !! q = Some nq → level np < level nq → ip < iq.
Proof.
  induction n as [|n IH]; intros fuel h t i st cur st' H Hi Hn Hinv Hlt Hs; [done|].
  simpl in H. apply bind_Ok in H as (st1 & Hadd & H).
  destruct (addNodesOfLevelX_inv _ _ _ _ _ _ Hadd Hinv) as [Hinv1 _].
  destruct (addNodesOfLevelX_pass _ _ _ _ _ _ Hadd) as [_ Hpass].
  assert (Hlt1 : ∀ p ip np, unfilledParents st1 !! p = Some ip →
                   h !! p = Some np → level np < i + 1).
  { intros p ip np Hp Hnp. destruct (Hpass p ip Hp) as [Hold|[Hl _]].
    - specialize (Hlt p ip np Hold Hnp). lia.
    - rewrite Hnp in Hl. simpl in Hl. injection Hl as ->. lia. }
  assert (Hs1 : ∀ p q ip iq np nq,
     unfilledParents st1 !! p = Some ip → unfilledParents st1 !! q = Some iq →
     h !! p = Some np → h !! q = Some nq → level np < level nq → ip < iq).
  { intros p q ip iq np nq Hp Hq Hnp Hnq Hlv.
    destruct (Hpass p ip Hp) as [Hpo|[Hpl Hpi]],
             (Hpass q iq Hq) as [Hqo|[Hql Hqi]].
    - by eapply Hs.
    - destruct Hinv as (_ & Hb & _). apply Hb in Hpo. lia.
    - rewrite Hnp in Hpl. simpl in Hpl. injection Hpl as Hpl.
      specialize (Hlt q iq nq Hqo Hnq). lia.
    - rewrite Hnp in Hpl. rewrite Hnq in Hql. simpl in *.
      injection Hpl as Hpl. injection Hql as Hql. lia. }
  destruct (length (output st1) =? cur)%nat.
  - inv_Ok. exact Hs1.
  - assert (Hw : wrap64 (i + 1) = i + 1).
    { unfold wrap64. rewrite Z.mod_small; lia. }
    rewrite Hw in H.
    eapply (IH _ _ _ _ _ _ _ H); try done; lia.
Qed.

(** X10.  The array is in level order: when the loop of [Flatten] returns
    (after fewer than 2^63 passes), a node of smaller level has a smaller
    slot index than every node of greater level. *)
Theorem Flatten_level_order (n fuel : nat) (h : heap) (t : ptr) (st : flatstate)
    (p q : ptr) (ip iq : Z) (np nq : treenode) :
  FlattenLoop n fuel h t 0 (mkFlat [] ∅ ∅) 0 = Ok st →
  Z.of_nat n < 2 ^ 63 →
  unfilledParents st !! p = Some ip → unfilledParents st !! q = Some iq →
  h !! p = Some np → h !! q = Some nq →
  level np < level nq → ip < iq.
Proof.
  intros H Hn. eapply (FlattenLoop_levels _ _ _ _ _ _ _ _ H);
    [lia|lia|apply flatInv_empty|..].
  - intros x ix nx Hx. simpl in Hx. by rewrite lookup_empty in Hx.
  - intros x y ix iy nx ny Hx. simpl in Hx. by rewrite lookup_empty in Hx.
Qed.

Lemma indexed_samevals_patch (arr : list arraynode.t) (up : gmap nat Z) (parent : nat)
    (arr' : list arraynode.t) :
  indexed arr → patchParent arr up parent = Ok arr' → indexed arr'.
Proof.
  unfold patchParent. intros Hix H.
  destruct ((0 <=? default 0 (up !! parent)) &&
            (default 0 (up !! parent) <? Z.of_nat (length arr))) eqn:E; [|done].
  inv_Ok. intros i el Hi. rewrite length_alter.
  rewrite list_lookup_alter in Hi. case_decide as Hd.
  - destruct (arr !! Z.to_nat (default 0 (up !! parent))) as [el0|] eqn:E0; [|done].
    simpl in Hi. injection Hi as <-. simpl.
    apply lookup_lt_Some in E0.
    exists (length arr - 1)%nat. split; [lia|]. f_equal. lia.
  - by apply (Hix i).
Qed.

Lemma addNodesOfLevelX_indexed (f : nat) :
  ∀ h t st lvl st', addNodesOfLevelX f h t st lvl = Ok st' →
  indexed (output st) → indexed (output st').
Proof.
  induction f as [|f IH]; intros h t st lvl st' H Hix; [done|]. simpl in H.
  apply bind_Ok in H as (nt & Hnt & H). inv_Ok.
  destruct (level nt =? lvl).
  - destruct (decide (t ∈ allocatedNodes st)) as [|Hnot]; [by inv_Ok|].
    apply bind_Ok in H as (array' & Hpatch & H). inv_Ok. simpl.
    refine (forRange_inv _ indexed _ _ _ _ _ Hpatch).
    + intros s x s' Hs Hb. destruct (decide (x ∈ _)); [|by inv_Ok].
      by eapply indexed_samevals_patch.
    + intros i el Hi. rewrite length_app. simpl.
      apply lookup_app_Some in Hi as [Hi|[_ Hi]].
      * destruct (Hix i el Hi) as (k & Hk & Hc). exists k. split; [lia|done].
      * destruct (i - length (output st))%nat; simpl in Hi; [|done].
        injection Hi as <-. exists 0%nat. split; [lia|done].
  - destruct (children nt) as [c|]; [|by inv_Ok].
    apply bind_Ok in H as (nc & Hnc & H).
    destruct (firstchild nc); [|by inv_Ok].
    refine (forChain_inv _ _ (λ s, indexed (output s)) _ _ _ _ _ Hix H).
    intros s ch s' Hs Hb. by eapply IH.
Qed.

Lemma FlattenLoop_indexed (n : nat) :
  ∀ fuel h t i st cur st', FlattenLoop n fuel h t i st cur = Ok st' →
  indexed (output st) → indexed (output st').
Proof.
  induction n as [|n IH]; intros fuel h t i st cur st' H Hix; [done|].
  simpl in H. apply bind_Ok in H as (st1 & Hadd & H).
  apply addNodesOfLevelX_indexed in Hadd; [|done].
  destruct (length (output st1) =? cur)%nat; [by inv_Ok|]. by eapply IH.
Qed.

(** X11.  No record has a dangling child index: when the loop of [Flatten]
    returns with at most 2^31 records, the [children] field of every record
    is the index of a slot of the array (0 when no child was patched in). *)
Theorem Flatten_children_in_range (n fuel : nat) (h : heap) (t : ptr)
    (st : flatstate) (i : nat) (el : arraynode.t) :
  FlattenLoop n fuel h t 0 (mkFlat [] ∅ ∅) 0 = Ok st →
  Z.of_nat (length (output st)) ≤ 2 ^ 31 →
  output st !! i = Some el →
  0 ≤ arraynode.children el < Z.of_nat (length (output st)).
Proof.
  intros H Hlen Hi.
  apply FlattenLoop_indexed in H; [|by intros j x Hj].
  destruct (H i el Hi) as (k & Hk & ->).
  unfold wrap32. rewrite Z.mod_small; lia.
Qed.

(** ** flatteningQueue *)

Lemma populateQueue_inv (f : nat) :
  ∀ h t fq nodes fq' nodes',
  populateQueue f h t (fq, nodes) = Ok (fq', nodes') →
  NoDup fq → (∀ q, q ∈ fq ↔ q ∈ nodes) →
  NoDup fq' ∧ (∀ q, q ∈ fq' ↔ q ∈ nodes') ∧ fq `prefix_of` fq' ∧ t ∈ fq'.
Proof.
  induction f as [|f IH]; intros h t fq nodes fq' nodes' H Hnd Hdom; [done|].
  simpl in H. destruct (decide (t ∈ nodes)) as [Hin|Hnot].
  - inv_Ok. split; [done|]. split; [done|]. split; [done|]. by apply Hdom.
  - apply bind_Ok in H as (nt & Hnt & H).
    assert (HI : (NoDup (fq', nodes').1 ∧ (∀ q, q ∈ (fq', nodes').1 ↔ q ∈ (fq', nodes').2) ∧
                  Push fq t `prefix_of` (fq', nodes').1)).
    { refine (forChain_inv (λ _, h) _
        (λ s, NoDup s.1 ∧ (∀ q, q ∈ s.1 ↔ q ∈ s.2) ∧ Push fq t `prefix_of` s.1)
        _ _ _ _ _ _ H).
      - intros [s1 s2] c [s1' s2'] (Hn & Hd & Hp) Hb. simpl in *.
        destruct (IH _ _ _ _ _ _ Hb Hn Hd) as (? & ? & ? & _).
        split; [done|]. split; [done|]. by etrans.
      - simpl. unfold Push. split; [|split; [|done]].
        + apply NoDup_app. split; [done|]. split; [|apply NoDup_singleton].
          intros x Hx ->%list_elem_of_singleton. by apply Hnot, Hdom.
        + intros q. rewrite elem_of_app, list_elem_of_singleton, elem_of_union,
            elem_of_singleton, Hdom. tauto. }
    simpl in HI. destruct HI as (Hn' & Hd' & Hp').
    split; [done|]. split; [done|]. unfold Push in Hp'. split.
    + etrans; [|exact Hp']. by apply prefix_app_r.
    + destruct Hp' as [k ->]. rewrite !elem_of_app, list_elem_of_singleton. auto.
Qed.

(** X12.  [populateQueue] pushes a node only when it is not yet in the map
    of seen nodes: started on a queue without duplicates that holds
    exactly the seen nodes, it returns such a queue again, it only appends
    to the queue, and the node it was called on is in the queue
    afterwards. *)
Theorem populateQueue_no_duplicates (fuel : nat) (h : heap) (t : ptr)
    (fq : flatteningQueue) (nodes : gset ptr)
    (fq' : flatteningQueue) (nodes' : gset ptr) :
  populateQueue fuel h t (fq, nodes) = Ok (fq', nodes') →
  NoDup fq → (∀ q, q ∈ fq ↔ q ∈ nodes) →
  NoDup fq' ∧ (∀ q, q ∈ fq' ↔ q ∈ nodes') ∧ fq `prefix_of` fq' ∧ t ∈ fq'.
Proof. apply populateQueue_inv. Qed.

Lemma Flatten_unoptimised_witness :
  ∃ h root o file,
    build vocabulary_cat = Ok (h, root) ∧
    Flatten 20 20 h root = Ok (o, file) ∧ o = [] ∧ file = [].
Proof.
  eexists _, _, _, _.
  split; [vm_compute; reflexivity|]. split; [vm_compute; reflexivity|].
  eapply (Flatten_unoptimised vocabulary_cat _ _ 20 20);
    [vm_compute; reflexivity|vm_compute; reflexivity].
Defined.

Lemma Flatten_level_order_witness :
  ∃ st ip iq np nq,
    FlattenLoop 20 20 graph_slots 0 0 (mkFlat [] ∅ ∅) 0 = Ok st ∧
    Z.of_nat 20 < 2 ^ 63 ∧
    unfilledParents st !! 1%nat = Some ip ∧
    unfilledParents st !! 5%nat = Some iq ∧
    graph_slots !! 1%nat = Some np ∧ graph_slots !! 5%nat = Some nq ∧
    level np < level nq ∧ ip < iq.
Proof.
  eexists _, _, _, _, _.
  split; [vm_compute; reflexivity|]. split; [lia|].
  split; [vm_compute; reflexivity|]. split; [vm_compute; reflexivity|].
  split; [reflexivity|]. split; [reflexivity|]. split; [simpl; lia|].
  eapply (Flatten_level_order 20 20 graph_slots 0 _ 1 5);
    [vm_compute; reflexivity|lia|vm_compute; reflexivity|vm_compute; reflexivity
    |reflexivity|reflexivity|simpl; lia].
Defined.

Lemma Flatten_children_in_range_witness :
  ∃ st el,
    FlattenLoop 20 20 graph_slots 0 0 (mkFlat [] ∅ ∅) 0 = Ok st ∧
    Z.of_nat (length (output st)) ≤ 2 ^ 31 ∧
    output st !! 1%nat = Some el ∧
    0 ≤ arraynode.children el < Z.of_nat (length (output st)).
Proof.
  eexists _, _.
  split; [vm_compute; reflexivity|]. split; [simpl; lia|].
  split; [reflexivity|].
  eapply (Flatten_children_in_range 20 20 graph_slots 0 _ 1);
    [vm_compute; reflexivity|simpl; lia|reflexivity].
Defined.

Lemma populateQueue_no_duplicates_witness :
  ∃ fq' nodes',
    populateQueue 20 trie_cat 0 ([], ∅) = Ok (fq', nodes') ∧
    NoDup fq' ∧ (∀ q, q ∈ fq' ↔ q ∈ nodes') ∧ 0%nat ∈ fq'.
Proof.
  eexists _, _. split; [vm_compute; reflexivity|].
  refine (let H := populateQueue_no_duplicates 20 trie_cat 0 [] ∅ _ _ _
                     (NoDup_nil_2) _ in
          conj (proj1 H) (conj (proj1 (proj2 H)) (proj2 (proj2 (proj2 H))))).
  - vm_compute; reflexivity.
  - intros q. split; intros Hq.
    + by apply elem_of_nil in Hq.
    + by apply not_elem_of_empty in Hq.
Defined.

(** ** computeHeights *)

Lemma heightOf_S (f : nat) (h : list treenode) (p : nat) :
  heightOf (S f) h p =
    match h !! p with
    | None => None
    | Some n =>
      match children n with
      | None => Some 0
      | Some c =>
        match heightsOfChain f h (Some c) with
        | Some hs => Some (wrap64 (1 + max hs))
        | None => None
        end
      end
    end.
Proof. reflexivity. Qed.

Lemma heightsOfChain_S (f : nat) (h : list treenode) (x : nat) :
  heightsOfChain (S f) h (Some x) =
    match heightOf f h x, h !! x with
    | Some hx, Some n =>
      match heightsOfChain f h (next n) with
      | Some r => Some (hx :: r)
      | None => None
      end
    | _, _ => None
    end.
Proof. reflexivity. Qed.

Lemma heightOf_mono (f : nat) :
  ∀ h,
  (∀ p v f', heightOf f h p = Some v → (f ≤ f')%nat → heightOf f' h p = Some v) ∧
  (∀ c hs f', heightsOfChain f h c = Some hs → (f ≤ f')%nat →
              heightsOfChain f' h c = Some hs).
Proof.
  induction f as [|f IH]; intros h; split.
  - done.
  - intros c hs f' H _. destruct c; [done|]. by destruct f'.
  - intros p v f' H Hle. destruct f' as [|f']; [lia|].
    rewrite heightOf_S in *. destruct (h !! p) as [n|]; [|done].
    destruct (children n) as [c|]; [|done].
    destruct (heightsOfChain f h (Some c)) as [hs|] eqn:E; [|done].
    by rewrite (proj2 (IH h) _ _ f' E) by lia.
  - intros c hs f' H Hle. destruct c as [x|]; [|by destruct f'].
    destruct f' as [|f']; [lia|]. rewrite heightsOfChain_S in *.
    destruct (heightOf f h x) as [hx|] eqn:E1; [|done].
    destruct (h !! x) as [n|]; [|done].
    destruct (heightsOfChain f h (next n)) as [r|] eqn:E2; [|done].
    rewrite (proj1 (IH h) _ _ f' E1) by lia.
    by rewrite (proj2 (IH h) _ _ f' E2) by lia.
Qed.

Lemma heightOf_det (h : list treenode) (p : nat) (f f' : nat) (v v' : Z) :
  heightOf f h p = Some v → heightOf f' h p = Some v' → v = v'.
Proof.
  intros H H'.
  apply (proj1 (heightOf_mono f h) _ _ (f `max` f')%nat) in H; [|lia].
  apply (proj1 (heightOf_mono f' h) _ _ (f `max` f')%nat) in H'; [|lia].
  congruence.
Qed.

Lemma heightOK_mono_alter (h0 h : list treenode) (t q : nat) (v : Z) (f : nat) :
  heightOf f h0 t = Some v → is_Some (h !! t) →
  (q = t ∨ heightOK h0 h q) →
  heightOK h0 (alter (set_height v) t h) q.
Proof.
  intros Hv [nt Hnt] Hq. destruct (decide (q = t)) as [->|Hne].
  - exists (set_height v nt), f. split; [|done].
    by rewrite list_lookup_alter_eq, Hnt.
  - destruct Hq as [?|(nq & fq & Hnq & Hh)]; [done|]. exists nq, fq.
    split; [|done]. by rewrite list_lookup_alter_ne.
Qed.

(** The loop over the children chain, for a body that meets the
    specification of [computeHeights]. *)
Lemma heights_loop (h0 : list treenode) (f : nat) :
  (∀ h t h', pointwise onlyHeight h0 h → computeHeights f h t = Ok h' →
     pointwise onlyHeight h0 h' ∧
     (∀ q, heightOK h0 h q → heightOK h0 h' q) ∧
     heightOK h0 h' t ∧
     ∀ n0 c q, h0 !! t = Some n0 → children n0 = Some c → reach h0 c q →
               heightOK h0 h' q) →
  ∀ n h hs child h' hs',
  pointwise onlyHeight h0 h →
  forChain fst
    (λ st ch,
       hh ←' computeHeights f st.1 ch;
       nc ←' load hh ch;
       Ok (hh, st.2 ++ [height nc]))
    n (h, hs) child = Ok (h', hs') →
  pointwise onlyHeight h0 h' ∧
  (∀ q, heightOK h0 h q → heightOK h0 h' q) ∧
  (∃ l fv, heightsOfChain fv h0 child = Some l ∧ hs' = hs ++ l) ∧
  ∀ c q, child = Some c → reach h0 c q → heightOK h0 h' q.
Proof.
  intros Hbody. induction n as [|n IH]; intros h hs child h' hs' Hp H;
    destruct child as [c|]; simpl in H; inv_Ok; try done.
  - split; [done|]. split; [done|]. split; [|done].
    exists [], 0%nat. by rewrite app_nil_r.
  - apply bind_Ok in H as ([h1 hs1] & Hb & H).
    apply bind_Ok in Hb as (hh & Hc & Hb). apply bind_Ok in Hb as (nc & Hnc & Hb).
    inv_Ok. apply bind_Ok in H as (nc' & Hnc' & H). inv_Ok. simpl in *.
    assert (nc' = nc) as -> by congruence.
    destruct (Hbody _ _ _ Hp Hc) as (Hp1 & Hm1 & (nq & fq & Hq & Hh) & Hr1).
    assert (nq = nc) as -> by congruence.
    destruct (h0 !! c) as [n0|] eqn:Hc0.
    2:{ apply (pointwise_None _ _ _ _ Hp1) in Hc0. congruence. }
    destruct (proj2 Hp1 c n0 Hc0) as (x & Hx & Rx).
    assert (x = nc) as -> by congruence.
    assert (Hnext : next nc = next n0) by (by rewrite Rx).
    destruct (IH _ _ _ _ _ Hp1 H) as (Hp2 & Hm2 & (l & fv & Hl & ->) & Hr2).
    split; [done|]. split; [by auto|]. split.
    + exists (height nc :: l), (S (fq `max` fv)). split.
      * rewrite heightsOfChain_S, Hc0.
        rewrite (proj1 (heightOf_mono fq h0) _ _ (fq `max` fv)%nat Hh) by lia.
        rewrite <- Hnext.
        by rewrite (proj2 (heightOf_mono fv h0) _ _ (fq `max` fv)%nat Hl) by lia.
      * by rewrite <- app_assoc.
    + intros c' q [= <-] Hreach.
      inversion Hreach as [|? m ch ? Hn Hch Hrest|? m nx ? Hn Hnx Hrest]; subst.
      * apply Hm2. exists nc, fq. done.
      * assert (m = n0) as -> by congruence. apply Hm2. by eapply Hr1.
      * assert (m = n0) as -> by congruence. eapply Hr2; [|exact Hrest].
        congruence.
  - split; [done|]. split; [done|]. split; [|done].
    exists [], 0%nat. by rewrite app_nil_r.
Qed.

Lemma computeHeights_spec (f : nat) :
  ∀ h0 h t h', pointwise onlyHeight h0 h → computeHeights f h t = Ok h' →
  pointwise onlyHeight h0 h' ∧
  (∀ q, heightOK h0 h q → heightOK h0 h' q) ∧
  heightOK h0 h' t ∧
  ∀ n0 c q, h0 !! t = Some n0 → children n0 = Some c → reach h0 c q →
            heightOK h0 h' q.
Proof.
  induction f as [|f IH]; intros h0 h t h' Hp H; [done|]. simpl in H.
  apply bind_Ok in H as (nt & Hnt & H). inv_Ok.
  destruct (h0 !! t) as [n0|] eqn:Ht0.
  2:{ apply (pointwise_None _ _ _ _ Hp) in Ht0. congruence. }
  destruct (proj2 Hp t n0 Ht0) as (x & Hx & Rx).
  assert (x = nt) as -> by congruence.
  assert (Hch : children nt = children n0) by (by rewrite Rx).
  destruct (children nt) as [c|] eqn:Ec.
  - apply bind_Ok in H as ([h1 hs] & Hloop & H). inv_Ok.
    destruct (heights_loop h0 f (IH h0) _ _ _ _ _ _ Hp Hloop)
      as (Hp1 & Hm1 & (l & fv & Hl & ->) & Hr1).
    simpl in *.
    assert (Hv : heightOf (S fv) h0 t = Some (wrap64 (1 + max l))).
    { by rewrite heightOf_S, Ht0, <- Hch, Hl. }
    assert (Hsome : is_Some (h1 !! t)).
    { destruct (proj2 Hp1 t n0 Ht0) as (y & Hy & _). eauto. }
    split; [|split; [|split]].
    + eapply pointwise_trans; [apply onlyHeight_trans|exact Hp1|].
      apply pointwise_alter; [apply onlyHeight_refl|]. intros n. by destruct n.
    + intros q Hq. eapply heightOK_mono_alter; [exact Hv|done|]. right. auto.
    + eapply heightOK_mono_alter; [exact Hv|done|]. by left.
    + intros n0' c' q [= <-] Hc' Hreach.
      eapply heightOK_mono_alter; [exact Hv|done|]. right.
      eapply Hr1; [|exact Hreach]. congruence.
  - inv_Ok.
    assert (Hv : heightOf 1 h0 t = Some 0).
    { by rewrite heightOf_S, Ht0, <- Hch. }
    split; [|split; [|split]].
    + eapply pointwise_trans; [apply onlyHeight_trans|exact Hp|].
      apply pointwise_alter; [apply onlyHeight_refl|]. intros n. by destruct n.
    + intros q Hq. eapply heightOK_mono_alter; [exact Hv|eauto|]. by right.
    + eapply heightOK_mono_alter; [exact Hv|eauto|]. by left.
    + intros n0' c' q [= <-] Hc'. congruence.
Qed.

Lemma chainList_heights (h0 h' : list treenode) :
  pointwise onlyHeight h0 h' →
  ∀ f c hs, heightsOfChain f h0 c = Some hs →
  (∀ x q, c = Some x → reach h0 x q → heightOK h0 h' q) →
  ∃ l, chainList h' c l ∧ hs = map (heightAt h') l.
Proof.
  intros Hp. induction f as [|f IH]; intros c hs H Hok.
  - destruct c; [done|]. simpl in H. inv_Ok. injection H as <-.
    exists []. split; [constructor|done].
  - destruct c as [x|]; [|simpl in H; injection H as <-; exists [];
                            split; [constructor|done]].
    rewrite heightsOfChain_S in H.
    destruct (heightOf f h0 x) as [hx|] eqn:E1; [|done].
    destruct (h0 !! x) as [n0|] eqn:Hx0; [|done].
    destruct (heightsOfChain f h0 (next n0)) as [r|] eqn:E2; [|done].
    injection H as <-.
    destruct (proj2 Hp x n0 Hx0) as (nx & Hnx & Rx).
    destruct (IH _ _ E2) as (l & Hl & ->).
    { intros y q Hy Hr. apply (Hok x q eq_refl).
      eapply reach_next; [exact Hx0|exact Hy|exact Hr]. }
    exists (x :: l). split.
    + econstructor; [exact Hnx|]. by rewrite Rx.
    + simpl. f_equal. unfold heightAt. rewrite Hnx.
      destruct (Hok x x eq_refl (reach_refl _ _)) as (nq & fq & Hq & Hh).
      assert (nq = nx) as -> by congruence.
      symmetry. by eapply heightOf_det.
Qed.

Lemma computeHeights_recurrence_aux (fuel : nat) (h : heap) (t : ptr) (h' : heap)
    (q : ptr) (nq : treenode) :
  computeHeights fuel h t = Ok h' →
  (q = t ∨ ∃ nt c, h !! t = Some nt ∧ children nt = Some c ∧ reach h c q) →
  h' !! q = Some nq →
  match children nq with
  | None => height nq = 0
  | Some c =>
    ∃ l, chainList h' (Some c) l ∧
         height nq = wrap64 (1 + max (map (heightAt h') l))
  end.
Proof.
  intros H Hq Hnq.
  destruct (computeHeights_spec fuel h h t h' (pointwise_refl _ _ onlyHeight_refl) H)
    as (Hp & _ & Ht & Hr).
  assert (Hok : heightOK h h' q).
  { destruct Hq as [->|(nt & c & Hnt & Hc & Hreach)]; [done|]. by eapply Hr. }
  destruct Hok as (nq' & fq & Hnq' & Hh).
  assert (nq' = nq) as -> by congruence.
  destruct (h !! q) as [n0|] eqn:Hq0.
  2:{ apply (pointwise_None _ _ _ _ Hp) in Hq0. congruence. }
  destruct (proj2 Hp q n0 Hq0) as (x & Hx & Rx).
  assert (x = nq) as -> by congruence.
  assert (Hch : children nq = children n0) by (by rewrite Rx).
  destruct fq as [|fq]; [done|]. rewrite heightOf_S, Hq0, <- Hch in Hh.
  destruct (children nq) as [c|] eqn:Ec; [|by injection Hh].
  destruct (heightsOfChain fq h (Some c)) as [hs|] eqn:E; [|done].
  injection Hh as Hh.
  destruct (chainList_heights h h' Hp _ _ _ E) as (l & Hl & ->).
  - intros y z [= <-] Hyz.
    destruct Hq as [->|(nt & c' & Hnt & Hc' & Hreach)].
    + eapply Hr; [exact Hq0|symmetry; exact Hch|exact Hyz].
    + eapply Hr; [exact Hnt|exact Hc'|].
      eapply reach_trans; [exact Hreach|].
      eapply reach_children; [exact Hq0|symmetry; exact Hch|exact Hyz].
  - exists l. split; [done|]. congruence.
Qed.

(** X13.  After [computeHeights] has returned, every node it has visited
    (its argument and everything reachable from the argument's children)
    satisfies the recurrence in the final store: a node without children
    has height 0, and a node with children has height one more than [max]
    of the heights of the nodes on its children chain. *)
Theorem computeHeights_recurrence (fuel : nat) (h : heap) (t : ptr) (h' : heap)
    (q : ptr) (nq : treenode) :
  computeHeights fuel h t = Ok h' →
  (q = t ∨ ∃ nt c, h !! t = Some nt ∧ children nt = Some c ∧ reach h c q) →
  h' !! q = Some nq →
  match children nq with
  | None => height nq = 0
  | Some c =>
    ∃ l, chainList h' (Some c) l ∧
         height nq = wrap64 (1 + max (map (heightAt h') l))
  end.
Proof. apply computeHeights_recurrence_aux. Qed.

Lemma chainList_unique (h : list treenode) (c : option nat) (l l' : list nat) :
  chainList h c l → chainList h c l' → l = l'.
Proof.
  intros H. revert l'. induction H as [|x n l Hx _ IH]; intros l' H'.
  - by inversion H'.
  - inversion H' as [|? n' l0 Hx' Hl0]; subst.
    assert (n' = n) as -> by congruence. f_equal. by apply IH.
Qed.

(** X14.  Heights decrease strictly along [children] links: after
    [computeHeights], for every visited node with children, each node on
    its children chain has a smaller height than the node, provided the
    greatest height on the chain is below the largest int (no overflow in
    [1 + max]). *)
Theorem computeHeights_monotone (fuel : nat) (h : heap) (t : ptr) (h' : heap)
    (q : ptr) (nq : treenode) (c : ptr) (l : list ptr) :
  computeHeights fuel h t = Ok h' →
  (q = t ∨ ∃ nt c, h !! t = Some nt ∧ children nt = Some c ∧ reach h c q) →
  h' !! q = Some nq → children nq = Some c →
  chainList h' (Some c) l →
  max (map (heightAt h') l) < 2 ^ 63 - 1 →
  ∀ x, x ∈ l → heightAt h' x < height nq.
Proof.
  intros H Hq Hnq Hc Hl Hmax x Hx.
  pose proof (computeHeights_recurrence_aux _ _ _ _ _ _ H Hq Hnq) as Hrec.
  rewrite Hc in Hrec. destruct Hrec as (l0 & Hl0 & ->).
  rewrite (chainList_unique _ _ _ _ Hl0 Hl).
  destruct (max_fold (map (heightAt h') l) 0) as (H0 & Hle & _).
  fold (max (map (heightAt h') l)) in H0, Hle.
  assert (Hx' : heightAt h' x ≤ max (map (heightAt h') l)).
  { apply Hle. apply list_elem_of_fmap. by exists x. }
  unfold wrap64. rewrite Z.mod_small; lia.
Qed.

Lemma computeHeights_recurrence_witness :
  ∃ h' nq,
    computeHeights 20 trie_cat 0 = Ok h' ∧
    h' !! 2%nat = Some nq ∧
    ∃ l, chainList h' (Some 3%nat) l ∧
         height nq = wrap64 (1 + max (map (heightAt h') l)).
Proof.
  eexists _, _. split; [vm_compute; reflexivity|]. split; [reflexivity|].
  match goal with
  | |- ∃ l, chainList ?hh _ l ∧ height ?n = _ =>
    assert (H1 : computeHeights 20 trie_cat 0 = Ok hh) by (vm_compute; reflexivity);
    assert (H2 : 2%nat = 0%nat ∨
                 ∃ nt c, trie_cat !! 0%nat = Some nt ∧ children nt = Some c ∧
                         reach trie_cat c 2%nat)
      by (right; eexists _, _; split; [reflexivity|];
          split; [reflexivity|solve_reach]);
    exact (computeHeights_recurrence 20 trie_cat 0 hh 2 n H1 H2 eq_refl)
  end.
Defined.

Lemma computeHeights_monotone_witness :
  ∃ h' nq,
    computeHeights 20 trie_cat 0 = Ok h' ∧
    h' !! 2%nat = Some nq ∧ children nq = Some 3%nat ∧
    chainList h' (Some 3%nat) [3; 4]%nat ∧
    ∀ x, x ∈ [3; 4]%nat → heightAt h' x < height nq.
Proof.
  eexists _, _. split; [vm_compute; reflexivity|]. split; [reflexivity|].
  split; [reflexivity|].
  assert (Hl : ∀ hh n3 n4, hh !! 3%nat = Some n3 → next n3 = Some 4%nat →
            hh !! 4%nat = Some n4 → next n4 = None →
            chainList hh (Some 3%nat) [3; 4]%nat).
  { intros hh n3 n4 H3 E3 H4 E4. econstructor; [exact H3|]. rewrite E3.
    econstructor; [exact H4|]. rewrite E4. constructor. }
  split; [by eapply Hl|].
  eapply (computeHeights_monotone 20 trie_cat 0 _ 2 _ 3 [3; 4]%nat).
  - vm_compute; reflexivity.
  - right. eexists _, _. split; [reflexivity|]. split; [reflexivity|solve_reach].
  - reflexivity.
  - reflexivity.
  - by eapply Hl.
  - vm_compute. reflexivity.
Defined.

(** ** computeLevels *)

Lemma onlyLevel_fwd (h h' : list treenode) (p : nat) (n : treenode) :
  pointwise onlyLevel h h' → h !! p = Some n →
  ∃ n', h' !! p = Some n' ∧ children n' = children n ∧ next n' = next n.
Proof.
  intros [_ Hp] Hn. destruct (Hp p n Hn) as (n' & Hn' & HR).
  exists n'. split; [done|]. rewrite HR. by destruct n.
Qed.

Lemma onlyLevel_bwd (h h' : list treenode) (p : nat) (n' : treenode) :
  pointwise onlyLevel h h' → h' !! p = Some n' →
  ∃ n, h !! p = Some n ∧ children n' = children n ∧ next n' = next n.
Proof.
  intros [L Hp] Hn'. destruct (h !! p) as [n|] eqn:Hn.
  - destruct (Hp p n Hn) as (n2 & Hn2 & HR). assert (n2 = n') as -> by congruence.
    exists n. split; [done|]. rewrite HR. by destruct n.
  - apply lookup_ge_None in Hn. apply lookup_lt_Some in Hn'. lia.
Qed.

Lemma reach_onlyLevel (h h' : list treenode) (p q : nat) :
  pointwise onlyLevel h h' → reach h p q ↔ reach h' p q.
Proof.
  intros Hp. split.
  - induction 1 as [|p n c q Hn Hc _ IH|p n c q Hn Hc _ IH]; [constructor|..];
      destruct (onlyLevel_fwd _ _ _ _ Hp Hn) as (n' & Hn' & E1 & E2).
    + eapply reach_children; [exact Hn'|rewrite E1; exact Hc|exact IH].
    + eapply reach_next; [exact Hn'|rewrite E2; exact Hc|exact IH].
  - induction 1 as [|p n c q Hn Hc _ IH|p n c q Hn Hc _ IH]; [constructor|..];
      destruct (onlyLevel_bwd _ _ _ _ Hp Hn) as (n' & Hn' & E1 & E2).
    + eapply reach_children; [exact Hn'|rewrite <- E1; exact Hc|exact IH].
    + eapply reach_next; [exact Hn'|rewrite <- E2; exact Hc|exact IH].
Qed.

Lemma onChain_onlyLevel (h h' : list treenode) (c x : nat) :
  pointwise onlyLevel h h' → onChain h c x → onChain h' c x.
Proof.
  intros Hp. induction 1 as [|c n nx x Hc Hn _ IH]; [constructor|].
  destruct (onlyLevel_fwd _ _ _ _ Hp Hc) as (n' & Hn' & _ & E2).
  eapply onChain_next; [exact Hn'|rewrite E2; exact Hn|exact IH].
Qed.

Lemma onChain_reach (h : list treenode) (c x : nat) :
  onChain h c x → reach h c x.
Proof.
  induction 1 as [|c n nx x Hc Hn _ IH]; [constructor|].
  eapply reach_next; [exact Hc|exact Hn|exact IH].
Qed.

Lemma onChain_snoc (h : list treenode) (c x y : nat) (n : treenode) :
  onChain h c x → h !! x = Some n → next n = Some y → onChain h c y.
Proof.
  induction 1 as [|c m nx x Hc Hm _ IH]; intros Hx Hy.
  - eapply onChain_next; [exact Hx|exact Hy|constructor].
  - eapply onChain_next; [exact Hc|exact Hm|by apply IH].
Qed.

Lemma visited_onlyLevel (h h' : list treenode) (t q : nat) :
  pointwise onlyLevel h h' → visited h' t q → visited h t q.
Proof.
  intros Hp [->|(nt & c & Hnt & Hc & Hr)]; [by left|right].
  destruct (onlyLevel_bwd _ _ _ _ Hp Hnt) as (n & Hn & E1 & _).
  exists n, c. split; [done|]. split; [congruence|].
  by apply (reach_onlyLevel _ _ _ _ Hp).
Qed.

Lemma visited_trans (h : list treenode) (a b c : nat) :
  visited h a b → visited h b c → visited h a c.
Proof.
  intros [->|(na & ca & Hna & Hca & Hr)] Hbc; [done|].
  destruct Hbc as [->|(nb & cb & Hnb & Hcb & Hr')].
  - right. eauto.
  - right. exists na, ca. split; [done|]. split; [done|].
    eapply reach_trans; [exact Hr|]. eapply reach_children; eauto.
Qed.

Lemma visited_child (h : list treenode) (a p q c : nat) (np : treenode) :
  visited h a p → h !! p = Some np → children np = Some c → onChain h c q →
  visited h a q.
Proof.
  intros Hap Hp Hc Hq. eapply visited_trans; [exact Hap|].
  right. exists np, c. split; [done|]. split; [done|]. by apply onChain_reach.
Qed.

Lemma belowParent_mono (h : list treenode) (S S' : nat → Prop) (q : nat) :
  (∀ p, S p → S' p) → belowParent h S q → belowParent h S' q.
Proof.
  intros HS (p & np & c & nq & Hp & ?). exists p, np, c, nq. split; [auto|done].
Qed.

(** What a call of [computeLevels] leaves behind: a node outside the
    visited ones is untouched, and every visited node but the first is one
    level below a visited node that has it among its children. *)
Lemma computeLevels_levels (f : nat) :
  ∀ h t lvl h', ordered h → computeLevels f h t lvl = Ok h' →
  (∀ p, h' !! p = h !! p ∨ visited h t p) ∧
  (∀ q, visited h t q → q ≠ t → belowParent h' (visited h t) q).
Proof.
  induction f as [|f IH]; intros h t lvl h' Ho H; [done|]. simpl in H.
  apply bind_Ok in H as (nt0 & Hnt0 & H). apply bind_Ok in H as (nt & Hnt & H).
  apply load_Ok in Hnt0. apply load_Ok in Hnt.
  set (h1 := alter (set_level lvl) t h) in *.
  assert (Ent : nt = set_level lvl nt0).
  { unfold h1 in Hnt. rewrite list_lookup_alter_eq, Hnt0 in Hnt. simpl in Hnt.
    congruence. }
  assert (Ech : children nt = children nt0) by (rewrite Ent; by destruct nt0).
  assert (Elv : level nt = lvl) by (rewrite Ent; by destruct nt0).
  assert (P01 : pointwise onlyLevel h h1).
  { apply pointwise_alter; [apply onlyLevel_refl|]. intros n. by destruct n. }
  assert (HI :
    ordered h' ∧ pointwise onlyLevel h h' ∧
    (∀ c', @None nat = Some c' →
       (t < c')%nat ∧ ∃ c0, children nt0 = Some c0 ∧ onChain h c0 c') ∧
    h' !! t = h1 !! t ∧
    (∀ p, h' !! p = h !! p ∨ visited h t p) ∧
    (∀ c0 q, children nt0 = Some c0 → reach h c0 q →
       belowParent h' (visited h t) q ∨ ∃ c', @None nat = Some c' ∧ reach h c' q)).
  { refine (forChain_ind (λ st, st) _
      (λ s child,
         ordered s ∧ pointwise onlyLevel h s ∧
         (∀ c', child = Some c' →
            (t < c')%nat ∧ ∃ c0, children nt0 = Some c0 ∧ onChain h c0 c') ∧
         s !! t = h1 !! t ∧
         (∀ p, s !! p = h !! p ∨ visited h t p) ∧
         (∀ c0 q, children nt0 = Some c0 → reach h c0 q →
            belowParent s (visited h t) q ∨ ∃ c', child = Some c' ∧ reach h c' q))
      _ _ _ _ _ _ H).
    - intros s c s' nc (Hos & Phs & Hc & Hst & Hun & Hq) Hb Hnc.
      destruct (Hc c eq_refl) as (Htc & c0 & Hc0 & Hch).
      pose proof (computeLevels_onlyLevel _ _ _ _ _ Hb) as Pss.
      destruct (computeLevels_frame _ _ _ _ _ Hos Hb) as [Hfr Hlc].
      destruct (IH _ _ _ _ Hos Hb) as [Hun' Hgood].
      assert (Hos' : ordered s') by (eapply ordered_onlyLevel; [exact Pss|exact Hos]).
      assert (Phs' : pointwise onlyLevel h s').
      { eapply pointwise_trans; [apply onlyLevel_trans|exact Phs|exact Pss]. }
      assert (Hvc : visited h t c).
      { right. exists nt0, c0. split; [done|]. split; [done|].
        by apply onChain_reach. }
      assert (Hsub : ∀ p, visited s c p → visited h t p).
      { intros p Hp. eapply visited_trans; [exact Hvc|].
        eapply visited_onlyLevel; [exact Phs|exact Hp]. }
      assert (Hst' : s' !! t = h1 !! t) by (rewrite Hfr by lia; exact Hst).
      (* the node just visited is one level below [t] *)
      assert (HA : belowParent s' (visited h t) c).
      { exists t, nt, c0, nc. split; [by left|]. split; [congruence|].
        split; [congruence|].
        split; [eapply onChain_onlyLevel; [exact Phs'|exact Hch]|].
        split; [done|]. rewrite Hnc in Hlc. simpl in Hlc. congruence. }
      (* nodes below the node just visited *)
      assert (HB : ∀ q, q ≠ c → visited s c q → belowParent s' (visited h t) q).
      { intros q Hne Hv. eapply belowParent_mono; [exact Hsub|]. by apply Hgood. }
      split; [done|]. split; [done|]. split; [|split; [done|split]].
      + intros c' Hc'. destruct (Hos' c nc Hnc) as [_ Hn]. specialize (Hn c' Hc').
        split; [lia|]. exists c0. split; [done|].
        destruct (onlyLevel_bwd _ _ _ _ Phs' Hnc) as (n & Hn0 & _ & E2).
        eapply onChain_snoc; [exact Hch|exact Hn0|congruence].
      + intros p. destruct (Hun' p) as [E|Hv].
        * rewrite E. apply Hun.
        * right. by apply Hsub.
      + intros c0' q Hc0' Hr. assert (c0' = c0) as -> by congruence.
        destruct (decide (q = c)) as [->|Hne]; [by left|].
        destruct (Hq c0 q Hc0 Hr) as [(p & np & cc & nq & Hp & Hnp & Hcc & Hon & Hnq & Hl)
                                     |(c' & Hc' & Hr')].
        * destruct (Hun' q) as [Eq|Hv]; [|left; by apply HB].
          destruct (Hun' p) as [Ep|Hv].
          -- left. exists p, np, cc, nq. split; [done|]. split; [congruence|].
             split; [done|].
             split; [eapply onChain_onlyLevel; [exact Pss|exact Hon]|].
             split; [congruence|done].
          -- left. apply HB; [done|].
             exact (visited_child _ _ _ _ _ _ Hv Hnp Hcc Hon).
        * injection Hc' as <-.
          inversion Hr' as [|? n cc ? Hn Hcc Hr2|? n x ? Hn Hx Hr2]; subst.
          -- done.
          -- left. apply HB; [done|]. right.
             destruct (onlyLevel_fwd _ _ _ _ Phs Hn) as (n' & Hn' & E1 & _).
             exists n', cc. split; [done|]. split; [congruence|].
             by apply (reach_onlyLevel _ _ _ _ Phs).
          -- right. exists x. split; [|done].
             destruct (onlyLevel_fwd _ _ _ _ Phs' Hn) as (n' & Hn' & _ & E2).
             congruence.
    - split; [by eapply ordered_onlyLevel|]. split; [done|].
      split; [|split; [done|split]].
      + intros c' Hc'. rewrite Ech in Hc'.
        destruct (Ho t nt0 Hnt0) as [Hlt _]. specialize (Hlt c' Hc').
        split; [lia|]. exists c'. split; [done|constructor].
      + intros p. destruct (decide (p = t)) as [->|Hne]; [right; by left|].
        left. unfold h1. by rewrite list_lookup_alter_ne.
      + intros c0 q Hc0 Hr. right. exists c0. split; [congruence|done]. }
  destruct HI as (_ & _ & _ & _ & Hun & Hq). split; [done|].
  intros q [->|(nt' & c0 & Hnt' & Hc0 & Hr)] Hne; [done|].
  assert (nt' = nt0) as -> by congruence.
  destruct (Hq c0 q Hc0 Hr) as [Hg|(c' & Hc' & _)]; [done|discriminate].
Qed.

(** X15.  [computeLevels] assigns depths: in a store whose links lead to
    later nodes (as [Put] builds it), after [computeLevels(level)] the
    node it was called on has level [level], and every other node it has
    visited is exactly one level below a visited node that has it on the
    chain of its children. *)
Theorem computeLevels_depth (fuel : nat) (h : heap) (t : ptr) (lvl : Z)
    (h' : heap) :
  ordered h → computeLevels fuel h t lvl = Ok h' →
  (level <$> h' !! t) = Some lvl ∧
  ∀ q, visited h t q → q ≠ t → belowParent h' (visited h t) q.
Proof.
  intros Ho H. split.
  - by destruct (computeLevels_frame _ _ _ _ _ Ho H).
  - by destruct (computeLevels_levels _ _ _ _ _ Ho H).
Qed.

Lemma computeLevels_depth_witness :
  ∃ h',
    ordered trie_cat ∧ computeLevels 20 trie_cat 0 0 = Ok h' ∧
    (level <$> h' !! 0%nat) = Some 0 ∧
    ∀ q, visited trie_cat 0 q → q ≠ 0%nat →
         belowParent h' (visited trie_cat 0) q.
Proof.
  assert (Ho : ordered trie_cat).
  { apply (build_spec vocabulary_cat trie_cat 0). vm_compute; reflexivity. }
  eexists. split; [exact Ho|]. split; [vm_compute; reflexivity|].
  apply (computeLevels_depth 20 trie_cat 0 0); [exact Ho|vm_compute; reflexivity].
Defined.

(** ** length *)

Lemma wrap64_add_wrap64 (a b : Z) : wrap64 (a + wrap64 b) = wrap64 (a + b).
Proof.
  unfold wrap64.
  replace (a + ((b + 2 ^ 63) mod 2 ^ 64 - 2 ^ 63) + 2 ^ 63)
    with (a + (b + 2 ^ 63) mod 2 ^ 64) by lia.
  rewrite Z.add_mod_idemp_r by lia. f_equal. f_equal. lia.
Qed.

Lemma chain_length_aux (h : list treenode) (c : option nat) (l : list nat) :
  chainList h c l →
  ∀ t fuel, c = Some t → (length l ≤ fuel)%nat →
  chain.length fuel h t = Ok (wrap64 (Z.of_nat (length l))).
Proof.
  induction 1 as [|x n l Hx Hl IH]; intros t fuel Hc Hf; [done|].
  injection Hc as <-. destruct fuel as [|fuel]; [simpl in Hf; lia|].
  cbn [chain.length]. unfold load. rewrite Hx. cbn [bind].
  destruct (next n) as [nx|] eqn:Hn.
  - rewrite (IH nx fuel eq_refl) by (simpl in Hf; lia). cbn [bind].
    rewrite wrap64_add_wrap64. do 2 f_equal. cbn [length]. lia.
  - inversion Hl; subst. reflexivity.
Qed.

(** X16.  [length] counts the nodes of a sibling chain: on a chain that
    ends (its nodes, in order, are [l]) the call returns, and its result
    is the number of nodes of the chain, as an int. *)
Theorem length_counts (h : heap) (t : ptr) (l : list ptr) (fuel : nat) :
  chainList h (Some t) l → (length l ≤ fuel)%nat →
  chain.length fuel h t = Ok (wrap64 (Z.of_nat (length l))).
Proof. intros Hl Hf. by eapply chain_length_aux. Qed.

Lemma length_counts_witness :
  chainList trie_cat (Some 3%nat) [3; 4]%nat ∧ (2 ≤ 5)%nat ∧
  chain.length 5 trie_cat 3 = Ok 2.
Proof.
  assert (Hl : chainList trie_cat (Some 3%nat) [3; 4]%nat).
  { econstructor; [reflexivity|]. econstructor; [reflexivity|]. constructor. }
  split; [exact Hl|]. split; [lia|].
  exact (length_counts trie_cat 3 [3; 4]%nat 5 Hl ltac:(simpl; lia)).
Defined.

(** ** processLevel: the effect on the store *)

Lemma redirect_loop_bounds (other : nat) (ps : list nat) :
  ∀ h h', forRange (redirectBody other) h ps = Ok h' →
  Forall (λ p, (p < length h)%nat) ps ∧ (ps ≠ [] → (other < length h)%nat).
Proof.
  induction ps as [|p ps IH]; intros h h' H; [by split|].
  simpl in H. inv_bind H. unfold redirectBody in E.
  apply bind_Ok in E as (np & Hnp & E). apply bind_Ok in E as (no & Hno & E).
  apply load_Ok in Hnp. apply load_Ok in Hno.
  injection E as <-.
  apply lookup_lt_Some in Hnp. apply lookup_lt_Some in Hno.
  rewrite length_alter in Hno.
  destruct (IH _ _ H) as [Hall _]. rewrite !length_alter in Hall.
  split; [by constructor|done].
Qed.

Lemma redirect_effect (h h' : list treenode) (t other : nat) :
  redirect h t other = Ok h' →
  parentsOf h t ≠ [] ∧
  ∀ q, childOf h' q
       = (if bool_decide (q ∈ parentsOf h t) then Some other else childOf h q) ∧
       parentsOf h' q
       = (if bool_decide (q = other) then parentsOf h q ++ parentsOf h t
          else parentsOf h q).
Proof.
  intros H. destruct (h !! t) as [nt|] eqn:Ht;
    [|unfold redirect, load in H; by rewrite Ht in H].
  rewrite (redirect_unfold _ _ _ _ Ht) in H.
  assert (Hps : parentsOf h t = parents nt) by (unfold parentsOf; by rewrite Ht).
  rewrite Hps.
  assert (Hne : parents nt ≠ []) by (by destruct (parents nt)).
  assert (Hrun : forRange (redirectBody other) h (parents nt) = Ok h').
  { by destruct (parents nt). }
  split; [done|].
  destruct (redirect_loop_bounds _ _ _ _ Hrun) as [Hall Ho].
  specialize (Ho Hne).
  destruct (redirect_loop other (parents nt) h Ho Hall) as (h2 & Hrun2 & Hlen & Hq).
  assert (h2 = h') as -> by congruence.
  intros q. unfold childOf, parentsOf. destruct (h !! q) as [n|] eqn:Hn.
  - rewrite (Hq _ _ Hn). simpl. done.
  - apply lookup_ge_None in Hn.
    rewrite (proj2 (lookup_ge_None h' q)) by lia.
    rewrite bool_decide_eq_false_2.
    2:{ intros Hin. rewrite Forall_forall in Hall. specialize (Hall q Hin). lia. }
    rewrite bool_decide_eq_false_2 by lia. done.
Qed.

(** The loop over the candidates, on the store: the parents of a merged
    candidate end up below the node it was merged into, and no other
    [children] pointer changes. *)
Lemma processFirsts_store (firsts : list nat) :
  ∀ (h : list treenode) (others : list nat) (merges : list (nat * nat))
    (hF : list treenode) (oF : list nat) (mF : list (nat * nat)),
  NoDup firsts → (∀ c, c ∈ firsts → c ∉ others) →
  (∀ c p, c ∈ firsts → p ∈ parentsOf h c → childOf h p = Some c) →
  processFirsts h others merges firsts = Ok (hF, oF, mF) →
  ∃ ms, mF = merges ++ ms ∧
    (∀ c k, (c, k) ∈ ms → c ∈ firsts ∧ mergedInto h hF c k) ∧
    (∀ q, (∀ c k, (c, k) ∈ ms → q ∉ parentsOf h c) → childOf hF q = childOf h q) ∧
    (∀ q p, p ∈ parentsOf h q → p ∈ parentsOf hF q).
Proof.
  induction firsts as [|first rest IH];
    intros h others merges hF oF mF Hnd Hdis Hex H; simpl in H.
  - inv_Ok. exists []. rewrite app_nil_r. split; [done|].
    split; [intros c k Hin; by apply elem_of_nil in Hin|]. by split.
  - apply NoDup_cons in Hnd as [Hfirst Hnd].
    inv_bind H. destruct a as [h1 spent].
    apply scanOthers_spec in E as (Hr1 & Hs).
    destruct spent as [le|].
    + destruct Hs as (Hfm & Hred & _).
      apply firstMatch_elem in Hfm as [Hle _].
      destruct (redirect_effect _ _ _ _ Hred) as [Hne Heff].
      assert (Hpar : ∀ c, c ∈ rest → parentsOf h1 c = parentsOf h c).
      { intros c Hc. rewrite (proj2 (Heff c)).
        rewrite bool_decide_eq_false_2; [done|].
        intros ->. apply (Hdis le); [by right|done]. }
      assert (Hsep : ∀ c p, c ∈ rest → p ∈ parentsOf h c → p ∉ parentsOf h first).
      { intros c p Hc Hp Hp'.
        pose proof (Hex c p ltac:(by right) Hp) as E1.
        pose proof (Hex first p ltac:(left) Hp') as E2.
        assert (c = first) as -> by congruence. done. }
      destruct (IH h1 others (merges ++ [(first, le)]) hF oF mF Hnd)
        as (ms & -> & HA & HB & HC); [..|exact H|].
      { intros c Hc. apply Hdis. by right. }
      { intros c p Hc Hp. rewrite (Hpar c Hc) in Hp. rewrite (proj1 (Heff p)).
        rewrite bool_decide_eq_false_2 by (by eapply Hsep).
        apply Hex; [by right|done]. }
      exists ((first, le) :: ms). split; [by rewrite <- app_assoc|].
      split; [|split].
      * intros c k [[= -> ->]|Hin]%elem_of_cons.
        -- split; [left|]. split; [done|]. intros p Hp. split.
           ++ rewrite HB.
              ** rewrite (proj1 (Heff p)). by rewrite bool_decide_eq_true_2.
              ** intros c k Hin Hp'. destruct (HA c k Hin) as [Hc _].
                 rewrite (Hpar c Hc) in Hp'. by apply (Hsep c p Hc Hp').
           ++ apply HC. rewrite (proj2 (Heff le)).
              rewrite bool_decide_eq_true_2 by done.
              apply elem_of_app. by right.
        -- destruct (HA c k Hin) as [Hc [Hn Hm]]. split; [by right|].
           rewrite (Hpar c Hc) in Hn, Hm. by split.
      * intros q Hq. rewrite HB.
        -- rewrite (proj1 (Heff q)). rewrite bool_decide_eq_false_2; [done|].
           apply (Hq first le). left.
        -- intros c k Hin. destruct (HA c k Hin) as [Hc _].
           rewrite (Hpar c Hc). apply (Hq c k). by right.
      * intros q p Hp. apply HC. rewrite (proj2 (Heff q)).
        case_bool_decide; [|done]. apply elem_of_app. by left.
    + destruct Hs as [-> _].
      destruct (IH h (others ++ [first]) merges hF oF mF Hnd)
        as (ms & -> & HA & HB & HC); [..|exact H|].
      { intros c Hc [Hin|Hin]%elem_of_app.
        - apply (Hdis c); [by right|done].
        - apply list_elem_of_singleton in Hin as ->. done. }
      { intros c p Hc Hp. apply Hex; [by right|done]. }
      exists ms. split; [done|]. split; [|by split].
      intros c k Hin. destruct (HA c k Hin) as [Hc Hm]. split; [by right|done].
Qed.

Lemma Exists_key (h : list treenode) (c : nat) (kept : list nat) :
  Exists (λ k, key h k = key h c) kept ↔ ∃ k, firstMatch h c kept k.
Proof.
  rewrite Exists_exists. split.
  - intros (k & Hk & Hkey). by eapply firstMatch_exists.
  - intros (k & Hk). apply firstMatch_elem in Hk. eauto.
Qed.

(** The kept nodes as the log of merges gives them are the kept nodes as
    the keys give them. *)
Lemma keptWhen_keptBefore (h : list treenode) (others firsts : list nat)
    (ms : list (nat * nat)) :
  (∀ pre c post, firsts = pre ++ c :: post →
     ∀ k, (c, k) ∈ ms ↔ firstMatch h c (keptBefore others ms pre) k) →
  ∀ pre post, firsts = pre ++ post →
  keptBefore others ms pre = keptWhen h others pre.
Proof.
  intros Hiff pre. induction pre as [|c pre IH] using rev_ind; intros post Heq.
  - unfold keptBefore, keptWhen. simpl. by rewrite filter_nil, app_nil_r.
  - rewrite <- app_assoc in Heq. simpl in Heq.
    specialize (IH (c :: post) Heq).
    unfold keptWhen. rewrite fold_left_app. simpl. fold (keptWhen h others pre).
    rewrite <- IH. unfold keep, keptBefore at 1.
    rewrite filter_app, app_assoc. fold (keptBefore others ms pre).
    case_bool_decide as Hex.
    + apply Exists_key in Hex as [k Hk]. apply (Hiff pre c post Heq) in Hk.
      rewrite filter_cons_False, filter_nil, app_nil_r; [done|].
      intros Hn. apply Hn. apply list_elem_of_fmap. by exists (c, k).
    + rewrite filter_cons_True, filter_nil; [done|].
      intros ((c' & k) & Hc & Hin)%list_elem_of_fmap. simpl in Hc. subst c'.
      apply Hex, Exists_key. exists k. by apply (Hiff pre c post Heq).
Qed.

(** C1, as the code has it.  In [processLevel], on a level without
    repetitions whose candidates (the first children of the level) have
    exact parents slices, a candidate is merged into another node (each of
    its parents gets that node as [children] and is appended to the
    parents of that node) exactly when that node is the first kept node,
    in scan order, with [val], [hash] and [level] equal to the
    candidate's; so it is merged only into a node with these three fields
    equal, and into none when no kept node has them equal: then its
    parents keep it as [children].  No other [children] pointer changes,
    no other field but [children] and [parents] changes, and the calls of
    [redirect] are exactly these merges.  The kept nodes at that moment
    are the nodes of the level that are not first children, followed by
    the earlier candidates for which no kept node had equal fields. *)
Theorem processLevel_merge_iff (h : heap) (lvl : list ptr) (h' : heap)
    (merges : list (ptr * ptr)) :
  NoDup lvl → exactParents h lvl →
  processLevel h lvl = Ok (h', merges) →
  (∀ pre c post,
     filter (λ p, isFirst h p = true) lvl = pre ++ c :: post →
     (∀ k, k ≠ c →
        (mergedInto h h' c k ↔
         firstMatch h c (keptWhen h (filter (λ p, isFirst h p ≠ true) lvl) pre) k) ∧
        (mergedInto h h' c k →
         ∃ nc nk, h !! c = Some nc ∧ h !! k = Some nk ∧
           val nc = val nk ∧ hash nc = hash nk ∧ level nc = level nk)) ∧
     (∀ k, (c, k) ∈ merges ↔
        firstMatch h c (keptWhen h (filter (λ p, isFirst h p ≠ true) lvl) pre) k) ∧
     ((∀ k, k ∈ keptWhen h (filter (λ p, isFirst h p ≠ true) lvl) pre →
            key h k ≠ key h c) →
      ∀ p, p ∈ parentsOf h c → childOf h' p = Some c)) ∧
  (∀ q, (∀ c, c ∈ lvl → isFirst h c = true → q ∉ parentsOf h c) →
        childOf h' q = childOf h q) ∧
  relinked h h'.
Proof.
  intros Hnd Hex H.
  pose proof (processLevel_relinked _ _ _ _ H) as Hrel.
  unfold processLevel in H. inv_bind H.
  destruct a as [firsts others]. inv_bind H. destruct a as [[hF oF] mF]. inv_Ok.
  apply partitionLevel_spec in E as [-> ->]. simpl in E0.
  set (firsts := filter (λ p, isFirst h p = true) lvl) in *.
  set (others := filter (λ p, isFirst h p ≠ true) lvl) in *.
  assert (Hndf : NoDup firsts) by (by apply NoDup_filter).
  assert (Hex' : ∀ c p, c ∈ firsts → p ∈ parentsOf h c → childOf h p = Some c).
  { intros c p [Hc1 Hc2]%list_elem_of_filter Hp.
    unfold exactParents in Hex. rewrite Forall_forall in Hex.
    specialize (Hex c Hc2 Hc1). rewrite Forall_forall in Hex. by apply Hex. }
  assert (Hdis : ∀ c, c ∈ firsts → c ∉ others).
  { intros c [Hc1 _]%list_elem_of_filter [Hc2 _]%list_elem_of_filter. done. }
  destruct (processFirsts_spec h _ _ _ _ _ _ _ Hndf (relinked_refl h) E0)
    as (_ & ms & -> & Hsound & _ & Hiff).
  destruct (processFirsts_store _ _ _ _ _ _ _ Hndf Hdis Hex' E0)
    as (ms' & Hms & HA & HB & HC).
  simpl in Hms. subst ms'. simpl.
  (* a node listed as a parent of a candidate is listed for that one only *)
  assert (Hown : ∀ c c' p, c ∈ firsts → c' ∈ firsts →
            p ∈ parentsOf h c → p ∈ parentsOf h c' → c' = c).
  { intros c c' p Hc Hc' Hp Hp'.
    pose proof (Hex' c p Hc Hp). pose proof (Hex' c' p Hc' Hp'). congruence. }
  split; [|split; [|done]].
  - intros pre c post Heq.
    pose proof (keptWhen_keptBefore h others firsts ms Hiff pre (c :: post) Heq) as HK.
    rewrite <- HK.
    assert (Hc : c ∈ firsts).
    { rewrite Heq. apply elem_of_app. right. left. }
    assert (Hkeep : (∀ k, (c, k) ∉ ms) →
              ∀ p, p ∈ parentsOf h c → childOf h' p = Some c).
    { intros Hno p Hp. rewrite HB; [by apply Hex'|].
      intros c' k' Hin Hp'. destruct (HA c' k' Hin) as [Hc' _].
      assert (c' = c) as -> by (by eapply Hown). by apply (Hno k'). }
    assert (Hto : ∀ k, k ≠ c → mergedInto h h' c k →
              firstMatch h c (keptBefore others ms pre) k).
    { intros k Hk [Hne Hm].
      assert (∃ p, p ∈ parentsOf h c) as [p Hpin].
      { destruct (parentsOf h c) as [|p ps]; [done|]. exists p. left. }
      destruct (Hm p Hpin) as [Hp _].
      destruct (decide (Exists (λ x, key h x = key h c) (keptBefore others ms pre)))
        as [Hyes|Hnot].
      - apply Exists_key in Hyes as [k0 Hk0].
        pose proof (proj2 (Hiff pre c post Heq k0) Hk0) as Hin.
        destruct (HA c k0 Hin) as [_ [_ Hm0]].
        destruct (Hm0 p Hpin) as [Hp0 _].
        assert (k = k0) as -> by congruence. done.
      - assert (Hno : ∀ k', (c, k') ∉ ms).
        { intros k' Hin. apply Hnot, Exists_key. exists k'.
          by apply (Hiff pre c post Heq). }
        pose proof (Hkeep Hno p Hpin) as Hp'.
        assert (k = c) by congruence. done. }
    split; [|split].
    + intros k Hk. split; [split|].
      * by apply Hto.
      * intros Hfm. apply (Hiff pre c post Heq) in Hfm. by apply HA.
      * intros Hm. apply (Hto k Hk) in Hm. apply firstMatch_elem in Hm as [_ Hkey].
        unfold key in Hkey.
        destruct (h !! k) as [nk|] eqn:Ek; destruct (h !! c) as [nc|] eqn:Ec;
          try done.
        -- exists nc, nk. injection Hkey as -> -> ->. done.
        -- exfalso. apply list_elem_of_filter in Hc as [Hc _].
           unfold isFirst in Hc. by rewrite Ec in Hc.
    + apply (Hiff pre c post Heq).
    + intros Hnone. apply Hkeep. intros k Hin.
      apply (Hiff pre c post Heq) in Hin. apply firstMatch_elem in Hin as [Hk Hkey].
      by apply (Hnone k).
  - intros q Hq. apply HB. intros c k Hin. destruct (HA c k Hin) as [Hc _].
    apply list_elem_of_filter in Hc as [Hc1 Hc2]. by apply Hq.
Qed.

(** C1 fails on the code as it is stated: in the trie of ab, ac, db, dc, xc
    the candidate 8 (the [c] below [x]) and the kept node 6 (the [c] below
    [d]) have equal [val], [hash] and [level], and 8 is not merged into 6:
    the scan stops at the kept node 3 (the [c] below [a]), which has the
    same three fields and comes first. *)
Lemma processLevel_first_match_only :
  ∃ h' ms n8 n6,
    processLevel annotated_order [2; 3; 5; 6; 8]%nat = Ok (h', ms) ∧
    isFirst annotated_order 8 = true ∧
    6%nat ∈ keptWhen annotated_order [3; 6]%nat [2; 5]%nat ∧
    annotated_order !! 8%nat = Some n8 ∧ annotated_order !! 6%nat = Some n6 ∧
    val n8 = val n6 ∧ hash n8 = hash n6 ∧ level n8 = level n6 ∧
    parentsOf annotated_order 8 = [7%nat] ∧
    childOf h' 7 = Some 3%nat ∧
    ¬ mergedInto annotated_order h' 8 6 ∧
    (8%nat, 6%nat) ∉ ms.
Proof.
  do 4 eexists.
  split; [vm_compute; reflexivity|].
  split; [reflexivity|].
  split; [refine (bool_decide_unpack _ _); vm_compute; exact I|].
  split; [reflexivity|]. split; [reflexivity|].
  split; [reflexivity|]. split; [reflexivity|]. split; [reflexivity|].
  split; [reflexivity|]. split; [reflexivity|]. split.
  - intros [_ Hm]. destruct (Hm 7%nat) as [Hc _]; [left|]. discriminate Hc.
  - refine (proj1 (bool_decide_eq_false _) _). vm_compute. reflexivity.
Qed.

Lemma processLevel_merge_iff_witness :
  ∃ h' ms,
    NoDup [2; 3; 5; 6; 8]%nat ∧
    exactParents annotated_order [2; 3; 5; 6; 8]%nat ∧
    processLevel annotated_order [2; 3; 5; 6; 8]%nat = Ok (h', ms) ∧
    (mergedInto annotated_order h' 5 2 ↔
     firstMatch annotated_order 5 [3; 6; 2]%nat 2) ∧
    (mergedInto annotated_order h' 8 6 ↔
     firstMatch annotated_order 8 [3; 6; 2]%nat 6).
Proof.
  assert (Hnd : NoDup [2; 3; 5; 6; 8]%nat) by (by compute_done).
  assert (Hex : exactParents annotated_order [2; 3; 5; 6; 8]%nat).
  { refine (bool_decide_unpack _ _). vm_compute. exact I. }
  eexists _, _. split; [exact Hnd|]. split; [exact Hex|].
  split; [vm_compute; reflexivity|].
  split.
  - refine (proj1 (proj1 (proj1 (processLevel_merge_iff annotated_order
              [2; 3; 5; 6; 8]%nat _ _ Hnd Hex _) [2]%nat 5%nat [8]%nat _) 2%nat _)).
    + vm_compute; reflexivity.
    + reflexivity.
    + lia.
  - refine (proj1 (proj1 (proj1 (processLevel_merge_iff annotated_order
              [2; 3; 5; 6; 8]%nat _ _ Hnd Hex _) [2; 5]%nat 8%nat []%nat _) 6%nat _)).
    + vm_compute; reflexivity.
    + reflexivity.
    + lia.
Defined.

(** ** Flatten: the nodes that get a slot *)

Lemma addNodesOfLevelX_covers (f : nat) :
  ∀ h t st lvl st', addNodesOfLevelX f h t st lvl = Ok st' →
  allocatedNodes st ⊆ allocatedNodes st' ∧
  ∀ q, visits h lvl t q → q ∈ allocatedNodes st'.
Proof.
  induction f as [|f IH]; intros h t st lvl st' H; [done|]. simpl in H.
  apply bind_Ok in H as (nt & Hnt & H). apply load_Ok in Hnt.
  destruct (Z.eqb_spec (level nt) lvl) as [Heq|Hne].
  - assert (Hq : ∀ q, visits h lvl t q → q = t).
    { intros q Hv. inversion Hv as [|? nt0 ? ? ? ? Ht0 Hl0]; subst; [done|].
      assert (nt0 = nt) as -> by congruence. done. }
    destruct (decide (t ∈ allocatedNodes st)) as [Hin|Hnot].
    + inv_Ok. split; [done|]. intros q Hv. by rewrite (Hq q Hv).
    + apply bind_Ok in H as (array' & _ & H). inv_Ok. simpl.
      split; [apply union_subseteq_r|]. intros q Hv. rewrite (Hq q Hv).
      apply elem_of_union. left. by apply elem_of_singleton.
  - destruct (children nt) as [c|] eqn:Hc.
    2:{ inv_Ok. split; [done|]. intros q Hv.
        inversion Hv as [? nt0 Ht0 Hl0|? nt0 ? ? ? ? Ht0 Hl0 Hc0]; subst;
          assert (nt0 = nt) as -> by congruence; congruence. }
    apply bind_Ok in H as (nc & Hnc & H). apply load_Ok in Hnc.
    destruct (firstchild nc) eqn:Hf.
    2:{ inv_Ok. split; [done|]. intros q Hv.
        inversion Hv as [? nt0 Ht0 Hl0|? nt0 c0 nc0 ? ? Ht0 Hl0 Hc0 Hnc0 Hf0];
          subst; assert (nt0 = nt) as -> by congruence; [congruence|].
        assert (c0 = c) as -> by congruence.
        assert (nc0 = nc) as -> by congruence. congruence. }
    assert (HI : allocatedNodes st ⊆ allocatedNodes st' ∧
              ∀ x q, onChain h c x → visits h lvl x q →
                q ∈ allocatedNodes st' ∨ ∃ c', @None nat = Some c' ∧ onChain h c' x).
    { refine (forChain_ind (λ _, h) _
        (λ s child, allocatedNodes st ⊆ allocatedNodes s ∧
           ∀ x q, onChain h c x → visits h lvl x q →
             q ∈ allocatedNodes s ∨ ∃ c', child = Some c' ∧ onChain h c' x)
        _ _ _ _ _ _ H).
      - intros s c' s' nc' [Hsub Hall] Hb Hnc'.
        destruct (IH _ _ _ _ _ Hb) as [Hsub' Hcov].
        split; [by transitivity (allocatedNodes s)|]. intros x q Hx Hv.
        destruct (Hall x q Hx Hv) as [Hin|(c2 & Hc2 & Hon)]; [left; by apply Hsub'|].
        injection Hc2 as <-.
        inversion Hon as [|? n nx ? Hn Hnx Hon']; subst.
        + left. by apply Hcov.
        + right. exists nx. split; [congruence|done].
      - split; [done|]. intros x q Hx Hv. right. by exists c. }
    destruct HI as [Hsub Hall]. split; [done|]. intros q Hv.
    inversion Hv as [? nt0 Ht0 Hl0|? nt0 c0 nc0 x ? Ht0 Hl0 Hc0 Hnc0 Hf0 Hon Hvx];
      subst; assert (nt0 = nt) as -> by congruence; [congruence|].
    assert (c0 = c) as -> by congruence.
    destruct (Hall x q Hon Hvx) as [Hin|(c' & Hc' & _)]; [done|discriminate].
Qed.

Lemma FlattenLoop_covers (n : nat) :
  ∀ fuel h t i st stF x q,
  FlattenLoop n fuel h t i st (length (output st)) = Ok stF →
  0 ≤ i → i + Z.of_nat n < 2 ^ 63 →
  flatInv h st →
  (∀ p ip np, unfilledParents st !! p = Some ip → h !! p = Some np → level np < i) →
  (∀ lvl y, i ≤ lvl → visits h lvl x y → visits h lvl t y) →
  firstPath h i x q →
  q ∈ allocatedNodes stF.
Proof.
  induction n as [|n IH]; intros fuel h t i st stF x q H Hi Hn Hinv Hlt Hvis Hpath;
    [done|].
  simpl in H. apply bind_Ok in H as (st1 & Hadd & H).
  destruct (addNodesOfLevelX_inv _ _ _ _ _ _ Hadd Hinv) as [Hinv1 _].
  destruct (addNodesOfLevelX_pass _ _ _ _ _ _ Hadd) as [_ Hpass].
  destruct (addNodesOfLevelX_covers _ _ _ _ _ _ Hadd) as [Hsub Hcov].
  assert (Hlt1 : ∀ p ip np, unfilledParents st1 !! p = Some ip →
                   h !! p = Some np → level np < i + 1).
  { intros p ip np Hp Hnp. destruct (Hpass p ip Hp) as [Hold|[Hl _]].
    - specialize (Hlt p ip np Hold Hnp). lia.
    - rewrite Hnp in Hl. simpl in Hl. injection Hl as ->. lia. }
  (* the node of the path at level [i] is allocated in this pass *)
  assert (Hx : ∃ nx, h !! x = Some nx ∧ level nx = i).
  { inversion Hpath; subst; eauto. }
  destruct Hx as (nx & Hnx & Hlx).
  assert (Hx1 : x ∈ allocatedNodes st1).
  { apply Hcov, (Hvis i x (Z.le_refl i)). by eapply visits_here. }
  assert (Hx0 : x ∉ allocatedNodes st).
  { intros Hin. apply (proj1 Hinv) in Hin as [ix Hix].
    specialize (Hlt x ix nx Hix Hnx). lia. }
  assert (Hgrow : (length (output st1) =? length (output st))%nat = false).
  { apply Nat.eqb_neq.
    destruct Hinv as (_ & _ & _ & _ & Hsz). destruct Hinv1 as (_ & _ & _ & _ & Hsz1).
    rewrite <- Hsz, <- Hsz1.
    assert (allocatedNodes st ⊂ allocatedNodes st1) as Hss.
    { split; [done|]. intros Hrev. apply Hx0. by apply Hrev. }
    apply subset_size in Hss. lia. }
  rewrite Hgrow in H.
  assert (Hw : wrap64 (i + 1) = i + 1).
  { unfold wrap64. rewrite Z.mod_small; lia. }
  rewrite Hw in H.
  inversion Hpath as [? ? nt Ht Hl|? ? nt c nc y ? Ht Hl Hc Hnc Hf Hon Hrest]; subst.
  - destruct n as [|n']; [done|].
    destruct (FlattenLoop_inv _ _ _ _ _ _ _ _ H Hinv1) as [HinvF Hmono].
    apply (proj1 HinvF). apply (proj1 Hinv1) in Hx1 as [ix Hix].
    exists ix. by apply Hmono.
  - eapply (IH _ _ _ _ _ _ y q H); [lia|lia|done|done| |done].
    intros lvl z Hlvl Hvz. apply Hvis; [lia|].
    eapply visits_down; [exact Ht|lia|exact Hc|exact Hnc|exact Hf|exact Hon|exact Hvz].
Qed.

(** X18.  One slot per node, for the nodes that the passes reach.  When the
    loop of [Flatten] returns (after fewer than 2^63 passes), every node
    below the root along chains of [children] that start with a node
    marked [firstchild], with levels 0, 1, 2, ... on the way down, is
    allocated; and the allocated nodes and the slots of the array
    correspond one to one: every allocated node has one slot, which holds
    its [val] and end-of-list flag, no two nodes share a slot, every slot
    belongs to a node, and there are as many slots as allocated nodes,
    however many parents reference a node. *)
Theorem Flatten_one_slot_per_node (n fuel : nat) (h : heap) (t : ptr)
    (st : flatstate) :
  FlattenLoop n fuel h t 0 (mkFlat [] ∅ ∅) 0 = Ok st →
  Z.of_nat n < 2 ^ 63 →
  (∀ q, firstPath h 0 t q → q ∈ allocatedNodes st) ∧
  (∀ p, p ∈ allocatedNodes st ↔ is_Some (unfilledParents st !! p)) ∧
  (∀ p i, unfilledParents st !! p = Some i →
     0 ≤ i < Z.of_nat (length (output st)) ∧
     ∃ nd el, h !! p = Some nd ∧ output st !! Z.to_nat i = Some el ∧
       arraynode.val el = val nd ∧
       arraynode.eol el = bool_decide (next nd = None)) ∧
  (∀ p q i, unfilledParents st !! p = Some i →
            unfilledParents st !! q = Some i → p = q) ∧
  (∀ j, (j < length (output st))%nat →
        ∃ p, unfilledParents st !! p = Some (Z.of_nat j)) ∧
  size (allocatedNodes st) = length (output st).
Proof.
  intros H Hn. split.
  - intros q Hq.
    eapply (FlattenLoop_covers n fuel h t 0 (mkFlat [] ∅ ∅) st t q);
      [exact H|lia|lia|apply flatInv_empty| |done|exact Hq].
    intros p ip np Hp. simpl in Hp. by rewrite lookup_empty in Hp.
  - by destruct (FlattenLoop_inv _ _ _ _ _ _ _ _ H (flatInv_empty h)).
Qed.

Lemma Flatten_one_slot_per_node_witness :
  ∃ st,
    FlattenLoop 20 20 graph_slots 0 0 (mkFlat [] ∅ ∅) 0 = Ok st ∧
    Z.of_nat 20 < 2 ^ 63 ∧
    firstPath graph_slots 0 0 7 ∧
    7%nat ∈ allocatedNodes st ∧
    size (allocatedNodes st) = length (output st).
Proof.
  assert (Hp : firstPath graph_slots 0 0 7).
  { eapply (firstPath_down graph_slots 0 0 _ 1 _ 4);
      [reflexivity|reflexivity|reflexivity|reflexivity|reflexivity| |].
    - eapply onChain_next; [reflexivity|reflexivity|apply onChain_here].
    - eapply (firstPath_down graph_slots _ 4 _ 5 _ 7);
        [reflexivity|reflexivity|reflexivity|reflexivity|reflexivity| |].
      + eapply onChain_next; [reflexivity|reflexivity|].
        eapply onChain_next; [reflexivity|reflexivity|apply onChain_here].
      + eapply firstPath_here; reflexivity. }
  eexists. split; [vm_compute; reflexivity|]. split; [lia|]. split; [exact Hp|].
  refine (let H := Flatten_one_slot_per_node 20 20 graph_slots 0 _ _ _ in
          conj (proj1 H 7%nat Hp) (proj2 (proj2 (proj2 (proj2 (proj2 H)))))).
  - vm_compute; reflexivity.
  - lia.
Defined.
